(** * ol/xml: the table-driven XML parse / serialize engine

    A shallow embedding of [src/ol/xml.js].  JavaScript values live in a
    store (arrays and records are shared by reference), functions of the
    module become state-passing functions that may throw, and the
    handler tables become finite maps keyed by namespace and local
    name.  Tables and records are ordinary objects: besides their own
    keys they have the members of [Object.prototype], which a lookup
    finds when there is no own key of that name. *)

From Stdlib Require Import Ascii.
From stdpp Require Import base option list gmap strings.

Set Warnings "-register-all".

(** ** Values *)

Definition loc := nat.   (* address of an array or a record *)
Definition nid := nat.   (* address of a node of the output document *)
Definition cid := nat.   (* address of the captured variables of a closure *)

(** The members of [Object.prototype]: every ordinary object has them
    unless it has an own property of the same name. *)
Inductive ObjectMember :=
| Constructor
| DefineGetter
| DefineSetter
| HasOwnProperty
| LookupGetter
| LookupSetter
| IsPrototypeOf
| PropertyIsEnumerable
| ToString
| ValueOf
| Proto
| ToLocaleString.

Definition OBJECT_PROTOTYPE : gmap string ObjectMember :=
  list_to_map
    [ ("constructor", Constructor);
      ("__defineGetter__", DefineGetter);
      ("__defineSetter__", DefineSetter);
      ("hasOwnProperty", HasOwnProperty);
      ("__lookupGetter__", LookupGetter);
      ("__lookupSetter__", LookupSetter);
      ("isPrototypeOf", IsPrototypeOf);
      ("propertyIsEnumerable", PropertyIsEnumerable);
      ("toString", ToString);
      ("valueOf", ValueOf);
      ("__proto__", Proto);
      ("toLocaleString", ToLocaleString) ].

(** The member of [Object.prototype] that a key names, if any. *)
Definition inherited (key : string) : option ObjectMember :=
  OBJECT_PROTOTYPE !! key.

(** [VBuiltin b] is what reading the member [b] from an ordinary
    object gives: a built-in function ([Object] for [constructor]),
    except for [__proto__], whose getter gives [Object.prototype]
    itself. *)
Inductive Val :=
| VUndefined
| VNull
| VBool (b : bool)
| VNum (z : Z)
| VStr (s : string)
| VObj (l : loc)
| VNode (n : nid)
| VBuiltin (b : ObjectMember).

(** [value !== undefined] *)
Definition defined (v : Val) : bool :=
  match v with VUndefined => false | _ => true end.

(** Objects of the store.  A record is an ordinary object, given by
    its own properties; its prototype is [Object.prototype].  An array
    holds its elements, a hole reading as [undefined]. *)
Inductive Obj :=
| Arr (elems : list Val)
| Rec (props : gmap string Val).

(** Whether a value can be called: the members of [Object.prototype]
    are functions, all but [__proto__]. *)
Definition callable (v : Val) : bool :=
  match v with
  | VBuiltin Proto => false
  | VBuiltin _ => true
  | _ => false
  end.

(** [object[property]] for an ordinary object whose own properties
    are [m]: the own property, else the member of [Object.prototype]
    of that name, else [undefined]. *)
Definition read_property (m : gmap string Val) (property : string) : Val :=
  match m !! property with
  | Some v => v
  | None =>
      match inherited property with
      | Some b => VBuiltin b
      | None => VUndefined
      end
  end.

(** ** Documents *)

(** The document being read: the module never writes to it, so it is a
    plain tree.  [namespaceURI] is [null] for an element in no
    namespace. *)
Inductive Node :=
| Element (namespaceURI : option string) (localName : string)
          (childNodes : list Node)
| Text (nodeValue : string).

Definition isElement (n : Node) : bool :=
  match n with Element _ _ _ => true | Text _ => false end.

(** [node.firstElementChild], then [nextElementSibling] until it is
    null: the element children, in document order. *)
Definition elementChildren (n : Node) : list Node :=
  match n with
  | Element _ _ cs => filter (λ c, isElement c = true) cs
  | Text _ => []
  end.

Definition Node_namespaceURI (n : Node) : option string :=
  match n with Element ns _ _ => ns | Text _ => None end.

(** [localName] is [undefined] on a text node. *)
Definition Node_localName (n : Node) : option string :=
  match n with Element _ name _ => Some name | Text _ => None end.

(** The document being written: elements are created and linked in
    place, so they live in the store. *)
Record DomNode := mkDomNode {
  namespaceURI : option string;
  localName : string;
  parentNode : option nid;
  childNodes : list nid;
  attributes : list (string * Val)
}.

(** A property key from a value that is a string, [null] or
    [undefined]. *)
Definition key_of (k : option string) (dflt : string) : string :=
  default dflt k.

(** ** The store and the monad *)

Record State := mkState {
  heap : gmap loc Obj;
  nodes : gmap nid DomNode;
  cells : gmap cid (option (string * string))
}.

Definition empty_state : State := mkState ∅ ∅ ∅.

(** What a call can throw.  [Unmodelled] has no JavaScript counterpart:
    it marks a reference that is not in the store, an argument outside
    the type its JSDoc annotation gives it, or an operation on a
    built-in object that the model does not follow (reading or writing
    a member of a built-in function, replacing the prototype of an
    object). *)
Inductive Exn :=
| TypeError
| HierarchyRequestError
| Thrown (v : Val)
| Unmodelled.

Inductive Res (A : Type) :=
| Ok (a : A) (s : State)
| Throw (e : Exn) (s : State).
Arguments Ok {A} a s.
Arguments Throw {A} e s.

Abbreviation M A := (State → Res A).

Definition ret {A} (a : A) : M A := λ s, Ok a s.

Definition bind {A B} (m : M A) (k : A → M B) : M B :=
  λ s, match m s with
       | Ok a s' => k a s'
       | Throw e s' => Throw e s'
       end.

Definition throw {A} (e : Exn) : M A := λ s, Throw e s.

Declare Scope js_scope.
Delimit Scope js_scope with js.
Notation "x <- m ;; k" := (bind m (λ x, k))
  (at level 100, m at next level, right associativity) : js_scope.
Notation "m ;; k" := (bind m (λ _, k))
  (at level 100, right associativity) : js_scope.
Open Scope js_scope.

(** The [for] loops of the module all run over a range fixed before
    the first iteration. *)
Fixpoint forEach {A} (body : A → M unit) (l : list A) : M unit :=
  match l with
  | [] => ret tt
  | x :: r => body x ;; forEach body r
  end.

Definition state_of {A} (r : Res A) : State :=
  match r with Ok _ s => s | Throw _ s => s end.

(** ** Primitives on the store *)

Definition getObj (l : loc) : M Obj :=
  λ s, match heap s !! l with
       | Some o => Ok o s
       | None => Throw Unmodelled s
       end.

Definition setObj (l : loc) (o : Obj) : M unit :=
  λ s, Ok tt (mkState (<[l := o]> (heap s)) (nodes s) (cells s)).

Definition alloc (o : Obj) : M loc :=
  λ s, let l := fresh (dom (heap s)) in
       Ok l (mkState (<[l := o]> (heap s)) (nodes s) (cells s)).

Definition getArray (l : loc) : M (list Val) :=
  o <- getObj l ;;
  match o with
  | Arr es => ret es
  | Rec _ => throw Unmodelled
  end.

(** [a.push(v)] on a parameter typed as an array. *)
Definition arr_push (a : loc) (v : Val) : M unit :=
  es <- getArray a ;; setObj a (Arr (es ++ [v])).

(** [a.pop()]: [undefined] on an empty array. *)
Definition arr_pop (a : loc) : M Val :=
  es <- getArray a ;;
  match last es with
  | Some v => setObj a (Arr (removelast es)) ;; ret v
  | None => ret VUndefined
  end.

(** [a[a.length - 1]]: [a[-1]], so [undefined], on an empty array. *)
Definition arr_top (a : loc) : M Val :=
  es <- getArray a ;; ret (default VUndefined (last es)).

(** [a[a.length - 1] = v].  On an empty array JavaScript would set the
    property named [-1], which the model does not have. *)
Definition arr_set_top (a : loc) (v : Val) : M unit :=
  es <- getArray a ;;
  match es with
  | [] => throw Unmodelled
  | _ => setObj a (Arr (<[pred (length es) := v]> es))
  end.

(** [values.length] *)
Definition val_length (values : Val) : M nat :=
  match values with
  | VObj l => es <- getArray l ;; ret (length es)
  | VUndefined | VNull => throw TypeError
  | _ => throw Unmodelled
  end.

(** [values[i]]: [undefined] past the end. *)
Definition val_index (values : Val) (i : nat) : M Val :=
  match values with
  | VObj l => es <- getArray l ;; ret (default VUndefined (es !! i))
  | VUndefined | VNull => throw TypeError
  | _ => throw Unmodelled
  end.

(** [array.push(value)] on an arbitrary value: only arrays have
    [push], unless a record has a property of that name, which is
    called when it is a function. *)
Definition val_push (array : Val) (value : Val) : M unit :=
  match array with
  | VObj l =>
      o <- getObj l ;;
      match o with
      | Arr es => setObj l (Arr (es ++ [value]))
      | Rec m =>
          if callable (read_property m "push") then throw Unmodelled
          else throw TypeError
      end
  | _ => throw TypeError
  end.

(** [property in object]: true for an own property and for a member of
    [Object.prototype]; a [TypeError] on a primitive. *)
Definition has_property (object : Val) (property : string) : M bool :=
  match object with
  | VObj l =>
      o <- getObj l ;;
      match o with
      | Rec m =>
          ret (bool_decide (is_Some (m !! property)) ||
               bool_decide (is_Some (inherited property)))
      | Arr _ => throw Unmodelled
      end
  | VNode _ | VBuiltin _ => throw Unmodelled
  | VUndefined | VNull | VBool _ | VNum _ | VStr _ => throw TypeError
  end.

(** [object[property]] *)
Definition get_property (object : Val) (property : string) : M Val :=
  match object with
  | VObj l =>
      o <- getObj l ;;
      match o with
      | Rec m => ret (read_property m property)
      | Arr _ => throw Unmodelled
      end
  | VUndefined | VNull => throw TypeError
  | _ => throw Unmodelled
  end.

(** What the setter of [__proto__] does with the value assigned: a
    value that is neither an object nor [null] is passed over; any
    other would become the prototype of the object. *)
Definition proto_ignores (value : Val) : bool :=
  match value with
  | VUndefined | VBool _ | VNum _ | VStr _ => true
  | VNull | VObj _ | VNode _ | VBuiltin _ => false
  end.

(** [object[property] = value].  An ordinary object gets an own
    property, except under the name [__proto__] when it has no own
    property of that name: the assignment then goes to the setter
    inherited from [Object.prototype].  The module is strict code, so
    the assignment throws on a primitive; under the name [__proto__]
    it reaches the same setter, which returns at once for a receiver
    that is not an object. *)
Definition set_property (object : Val) (property : string) (value : Val)
  : M unit :=
  match object with
  | VObj l =>
      o <- getObj l ;;
      match o with
      | Rec m =>
          if bool_decide (property = "__proto__" ∧ m !! property = None)
          then if proto_ignores value then ret tt else throw Unmodelled
          else setObj l (Rec (<[property := value]> m))
      | Arr _ => throw Unmodelled
      end
  | VNode _ | VBuiltin _ => throw Unmodelled
  | VBool _ | VNum _ | VStr _ =>
      if bool_decide (property = "__proto__") then ret tt
      else throw TypeError
  | VUndefined | VNull => throw TypeError
  end.

(** ** Primitives on the output document *)

Definition getNode (n : nid) : M DomNode :=
  λ s, match nodes s !! n with
       | Some d => Ok d s
       | None => Throw Unmodelled s
       end.

Definition setNode (n : nid) (d : DomNode) : M unit :=
  λ s, Ok tt (mkState (heap s) (<[n := d]> (nodes s)) (cells s)).

(** The local part of a qualified name: what follows the prefix. *)
Fixpoint after_colon (q : string) : option string :=
  match q with
  | EmptyString => None
  | String c r => if Ascii.eqb c ":"%char then Some r else after_colon r
  end.

Definition local_part (q : string) : string := default q (after_colon q).

(** The namespaces that the DOM reserves for the prefixes [xml] and
    [xmlns]. *)
Definition XML_NAMESPACE : string := "http://www.w3.org/XML/1998/namespace".
Definition XMLNS_NAMESPACE : string := "http://www.w3.org/2000/xmlns/".

(** Names without a colon made of the letters of ASCII, the digits
    and [_], [-] and [.], the first character being a letter or [_]:
    these are names of XML. *)
Definition name_start (c : ascii) : bool :=
  let n := nat_of_ascii c in
  Nat.leb 65 n && Nat.leb n 90 || Nat.leb 97 n && Nat.leb n 122 ||
  Nat.eqb n 95.

Definition name_char (c : ascii) : bool :=
  let n := nat_of_ascii c in
  name_start c || Nat.leb 48 n && Nat.leb n 57 || Nat.eqb n 45 ||
  Nat.eqb n 46.

Fixpoint all_chars (p : ascii → bool) (s : string) : bool :=
  match s with
  | EmptyString => true
  | String c r => p c && all_chars p r
  end.

Definition nc_name (s : string) : bool :=
  match s with
  | EmptyString => false
  | String c r => name_start c && all_chars name_char r
  end.

Fixpoint before_colon (q : string) : string :=
  match q with
  | EmptyString => EmptyString
  | String c r =>
      if Ascii.eqb c ":"%char then EmptyString else String c (before_colon r)
  end.

(** Arguments with which [createElementNS] of the DOM creates an
    element of that very namespace and name: the namespace is not the
    empty string (which the DOM reads as [null]); the qualified name is
    a name, or a prefix and a name; a prefix comes with a namespace, the
    prefix [xml] with that of XML, and the name or prefix [xmlns] with
    that of [xmlns] and conversely.  With other arguments the DOM
    throws, or creates the element in another namespace. *)
Definition dom_accepts (ns : option string) (q : string) : bool :=
  negb (bool_decide (ns = Some "")) &&
  match after_colon q with
  | Some local =>
      let prefix := before_colon q in
      nc_name prefix && nc_name local &&
      negb (bool_decide (ns = None)) &&
      (negb (bool_decide (prefix = "xml")) ||
       bool_decide (ns = Some XML_NAMESPACE)) &&
      Bool.eqb (bool_decide (prefix = "xmlns"))
        (bool_decide (ns = Some XMLNS_NAMESPACE))
  | None =>
      nc_name q &&
      Bool.eqb (bool_decide (q = "xmlns"))
        (bool_decide (ns = Some XMLNS_NAMESPACE))
  end.

(** [createElementNS(namespaceURI, qualifiedName)]: a new element that
    has no parent yet.  The arguments are taken to be such as the DOM
    accepts (see [dom_accepts]): what it does with the others, which
    is to throw or to change the namespace, is not modelled. *)
Definition createElementNS (ns : option string) (qualifiedName : string)
  : M nid :=
  λ s, let n := fresh (dom (nodes s)) in
       Ok n (mkState (heap s)
               (<[n := mkDomNode ns (local_part qualifiedName) None [] []]>
                  (nodes s))
               (cells s)).

(** Whether [a] is [p] or one of its ancestors; parent links are
    followed at most once per node of the store. *)
Fixpoint inclusive_ancestor (fuel : nat) (ns : gmap nid DomNode)
  (a p : nid) : bool :=
  bool_decide (a = p) ||
  match fuel with
  | 0 => false
  | S f =>
      match ns !! p ≫= parentNode with
      | Some q => inclusive_ancestor f ns a q
      | None => false
      end
  end.

Definition remove_child (c : nid) (d : DomNode) : DomNode :=
  mkDomNode (namespaceURI d) (localName d) (parentNode d)
    (filter (λ x, x ≠ c) (childNodes d)) (attributes d).

Definition add_child (c : nid) (d : DomNode) : DomNode :=
  mkDomNode (namespaceURI d) (localName d) (parentNode d)
    (childNodes d ++ [c]) (attributes d).

Definition set_parent (p : nid) (d : DomNode) : DomNode :=
  mkDomNode (namespaceURI d) (localName d) (Some p)
    (childNodes d) (attributes d).

(** [parent.appendChild(node)] on two elements: the node leaves its
    former parent and becomes the last child of [parent]. *)
Definition appendChild (parent node : nid) : M unit :=
  p <- getNode parent ;;
  c <- getNode node ;;
  λ s,
    if inclusive_ancestor (size (nodes s)) (nodes s) node parent
    then Throw HierarchyRequestError s
    else
      let ns1 := match parentNode c with
                 | Some q => alter (remove_child node) q (nodes s)
                 | None => nodes s
                 end in
      let ns2 := alter (add_child node) parent ns1 in
      let ns3 := alter (set_parent parent) node ns2 in
      Ok tt (mkState (heap s) ns3 (cells s)).

(** [parentNode.appendChild(node)] where [parentNode] is any value:
    only nodes have [appendChild], unless a record has a property of
    that name, which is called when it is a function. *)
Definition val_appendChild (parentNode : Val) (node : nid) : M unit :=
  match parentNode with
  | VNode p => appendChild p node
  | VObj l =>
      o <- getObj l ;;
      match o with
      | Rec m =>
          if callable (read_property m "appendChild") then throw Unmodelled
          else throw TypeError
      | Arr _ => throw TypeError
      end
  | _ => throw TypeError
  end.

(** [node.namespaceURI] where [node] is any value. *)
Definition val_namespaceURI (node : Val) : M (option string) :=
  match node with
  | VNode n => d <- getNode n ;; ret (namespaceURI d)
  | VUndefined | VNull => throw TypeError
  | _ => throw Unmodelled
  end.

(** [node.setAttribute(name, value)], for the node writers of the
    examples. *)
Definition setAttribute (node : nid) (name : string) (value : Val)
  : M unit :=
  d <- getNode node ;;
  setNode node
    (mkDomNode (namespaceURI d) (localName d) (parentNode d) (childNodes d)
       (attributes d ++ [(name, value)])).

(** ** Handlers and tables *)

(** A handler takes its receiver ([this]) first.  A table maps a
    namespace URI to a map from local names to handlers; [null] and
    [undefined] used as keys are the strings of those names. *)
Abbreviation Parser := (Val → Node → loc → M unit).
Abbreviation ValueReader := (Val → Node → loc → M Val).
Abbreviation Serializer := (Val → nid → Val → loc → M unit).
Abbreviation NodeFactory := (Val → Val → loc → option string → M (option nid)).

(** [opt_this !== undefined ? opt_this : this] *)
Definition receiver (opt_this this : Val) : Val :=
  if defined opt_this then opt_this else this.

(** What [table[key]] finds in a table that is an ordinary object: its
    own entry, else the member of [Object.prototype] of that name,
    else nothing ([undefined]). *)
Inductive Found (H : Type) :=
| Own (h : H)
| Inherited (b : ObjectMember)
| Absent.
Arguments Own {H} h.
Arguments Inherited {H} b.
Arguments Absent {H}.

Definition lookup_key {H} (table : gmap string H) (key : string) : Found H :=
  match table !! key with
  | Some h => Own h
  | None =>
      match inherited key with
      | Some b => Inherited b
      | None => Absent
      end
  end.

Definition nullish (v : Val) : bool :=
  match v with VUndefined | VNull => true | _ => false end.

(** [member.call(this, first, second, ...)] for a member of
    [Object.prototype] found where a handler was looked for; [first] is
    a node in both directions.  [__proto__] gives [Object.prototype],
    which has no [call]; [Object] returns its argument and [toString] a
    string; the others start by turning [this] into an object, which
    throws for [undefined] and [null]; [__defineGetter__] and
    [__defineSetter__] then throw unless [second] is a function, and
    [toLocaleString] calls the [toString] of [this]. *)
Definition call_member (b : ObjectMember) (this second : Val) : M unit :=
  match b with
  | Proto => throw TypeError
  | Constructor | ToString => ret tt
  | ValueOf | HasOwnProperty | IsPrototypeOf | PropertyIsEnumerable
  | LookupGetter | LookupSetter =>
      if nullish this then throw TypeError else ret tt
  | DefineGetter | DefineSetter =>
      if nullish this then throw TypeError
      else if callable second then throw Unmodelled
      else throw TypeError
  | ToLocaleString =>
      match this with
      | VUndefined | VNull => throw TypeError
      | VBool _ | VNum _ | VStr _ | VNode _ => ret tt
      | VObj _ | VBuiltin _ => throw Unmodelled
      end
  end.

(** Whether looking up [ns] and then [name] in a table ends on a
    member of [Object.prototype], rather than on an entry of the table
    or on nothing. *)
Definition inherits {H} (table : gmap string (gmap string H))
  (ns name : string) : bool :=
  match lookup_key table ns with
  | Own handlers =>
      match lookup_key handlers name with
      | Inherited _ => true
      | _ => false
      end
  | Inherited _ => true
  | Absent => false
  end.

(** ** Read direction: the combinators *)

(** Modelled from the spec: [extend] of [ol/array.js], which is not
    among the sources.  It appends all the elements of the sequence
    read to the sequence it is given; what it does when one of the two
    is not a sequence is not stated. *)
Definition extend (array : Val) (value : Val) : M unit :=
  match array, value with
  | VObj a, VObj d =>
      extension <- getArray d ;;
      es <- getArray a ;;
      setObj a (Arr (es ++ extension))
  | _, _ => throw Unmodelled
  end.

Definition makeArrayExtender (valueReader : ValueReader) (opt_this : Val)
  : Parser :=
  λ this node objectStack,
    value <- valueReader opt_this node objectStack ;;
    if defined value then
      array <- arr_top objectStack ;;
      extend array value
    else ret tt.

Definition makeArrayPusher (valueReader : ValueReader) (opt_this : Val)
  : Parser :=
  λ this node objectStack,
    value <- valueReader (receiver opt_this this) node objectStack ;;
    if defined value then
      array <- arr_top objectStack ;;
      val_push array value
    else ret tt.

Definition makeReplacer (valueReader : ValueReader) (opt_this : Val)
  : Parser :=
  λ this node objectStack,
    value <- valueReader (receiver opt_this this) node objectStack ;;
    if defined value then arr_set_top objectStack value
    else ret tt.

(** [opt_property !== undefined ? opt_property : node.localName] *)
Definition property_of (opt_property : option string) (node : Node)
  : string :=
  match opt_property with
  | Some p => p
  | None => default "undefined" (Node_localName node)
  end.

Definition makeObjectPropertyPusher (valueReader : ValueReader)
  (opt_property : option string) (opt_this : Val) : Parser :=
  λ this node objectStack,
    value <- valueReader (receiver opt_this this) node objectStack ;;
    if defined value then
      object <- arr_top objectStack ;;
      let property := property_of opt_property node in
      present <- has_property object property ;;
      array <- (if present : bool then get_property object property
                else
                  a <- alloc (Arr []) ;;
                  set_property object property (VObj a) ;;
                  ret (VObj a)) ;;
      val_push array value
    else ret tt.

Definition makeObjectPropertySetter (valueReader : ValueReader)
  (opt_property : option string) (opt_this : Val) : Parser :=
  λ this node objectStack,
    value <- valueReader (receiver opt_this this) node objectStack ;;
    if defined value then
      object <- arr_top objectStack ;;
      let property := property_of opt_property node in
      set_property object property value
    else ret tt.

(** ** Read direction: dispatch *)

(** The body of the loop of [parseNode], for the child [n].  When
    [parsersNS[n.namespaceURI]] is a member of [Object.prototype], the
    next lookup is in a built-in object, which the model does not
    follow. *)
Definition parseChild (parsersNS : gmap string (gmap string Parser))
  (objectStack : loc) (opt_this : Val) (n : Node) : M unit :=
  match lookup_key parsersNS (default "null" (Node_namespaceURI n)) with
  | Own parsers =>
      match lookup_key parsers (default "undefined" (Node_localName n)) with
      | Own parser => parser opt_this n objectStack
      | Inherited b => call_member b opt_this (VObj objectStack)
      | Absent => ret tt
      end
  | Inherited _ => throw Unmodelled
  | Absent => ret tt
  end.

Definition parseNode (parsersNS : gmap string (gmap string Parser))
  (node : Node) (objectStack : loc) (opt_this : Val) : M unit :=
  forEach (parseChild parsersNS objectStack opt_this) (elementChildren node).

Definition pushParseAndPop (object : Val)
  (parsersNS : gmap string (gmap string Parser))
  (node : Node) (objectStack : loc) (opt_this : Val) : M Val :=
  arr_push objectStack object ;;
  parseNode parsersNS node objectStack opt_this ;;
  arr_pop objectStack.

(** ** Write direction: dispatch *)

(** [serializersNS[ns][name].call(opt_this, node, value, objectStack)]:
    no lookup is guarded, so that a miss is a [TypeError]; a member of
    [Object.prototype] found for the name is called; one found for the
    namespace is a built-in object, in which the model does not follow
    the next lookup. *)
Definition callSerializer
  (serializersNS : gmap string (gmap string Serializer))
  (ns : option string) (name : string) (opt_this : Val) (node : nid)
  (value : Val) (objectStack : loc) : M unit :=
  match lookup_key serializersNS (default "null" ns) with
  | Own serializers =>
      match lookup_key serializers name with
      | Own serializer => serializer opt_this node value objectStack
      | Inherited b => call_member b opt_this value
      | Absent => throw TypeError
      end
  | Inherited _ => throw Unmodelled
  | Absent => throw TypeError
  end.

(** What [serialize] does with a value that is not [undefined]: ask
    the node factory for a node and, when there is one, call the
    serializer found under its namespace and local name. *)
Definition writeEntry
  (serializersNS : gmap string (gmap string Serializer))
  (nodeFactory : NodeFactory) (objectStack : loc) (opt_this : Val)
  (key : option string) (value : Val) : M unit :=
  node <- nodeFactory opt_this value objectStack key ;;
  match node with
  | Some n =>
      d <- getNode n ;;
      callSerializer serializersNS (namespaceURI d) (localName d) opt_this n
        value objectStack
  | None => ret tt
  end.

(** The body of the loop of [serialize], at index [i]. *)
Definition serializeValue
  (serializersNS : gmap string (gmap string Serializer))
  (nodeFactory : NodeFactory) (values : Val) (objectStack : loc)
  (opt_keys : option (list string)) (opt_this : Val) (i : nat) : M unit :=
  value <- val_index values i ;;
  if defined value then
    writeEntry serializersNS nodeFactory objectStack opt_this
      (opt_keys ≫= (.!! i)) value
  else ret tt.

Definition serialize
  (serializersNS : gmap string (gmap string Serializer))
  (nodeFactory : NodeFactory) (values : Val) (objectStack : loc)
  (opt_keys : option (list string)) (opt_this : Val) : M unit :=
  length <- match opt_keys with
            | Some keys => ret (length keys)
            | None => val_length values
            end ;;
  forEach (serializeValue serializersNS nodeFactory values objectStack
             opt_keys opt_this) (seq 0 length).

Definition pushSerializeAndPop (object : Val)
  (serializersNS : gmap string (gmap string Serializer))
  (nodeFactory : NodeFactory) (values : Val) (objectStack : loc)
  (opt_keys : option (list string)) (opt_this : Val) : M Val :=
  arr_push objectStack object ;;
  serialize serializersNS nodeFactory values objectStack opt_keys opt_this ;;
  arr_pop objectStack.

(** ** Write direction: node factories and combinators *)

Definition makeSimpleNodeFactory (opt_nodeName : option string)
  (opt_namespaceURI : option string) : NodeFactory :=
  let fixedNodeName := opt_nodeName in
  λ this value objectStack opt_nodeName,
    context <- arr_top objectStack ;;
    node <- get_property context "node" ;;
    let nodeName := match fixedNodeName with
                    | Some name => Some name
                    | None => opt_nodeName
                    end in
    namespaceURI <- match opt_namespaceURI with
                    | Some uri => ret (Some uri)
                    | None => val_namespaceURI node
                    end ;;
    n <- createElementNS namespaceURI (default "undefined" nodeName) ;;
    ret (Some n).

Definition OBJECT_PROPERTY_NODE_FACTORY : NodeFactory :=
  makeSimpleNodeFactory None None.

Definition makeChildAppender (nodeWriter : Serializer) (opt_this : Val)
  : Serializer :=
  λ this node value objectStack,
    nodeWriter (receiver opt_this this) node value objectStack ;;
    parent <- arr_top objectStack ;;
    parentNode <- get_property parent "node" ;;
    val_appendChild parentNode node.

(** The variables [serializersNS] and [nodeFactory] captured by the
    serializer that [makeArraySerializer] returns.  Both are determined
    by the namespace key and the local name they were built from, which
    is what the cell holds once they are defined. *)
Definition getCell (c : cid) : M (option (string * string)) :=
  λ s, match cells s !! c with
       | Some v => Ok v s
       | None => Throw Unmodelled s
       end.

Definition setCell (c : cid) (v : option (string * string)) : M unit :=
  λ s, Ok tt (mkState (heap s) (nodes s) (<[c := v]> (cells s))).

Definition allocCell : M cid :=
  λ s, let c := fresh (dom (cells s)) in
       Ok c (mkState (heap s) (nodes s) (<[c := None]> (cells s))).

(** The function returned by [makeArraySerializer], its captured
    variables being those of the cell [c]. *)
Definition arraySerializer (c : cid) (nodeWriter : Serializer)
  : Serializer :=
  λ this node value objectStack,
    cached <- getCell c ;;
    captured <- match cached with
                | Some built => ret built
                | None =>
                    d <- getNode node ;;
                    let built :=
                      (default "null" (namespaceURI d), localName d) in
                    setCell c (Some built) ;;
                    ret built
                end ;;
    let serializersNS : gmap string (gmap string Serializer) :=
      {[ captured.1 := {[ captured.2 := nodeWriter ]} ]} in
    let nodeFactory := makeSimpleNodeFactory (Some captured.2) None in
    serialize serializersNS nodeFactory value objectStack None VUndefined.

Definition makeArraySerializer (nodeWriter : Serializer) (opt_this : Val)
  : M Serializer :=
  c <- allocCell ;; ret (arraySerializer c nodeWriter).

(** ** Sequences and namespaced structures *)

Definition makeSequence (object : Val) (orderedKeys : list string)
  : M Val :=
  let length := length orderedKeys in
  sequence <- alloc (Arr (replicate length VUndefined)) ;;
  forEach (λ i,
     v <- get_property object (default "undefined" (orderedKeys !! i)) ;;
     es <- getArray sequence ;;
     setObj sequence (Arr (<[i := v]> es))) (seq 0 length) ;;
  ret (VObj sequence).

(** [structureNS[key] = structure] on a table that is an ordinary
    object.  Under the key [__proto__], unless the table has an own
    entry of that name, the assignment would make the structure the
    prototype of the table: there is no such table in the model. *)
Definition assign_key {T} (structureNS : gmap string T) (key : string)
  (structure : T) : option (gmap string T) :=
  if bool_decide (key = "__proto__" ∧ structureNS !! key = None) then None
  else Some (<[key := structure]> structureNS).

(** The table that is passed as [opt_structureNS] is extended in place
    and returned; a table being a value of the model, the result is
    the table as it is after the call. *)
Definition makeStructureNS {T} (namespaceURIs : list string) (structure : T)
  (opt_structureNS : option (gmap string T)) : option (gmap string T) :=
  let structureNS := default ∅ opt_structureNS in
  foldl (λ acc uri, acc ≫= λ table, assign_key table uri structure)
    (Some structureNS) namespaceURIs.

(** ** Text content *)

Definition CR : ascii := "013"%char.
Definition LF : ascii := "010"%char.

(** [String(nodeValue).replace(/(\r\n|\r|\n)/g, '')]: the string is
    scanned from the left; where one of the alternatives matches, the
    first that does is left out and the scan goes on after it. *)
Fixpoint remove_line_breaks (s : string) : string :=
  match s with
  | EmptyString => EmptyString
  | String c r =>
      if Ascii.eqb c CR then
        match r with
        | String c' r' =>
            if Ascii.eqb c' LF then remove_line_breaks r'
            else remove_line_breaks r
        | EmptyString => remove_line_breaks r
        end
      else if Ascii.eqb c LF then remove_line_breaks r
      else String c (remove_line_breaks r)
  end.

(** What [join] makes of an element of an array of strings:
    [undefined] and [null] read as the empty string. *)
Definition joined (v : Val) : option string :=
  match v with
  | VStr s => Some s
  | VUndefined | VNull => Some EmptyString
  | _ => None
  end.

(** [accumulator.join(separator)] on a parameter typed as an array of
    strings. *)
Definition join (a : loc) (separator : string) : M string :=
  es <- getArray a ;;
  match mapM joined es with
  | Some pieces => ret (String.concat separator pieces)
  | None => throw Unmodelled
  end.

(** A [Text] of the model is a text node or a CDATA section; an
    element is walked from [firstChild] along [nextSibling].  Nodes of
    other kinds (comments, processing instructions) have no children
    and add nothing; they are not part of the model. *)
Fixpoint getAllTextContent_ (node : Node) (normalizeWhitespace : bool)
  (accumulator : loc) : M loc :=
  match node with
  | Text nodeValue =>
      (if normalizeWhitespace
       then arr_push accumulator (VStr (remove_line_breaks nodeValue))
       else arr_push accumulator (VStr nodeValue)) ;;
      ret accumulator
  | Element _ _ kids =>
      (fix siblings (l : list Node) : M unit :=
         match l with
         | [] => ret tt
         | n :: r =>
             getAllTextContent_ n normalizeWhitespace accumulator ;;
             siblings r
         end) kids ;;
      ret accumulator
  end.

Definition getAllTextContent (node : Node) (normalizeWhitespace : bool)
  : M string :=
  accumulator <- alloc (Arr []) ;;
  filled <- getAllTextContent_ node normalizeWhitespace accumulator ;;
  join filled EmptyString.

(** * Reasoning about the monad *)

Lemma bind_Ok_inv {A B} (m : M A) (k : A → M B) s b s' :
  bind m k s = Ok b s' → ∃ a s1, m s = Ok a s1 ∧ k a s1 = Ok b s'.
Proof.
  unfold bind. destruct (m s) as [a s1|e s1]; [eauto | discriminate].
Qed.

Lemma bind_Ok {A B} (m : M A) (k : A → M B) s a s1 :
  m s = Ok a s1 → bind m k s = k a s1.
Proof. unfold bind. by intros ->. Qed.

Lemma bind_Throw {A B} (m : M A) (k : A → M B) s e s1 :
  m s = Throw e s1 → bind m k s = Throw e s1.
Proof. unfold bind. by intros ->. Qed.

Lemma bind_assoc {A B C} (m : M A) (k : A → M B) (k' : B → M C) s :
  bind (bind m k) k' s = bind m (λ x, bind (k x) k') s.
Proof. unfold bind. by destruct (m s). Qed.

Lemma forEach_app {A} (body : A → M unit) (l1 l2 : list A) s :
  forEach body (l1 ++ l2) s = (forEach body l1 ;; forEach body l2) s.
Proof.
  revert s. induction l1 as [|x l1 IH]; intros s; simpl; [done|].
  unfold bind in *. destruct (body x s) as [[] s1|e s1]; [|done].
  by rewrite IH.
Qed.

(** A property of the state carried through a loop by its body. *)
Lemma forEach_invariant {A} (P : State → Prop) (body : A → M unit) l :
  (∀ x s s', x ∈ l → P s → body x s = Ok tt s' → P s') →
  ∀ s s', P s → forEach body l s = Ok tt s' → P s'.
Proof.
  induction l as [|x l IH]; intros Hbody s s' HP; simpl.
  - unfold ret. by intros [= <-].
  - intros ([] & s1 & Hx & Hrest)%bind_Ok_inv.
    eapply IH; [| |exact Hrest].
    + intros ????. apply Hbody. by right.
    + eapply Hbody; [by left|exact HP|exact Hx].
Qed.

(** A loop whose body runs to completion wherever the invariant
    holds runs to completion. *)
Lemma forEach_total {A} (P : State → Prop) (body : A → M unit) l :
  (∀ x s, x ∈ l → P s → ∃ s', body x s = Ok tt s' ∧ P s') →
  ∀ s, P s → ∃ s', forEach body l s = Ok tt s' ∧ P s'.
Proof.
  induction l as [|x l IH]; intros Hbody s HP; simpl.
  - by exists s.
  - destruct (Hbody x s) as (s1 & Hx & HP1); [by left|done|].
    destruct (IH (λ y t Hy, Hbody y t (list_elem_of_further _ _ _ Hy)) s1 HP1)
      as (s' & Hrest & HP').
    exists s'. by rewrite (bind_Ok _ _ _ _ _ Hx).
Qed.

(** Closes or simplifies a goal from the equation of a call that
    returned at once. *)
Ltac monad_inv H :=
  cbv beta delta [ret throw setObj setNode setCell] in H;
  simplify_eq; try done.

(** * The depth of the object stack *)

Definition depth (objectStack : loc) (s : State) : option nat :=
  match heap s !! objectStack with
  | Some (Arr es) => Some (length es)
  | _ => None
  end.

(** A call keeps the depth of [objectStack] under [I] when, started
    where [I] holds, it returns only where [I] holds again and with the
    stack as deep as it was on entry.  [I] is what the handlers of a
    table rely on: handlers that push onto the array at the top of the
    stack keep the depth where that array is not the stack itself. *)
Definition keeps_depth_under {A} (I : State → Prop) (objectStack : loc)
  (m : M A) : Prop :=
  ∀ s a s', I s → m s = Ok a s' →
            I s' ∧ depth objectStack s' = depth objectStack s.

(** A call runs under [I] when, started where [I] holds, it returns
    and [I] holds again. *)
Definition runs_under {A} (I : State → Prop) (m : M A) : Prop :=
  ∀ s, I s → ∃ a s', m s = Ok a s' ∧ I s'.

Definition handler_of {H} (table : gmap string (gmap string H)) (h : H)
  : Prop :=
  ∃ ns handlers name,
    table !! ns = Some handlers ∧ handlers !! name = Some h.

(** What a push / dispatch / pop call amounts to: one frame pushed,
    the dispatch run on that stack, one frame popped and returned. *)
Definition pushed_run_popped (objectStack : loc) (object : Val)
  (dispatch : M unit) (s : State) (v : Val) (s' : State) : Prop :=
  ∃ es0 s1 es1,
    heap s !! objectStack = Some (Arr es0) ∧
    dispatch (mkState (<[objectStack := Arr (es0 ++ [object])]> (heap s))
                (nodes s) (cells s)) = Ok tt s1 ∧
    heap s1 !! objectStack = Some (Arr (es1 ++ [v])) ∧
    s' = mkState (<[objectStack := Arr es1]> (heap s1)) (nodes s1) (cells s1).

Lemma getArray_Ok l s es s' :
  getArray l s = Ok es s' ↔ heap s !! l = Some (Arr es) ∧ s' = s.
Proof.
  unfold getArray, bind, getObj, ret, throw.
  destruct (heap s !! l) as [[es'|m]|];
    (split; [intros ?|intros [? ?]]; by simplify_eq).
Qed.

Lemma getNode_Ok n s d s' :
  getNode n s = Ok d s' ↔ nodes s !! n = Some d ∧ s' = s.
Proof.
  unfold getNode.
  destruct (nodes s !! n); (split; [intros ?|intros [? ?]]; by simplify_eq).
Qed.

Lemma arr_push_Ok l v s s' :
  arr_push l v s = Ok tt s' ↔
  ∃ es, heap s !! l = Some (Arr es) ∧
        s' = mkState (<[l := Arr (es ++ [v])]> (heap s)) (nodes s) (cells s).
Proof.
  unfold arr_push. split.
  - intros (es & s1 & [H ->]%getArray_Ok & Hset)%bind_Ok_inv.
    exists es. split; [done|]. unfold setObj in Hset. congruence.
  - intros (es & H & ->).
    erewrite bind_Ok; [|by apply getArray_Ok]. done.
Qed.

Lemma depth_insert l es h n c :
  depth l (mkState (<[l := Arr es]> h) n c) = Some (length es).
Proof. unfold depth. simpl. by rewrite lookup_insert_eq. Qed.

Lemma depth_Some l s d :
  depth l s = Some d ↔ ∃ es, heap s !! l = Some (Arr es) ∧ length es = d.
Proof.
  unfold depth. destruct (heap s !! l) as [[es|m]|];
    (split; [intros ?|intros (? & ? & ?)]; simplify_eq; eauto).
Qed.

Lemma last_Some_snoc {A} (l : list A) x :
  last l = Some x → l = removelast l ++ [x].
Proof.
  intros H. destruct (last_Some l x) as [[l' ->] _]; [done|].
  by rewrite removelast_last.
Qed.

Lemma arr_pop_Ok l s v s' :
  arr_pop l s = Ok v s' →
  (∃ es, heap s !! l = Some (Arr (es ++ [v])) ∧
         s' = mkState (<[l := Arr es]> (heap s)) (nodes s) (cells s)) ∨
  (heap s !! l = Some (Arr []) ∧ v = VUndefined ∧ s' = s).
Proof.
  unfold arr_pop.
  intros (es & s1 & [H ->]%getArray_Ok & Hrest)%bind_Ok_inv.
  destruct (last es) as [x|] eqn:Hlast.
  - left. apply last_Some_snoc in Hlast.
    unfold bind, setObj, ret in Hrest. injection Hrest as <- <-.
    exists (removelast es). by rewrite <- Hlast.
  - right. apply last_None in Hlast as ->.
    unfold ret in Hrest. by injection Hrest as <- <-.
Qed.

Lemma forEach_keeps_depth_under {A} I stk (body : A → M unit) l :
  (∀ x, x ∈ l → keeps_depth_under I stk (body x)) →
  keeps_depth_under I stk (forEach body l).
Proof.
  intros Hbody s [] s' Hs Hrun.
  eapply (forEach_invariant (λ t, I t ∧ depth stk t = depth stk s));
    [|by split|exact Hrun].
  intros x t t' Hx [Ht Hd] Hstep.
  destruct (Hbody x Hx t tt t' Ht Hstep) as [? ?]. split; congruence.
Qed.
(** * Push / pop balance *)

(** A member of [Object.prototype] called in the place of a handler
    leaves the store alone, whether it returns or throws. *)
Lemma call_member_Ok b this second s a s' :
  call_member b this second s = Ok a s' → s' = s.
Proof.
  destruct b; simpl; unfold throw, ret;
    repeat case_match; by intros [=].
Qed.

Lemma call_member_state b this second s :
  state_of (call_member b this second s) = s.
Proof.
  destruct b; simpl; unfold throw, ret; by repeat case_match.
Qed.

Lemma lookup_key_Some {H} (table : gmap string H) key h :
  table !! key = Some h → lookup_key table key = Own h.
Proof. unfold lookup_key. by intros ->. Qed.

Lemma lookup_key_Own {H} (table : gmap string H) key h :
  lookup_key table key = Own h → table !! key = Some h.
Proof.
  unfold lookup_key. destruct (table !! key); [congruence|].
  by destruct (inherited key).
Qed.

(** The handler a table has for a namespace and a local name. *)
Definition registered {H} (table : gmap string (gmap string H))
  (ns : option string) (name : string) : option H :=
  table !! default "null" ns ≫= (.!! name).

Lemma registered_None {H} (table : gmap string (gmap string H)) ns name :
  registered table ns name = None ↔
  table !! default "null" ns = None ∨
  ∃ handlers, table !! default "null" ns = Some handlers ∧
              handlers !! name = None.
Proof.
  unfold registered. destruct (table !! default "null" ns) as [hs|]; simpl.
  - split; [eauto|]. by intros [|(? & [= <-] & ?)].
  - split; [eauto|done].
Qed.

Lemma registered_Some {H} (table : gmap string (gmap string H)) ns name h :
  registered table ns name = Some h ↔
  ∃ handlers, table !! default "null" ns = Some handlers ∧
              handlers !! name = Some h.
Proof.
  unfold registered. destruct (table !! default "null" ns) as [hs|]; simpl.
  - split; [eauto|]. by intros (? & [= <-] & ?).
  - split; [done|]. by intros (? & ? & ?).
Qed.

Lemma registered_handler {H} (table : gmap string (gmap string H)) ns name
  h :
  registered table ns name = Some h → handler_of table h.
Proof. intros (hs & ? & ?)%registered_Some. by eexists _, hs, _. Qed.

(** The parser that [parseNode] finds for the child [c], if any. *)
Definition parser_of (parsersNS : gmap string (gmap string Parser))
  (c : Node) : option Parser :=
  registered parsersNS (Node_namespaceURI c)
    (default "undefined" (Node_localName c)).

Lemma val_index_Ok values i s v s' :
  val_index values i s = Ok v s' → s' = s.
Proof.
  destruct values; simpl; unfold throw, ret; try discriminate.
  by intros (es & s1 & [_ ->]%getArray_Ok & [= _ <-])%bind_Ok_inv.
Qed.

Lemma val_length_Ok values s n s' :
  val_length values s = Ok n s' → s' = s.
Proof.
  destruct values; simpl; unfold throw, ret; try discriminate.
  by intros (es & s1 & [_ ->]%getArray_Ok & [= _ <-])%bind_Ok_inv.
Qed.

Section Balance.
Variable objectStack : loc.
Variable opt_this : Val.
Variable I : State → Prop.

(** The parsers that the table has for the element children of [node]
    keep the depth, each on the child it is for. *)
Definition parsers_keep_depth
  (parsersNS : gmap string (gmap string Parser)) (node : Node) : Prop :=
  ∀ c parser, c ∈ elementChildren node →
    parser_of parsersNS c = Some parser →
    keeps_depth_under I objectStack (parser opt_this c objectStack).

Definition serializers_keep_depth
  (serializersNS : gmap string (gmap string Serializer)) : Prop :=
  ∀ serializer n v, handler_of serializersNS serializer →
    keeps_depth_under I objectStack (serializer opt_this n v objectStack).

Definition factory_keeps_depth (nodeFactory : NodeFactory) : Prop :=
  ∀ v key,
    keeps_depth_under I objectStack (nodeFactory opt_this v objectStack key).

Lemma parseNode_keeps_depth parsersNS node :
  parsers_keep_depth parsersNS node →
  keeps_depth_under I objectStack
    (parseNode parsersNS node objectStack opt_this).
Proof.
  intros Hp. apply forEach_keeps_depth_under. intros n Hn s a s' Hs.
  unfold parseChild, ret, throw.
  destruct (lookup_key parsersNS _) as [parsers| |] eqn:Hns;
    [|done|by intros [= _ <-]].
  destruct (lookup_key parsers _) as [parser|b|] eqn:Hname;
    [|by intros ->%call_member_Ok|by intros [= _ <-]].
  apply Hp; [done| |done]. apply registered_Some. exists parsers.
  split; by apply lookup_key_Own.
Qed.

Lemma serialize_keeps_depth serializersNS nodeFactory values opt_keys :
  serializers_keep_depth serializersNS →
  factory_keeps_depth nodeFactory →
  keeps_depth_under I objectStack
    (serialize serializersNS nodeFactory values objectStack opt_keys
       opt_this).
Proof.
  intros Hs Hf s a s' HI. unfold serialize.
  intros (n & s0 & Hlen & Hloop)%bind_Ok_inv.
  assert (s0 = s) as ->.
  { destruct opt_keys; [by injection Hlen|by eapply val_length_Ok]. }
  revert Hloop. apply forEach_keeps_depth_under; [|done]. clear -Hs Hf.
  intros i _ s a s' HI.
  unfold serializeValue, writeEntry, callSerializer, ret, throw.
  intros (value & s1 & ->%val_index_Ok & Hrest)%bind_Ok_inv.
  destruct (defined value); [|by monad_inv Hrest].
  apply bind_Ok_inv in Hrest as (node & s2 & Hnode & Hrest).
  apply (Hf _ _ _ _ _ HI) in Hnode as [HI2 Hd2].
  destruct node as [nd|]; [|by monad_inv Hrest].
  apply bind_Ok_inv in Hrest as (d0 & s3 & [Hd0 ->]%getNode_Ok & Hrest).
  destruct (lookup_key serializersNS _) as [serializers| |] eqn:Hns;
    [|done..].
  destruct (lookup_key serializers _) as [serializer|b|] eqn:Hname;
    [|by apply call_member_Ok in Hrest as ->|done].
  destruct (Hs serializer nd value) with (s := s2) (a := a) (s' := s')
    as [? ?]; [|done|done|split; congruence].
  eexists _, serializers, _. split; by apply lookup_key_Own.
Qed.

(** The state once [object] is pushed. *)
Definition pushed (object : Val) (s : State) : State :=
  match heap s !! objectStack with
  | Some (Arr es) =>
      mkState (<[objectStack := Arr (es ++ [object])]> (heap s))
        (nodes s) (cells s)
  | _ => s
  end.

Definition popped (es : list Val) (s : State) : State :=
  mkState (<[objectStack := Arr es]> (heap s)) (nodes s) (cells s).

(** The frame of a call: push, dispatch, pop. *)
Lemma push_dispatch_pop_balanced object (dispatch : M unit) s v s' :
  I (pushed object s) →
  keeps_depth_under I objectStack dispatch →
  (arr_push objectStack object ;; dispatch ;; arr_pop objectStack) s
    = Ok v s' →
  pushed_run_popped objectStack object dispatch s v s' ∧
  depth objectStack s' = depth objectStack s.
Proof.
  intros HI Hkeep ([] & s0 & Hpush & Hrest)%bind_Ok_inv.
  apply arr_push_Ok in Hpush as (es0 & Hes0 & ->).
  apply bind_Ok_inv in Hrest as ([] & s1 & Hrun & Hpop).
  unfold pushed in HI. rewrite Hes0 in HI.
  destruct (Hkeep _ _ _ HI Hrun) as [_ Hd]. rewrite depth_insert in Hd.
  apply arr_pop_Ok in Hpop as [(es1 & Hes1 & ->)|(Hes1 & _ & _)].
  - split; [by exists es0, s1, es1|].
    rewrite depth_insert. unfold depth in Hd |- *.
    rewrite Hes1 in Hd. rewrite Hes0. f_equal.
    rewrite !length_app in Hd. simpl in Hd.
    injection Hd as Hd. lia.
  - unfold depth in Hd. rewrite Hes1 in Hd. rewrite length_app in Hd.
    simpl in Hd. injection Hd as Hd. lia.
Qed.

Lemma push_dispatch_pop_total object (dispatch : M unit) s es0 :
  heap s !! objectStack = Some (Arr es0) →
  I (pushed object s) →
  runs_under I dispatch →
  keeps_depth_under I objectStack dispatch →
  ∃ s1 es1 v,
    dispatch (pushed object s) = Ok tt s1 ∧ I s1 ∧
    heap s1 !! objectStack = Some (Arr (es1 ++ [v])) ∧
    length es1 = length es0 ∧
    (arr_push objectStack object ;; dispatch ;; arr_pop objectStack) s
      = Ok v (popped es1 s1).
Proof.
  intros Hes0 HI Hrun Hkeep.
  destruct (Hrun _ HI) as ([] & s1 & Hdisp & HI1).
  destruct (Hkeep _ _ _ HI Hdisp) as [_ Hd].
  unfold pushed in *. rewrite Hes0 in *. rewrite depth_insert in Hd.
  apply depth_Some in Hd as (es & Hes & Hlen1).
  rewrite length_app in Hlen1. simpl in Hlen1.
  destruct (last es) as [v|] eqn:Hlast;
    [|apply last_None in Hlast; subst es; simpl in Hlen1; lia].
  apply last_Some_snoc in Hlast.
  set (es1 := removelast es) in *. clearbody es1. subst es.
  exists s1, es1, v. repeat split; [done..| |].
  - rewrite length_app in Hlen1. simpl in Hlen1. lia.
  - erewrite bind_Ok; [|apply arr_push_Ok; eauto].
    erewrite bind_Ok; [|exact Hdisp].
    unfold arr_pop. erewrite bind_Ok; [|by apply getArray_Ok].
    by rewrite last_snoc, removelast_last.
Qed.

(** ** Calls that return *)

Definition parsers_run_under
  (parsersNS : gmap string (gmap string Parser)) (node : Node) : Prop :=
  ∀ c parser, c ∈ elementChildren node →
    parser_of parsersNS c = Some parser →
    runs_under I (parser opt_this c objectStack).

(** No element child of [node] is named as a member of
    [Object.prototype] in a namespace of the table (or has such a name
    for its namespace): the lookup for each child ends on an entry of
    the table or on nothing. *)
Definition plainly_named {H} (table : gmap string (gmap string H))
  (node : Node) : Prop :=
  ∀ c, c ∈ elementChildren node →
       inherits table (default "null" (Node_namespaceURI c))
         (default "undefined" (Node_localName c)) = false.

(** Wherever [I] holds the node factory returns; when it returns a
    node, the table has a serializer for it, which returns in turn;
    and [I] holds again. *)
Definition writers_run_under
  (serializersNS : gmap string (gmap string Serializer))
  (nodeFactory : NodeFactory) : Prop :=
  ∀ v key s, I s →
    ∃ r s', nodeFactory opt_this v objectStack key s = Ok r s' ∧
            match r with
            | None => I s'
            | Some n =>
                ∃ d serializers serializer s'',
                  nodes s' !! n = Some d ∧
                  serializersNS !! default "null" (namespaceURI d)
                    = Some serializers ∧
                  serializers !! localName d = Some serializer ∧
                  serializer opt_this n v objectStack s' = Ok tt s'' ∧
                  I s''
            end.

(** [values] is an array wherever [I] holds. *)
Definition array_under (values : Val) : Prop :=
  ∃ l, values = VObj l ∧
       ∀ s, I s → ∃ es, heap s !! l = Some (Arr es).

Lemma parseNode_runs_under parsersNS node :
  parsers_run_under parsersNS node →
  plainly_named parsersNS node →
  runs_under I (parseNode parsersNS node objectStack opt_this).
Proof.
  intros Hp Hplain s Hs.
  destruct (forEach_total I (parseChild parsersNS objectStack opt_this)
              (elementChildren node)) with (s := s) as (s' & ? & ?);
    [|done|by exists tt, s'].
  intros n t Hn Ht. specialize (Hplain n Hn). revert Hplain.
  unfold parseChild, inherits.
  destruct (lookup_key parsersNS _) as [parsers| |] eqn:Hns;
    [|done|by exists t].
  destruct (lookup_key parsers _) as [parser|b|] eqn:Hname;
    [|done|by exists t].
  intros _.
  destruct (Hp n parser) with (s := t) as ([] & t' & ? & ?);
    [done| |done|eauto].
  apply registered_Some. exists parsers. split; by apply lookup_key_Own.
Qed.

Lemma serialize_runs_under serializersNS nodeFactory values opt_keys :
  writers_run_under serializersNS nodeFactory →
  array_under values →
  runs_under I
    (serialize serializersNS nodeFactory values objectStack opt_keys
       opt_this).
Proof.
  intros Hw (l & -> & Harr) s Hs. unfold serialize.
  set (n := match opt_keys with
            | Some keys => length keys
            | None => match heap s !! l with
                      | Some (Arr es) => length es
                      | _ => 0
                      end
            end).
  assert (match opt_keys with
          | Some keys => ret (length keys)
          | None => val_length (VObj l)
          end s = Ok n s) as Hlen.
  { destruct opt_keys; [done|]. subst n. simpl.
    destruct (Harr s Hs) as (es & Hes).
    erewrite bind_Ok; [|by apply getArray_Ok]. by rewrite Hes. }
  rewrite (bind_Ok _ _ _ _ _ Hlen).
  destruct (forEach_total I
              (serializeValue serializersNS nodeFactory (VObj l) objectStack
                 opt_keys opt_this) (seq 0 n)) with (s := s)
    as (s' & ? & ?); [|done|by exists tt, s'].
  clear Hlen. intros i t _ Ht.
  unfold serializeValue, writeEntry, callSerializer, val_index.
  destruct (Harr t Ht) as (es & Hes).
  erewrite bind_Ok; [|erewrite bind_Ok; [|by apply getArray_Ok]; done].
  destruct (defined _); [|by exists t].
  destruct (Hw (default VUndefined (es !! i)) (opt_keys ≫= (.!! i)) t Ht)
    as (r & t1 & Hr & Hpost).
  rewrite (bind_Ok _ _ _ _ _ Hr).
  destruct r as [nd|]; [|by exists t1].
  destruct Hpost as (d & sers & ser & t2 & Hd & Hns & Hname & Hser & Ht2).
  erewrite bind_Ok; [|by apply getNode_Ok].
  rewrite (lookup_key_Some _ _ _ Hns), (lookup_key_Some _ _ _ Hname). eauto.
Qed.
End Balance.

(** ** What calls leave alone *)

(** A call keeps a component of the state when it returns with that
    component as it found it.  The components of interest are the heap
    and the cells of the closures: calls that only write to the output
    document keep both. *)
Definition keeps_field {F A} (field : State → F) (m : M A) : Prop :=
  ∀ s a s', m s = Ok a s' → field s' = field s.

Abbreviation keeps_heap := (keeps_field heap).
Abbreviation keeps_cells := (keeps_field cells).

Lemma keeps_heap_depth_under {A} (I : State → Prop) objectStack (m : M A) :
  keeps_heap m →
  (∀ s a s', I s → m s = Ok a s' → I s') →
  keeps_depth_under I objectStack m.
Proof.
  intros Hm HI s a s' Hs Hrun. split; [by eapply HI|].
  unfold depth. by rewrite (Hm _ _ _ Hrun).
Qed.

Section KeepsField.
Context {F : Type} (field : State → F).
Hypothesis field_ignores_nodes :
  ∀ h n n' c, field (mkState h n c) = field (mkState h n' c).

Lemma keeps_ret {A} (a : A) : keeps_field field (ret a).
Proof. intros s a' s' H. by monad_inv H. Qed.

Lemma keeps_throw {A} e : keeps_field field (throw e : M A).
Proof. intros s a' s' H. by monad_inv H. Qed.

Lemma keeps_bind {A B} (m : M A) (k : A → M B) :
  keeps_field field m → (∀ a, keeps_field field (k a)) →
  keeps_field field (bind m k).
Proof.
  intros Hm Hk s b s' (a & s1 & H1 & H2)%bind_Ok_inv.
  rewrite (Hk _ _ _ _ H2). by eapply Hm.
Qed.

Lemma getObj_keeps l : keeps_field field (getObj l).
Proof.
  intros s o s'. unfold getObj. by destruct (heap s !! l); intros [= _ <-].
Qed.

Lemma getNode_keeps n : keeps_field field (getNode n).
Proof. by intros s d s' [_ ->]%getNode_Ok. Qed.

Lemma setNode_keeps n d : keeps_field field (setNode n d).
Proof.
  intros [h ns c] a s' H. monad_inv H; apply field_ignores_nodes.
Qed.

Lemma arr_top_keeps a : keeps_field field (arr_top a).
Proof.
  intros s v s' (es & ? & [_ ->]%getArray_Ok & H)%bind_Ok_inv.
  by monad_inv H.
Qed.

Lemma val_index_keeps values i : keeps_field field (val_index values i).
Proof. by intros s v s' ->%val_index_Ok. Qed.

Lemma val_length_keeps values : keeps_field field (val_length values).
Proof. by intros s v s' ->%val_length_Ok. Qed.

Lemma call_member_keeps b this second :
  keeps_field field (call_member b this second).
Proof. by intros s a s' ->%call_member_Ok. Qed.

Lemma get_property_keeps object property :
  keeps_field field (get_property object property).
Proof.
  destruct object; simpl; try apply keeps_throw.
  apply keeps_bind; [apply getObj_keeps|].
  intros [?|m]; [apply keeps_throw|apply keeps_ret].
Qed.

Lemma val_namespaceURI_keeps node :
  keeps_field field (val_namespaceURI node).
Proof.
  destruct node; simpl; try apply keeps_throw.
  apply keeps_bind; [apply getNode_keeps|].
  intros d. apply keeps_ret.
Qed.

Lemma createElementNS_keeps ns name :
  keeps_field field (createElementNS ns name).
Proof.
  intros [h n c] a s' [= _ <-]. apply field_ignores_nodes.
Qed.

Lemma appendChild_keeps parent node :
  keeps_field field (appendChild parent node).
Proof.
  apply keeps_bind; [apply getNode_keeps|]. intros p.
  apply keeps_bind; [apply getNode_keeps|]. intros c [h n cs] [] s'.
  destruct (inclusive_ancestor _ _ _ _); [done|]. intros [= <-].
  apply field_ignores_nodes.
Qed.

Lemma val_appendChild_keeps parentNode node :
  keeps_field field (val_appendChild parentNode node).
Proof.
  destruct parentNode; simpl; try apply keeps_throw.
  - apply keeps_bind; [apply getObj_keeps|].
    intros [?|m]; [apply keeps_throw|].
    destruct (callable _); apply keeps_throw.
  - apply appendChild_keeps.
Qed.

Lemma setAttribute_keeps node name value :
  keeps_field field (setAttribute node name value).
Proof.
  apply keeps_bind; [apply getNode_keeps|].
  intros d. apply setNode_keeps.
Qed.

Lemma makeSimpleNodeFactory_keeps opt_nodeName opt_namespaceURI this v
  objectStack key :
  keeps_field field
    (makeSimpleNodeFactory opt_nodeName opt_namespaceURI this v objectStack
       key).
Proof.
  apply keeps_bind; [apply arr_top_keeps|]. intros context.
  apply keeps_bind; [apply get_property_keeps|]. intros node.
  apply keeps_bind.
  { destruct opt_namespaceURI;
      [apply keeps_ret|apply val_namespaceURI_keeps]. }
  intros uri.
  apply keeps_bind; [apply createElementNS_keeps|].
  intros n. apply keeps_ret.
Qed.

Lemma makeChildAppender_keeps (nodeWriter : Serializer) opt_this this
  node value objectStack :
  (∀ receiver,
     keeps_field field (nodeWriter receiver node value objectStack)) →
  keeps_field field
    (makeChildAppender nodeWriter opt_this this node value objectStack).
Proof.
  intros Hw. apply keeps_bind; [apply Hw|]. intros _.
  apply keeps_bind; [apply arr_top_keeps|]. intros parent.
  apply keeps_bind; [apply get_property_keeps|]. intros p.
  apply val_appendChild_keeps.
Qed.

Lemma callSerializer_keeps
  (serializersNS : gmap string (gmap string Serializer)) ns name opt_this
  node value objectStack :
  (∀ serializer,
     handler_of serializersNS serializer →
     keeps_field field (serializer opt_this node value objectStack)) →
  keeps_field field
    (callSerializer serializersNS ns name opt_this node value objectStack).
Proof.
  intros Hs. unfold callSerializer.
  destruct (lookup_key serializersNS _) as [serializers| |] eqn:Hns;
    [|apply keeps_throw..].
  destruct (lookup_key serializers _) as [serializer|b|] eqn:Hname;
    [|apply call_member_keeps|apply keeps_throw].
  apply Hs. eexists _, serializers, _. split; by apply lookup_key_Own.
Qed.

Lemma writeEntry_keeps
  (serializersNS : gmap string (gmap string Serializer))
  (nodeFactory : NodeFactory) objectStack opt_this key value :
  keeps_field field (nodeFactory opt_this value objectStack key) →
  (∀ serializer n,
     handler_of serializersNS serializer →
     keeps_field field (serializer opt_this n value objectStack)) →
  keeps_field field
    (writeEntry serializersNS nodeFactory objectStack opt_this key value).
Proof.
  intros Hf Hs. apply keeps_bind; [done|]. intros [n|];
    [|apply keeps_ret].
  apply keeps_bind; [apply getNode_keeps|]. intros d.
  apply callSerializer_keeps. intros serializer. apply Hs.
Qed.

Lemma forEach_keeps {A} (body : A → M unit) l :
  (∀ x, keeps_field field (body x)) → keeps_field field (forEach body l).
Proof.
  intros Hbody. induction l as [|x l IH]; [apply keeps_ret|].
  apply keeps_bind; [apply Hbody|]. by intros _.
Qed.

Lemma serialize_keeps
  (serializersNS : gmap string (gmap string Serializer))
  (nodeFactory : NodeFactory) values objectStack opt_keys opt_this :
  (∀ key v, keeps_field field
              (writeEntry serializersNS nodeFactory objectStack opt_this
                 key v)) →
  keeps_field field
    (serialize serializersNS nodeFactory values objectStack opt_keys
       opt_this).
Proof.
  intros Hw. apply keeps_bind.
  { destruct opt_keys; [apply keeps_ret|apply val_length_keeps]. }
  intros n. apply forEach_keeps. intros i.
  apply keeps_bind; [apply val_index_keeps|]. intros v.
  destruct (defined v); [apply Hw|apply keeps_ret].
Qed.
End KeepsField.

Lemma heap_ignores_nodes h n n' c :
  heap (mkState h n c) = heap (mkState h n' c).
Proof. done. Qed.

Lemma cells_ignores_nodes h n n' c :
  cells (mkState h n c) = cells (mkState h n' c).
Proof. done. Qed.

#[local] Hint Resolve heap_ignores_nodes cells_ignores_nodes : core.

Lemma handler_of_singleton {H} (ns name : string) (h h' : H) :
  handler_of ({[ ns := {[ name := h ]} ]} : gmap string (gmap string H)) h' →
  h' = h.
Proof.
  intros (ns' & hs & name' & [_ <-]%lookup_singleton_Some
            & [_ <-]%lookup_singleton_Some).
  done.
Qed.

Lemma handler_of_empty {H} (h : H) :
  ¬ handler_of (∅ : gmap string (gmap string H)) h.
Proof. intros (ns & hs & name & Hns & _). by rewrite lookup_empty in Hns. Qed.

Lemma arr_top_snoc a es v s :
  heap s !! a = Some (Arr (es ++ [v])) → arr_top a s = Ok v s.
Proof.
  intros H. unfold arr_top. erewrite bind_Ok; [|by apply getArray_Ok].
  by rewrite last_snoc.
Qed.

Lemma get_property_rec o m property s :
  heap s !! o = Some (Rec m) →
  get_property (VObj o) property s = Ok (read_property m property) s.
Proof. intros H. simpl. unfold bind, getObj. by rewrite H. Qed.

Lemma read_property_Some m property v :
  m !! property = Some v → read_property m property = v.
Proof. unfold read_property. by intros ->. Qed.

Lemma read_property_plain m property :
  inherited property = None →
  read_property m property = default VUndefined (m !! property).
Proof. unfold read_property. intros ->. by destruct (m !! property). Qed.

(** ** Handlers that keep the depth *)

(** A value reader that looks at the node only. *)
Definition pureReader (f : Node → Val) : ValueReader :=
  λ this node objectStack, ret (f node).

(** The top of the stack is the array [a], which is not the stack
    itself. *)
Definition array_on (objectStack a : loc) (t : State) : Prop :=
  a ≠ objectStack ∧
  (∃ es, heap t !! objectStack = Some (Arr (es ++ [VObj a]))) ∧
  (∃ vs, heap t !! a = Some (Arr vs)).

(** A parser that pushes onto the array at the top of the stack
    returns, with the stack as deep as it was, where that array is not
    the stack itself. *)
Lemma makeArrayPusher_pure f opt_this this n objectStack a s :
  array_on objectStack a s →
  ∃ s', makeArrayPusher (pureReader f) opt_this this n objectStack s
          = Ok tt s' ∧
        array_on objectStack a s' ∧
        depth objectStack s' = depth objectStack s.
Proof.
  intros (Hne & (es & Hstk) & (vs & Ha)).
  unfold makeArrayPusher, pureReader. erewrite bind_Ok; [|reflexivity].
  destruct (defined (f n)).
  - rewrite (bind_Ok _ _ _ _ _ (arr_top_snoc _ _ _ _ Hstk)). simpl.
    unfold bind, getObj, setObj. rewrite Ha. eexists. split; [done|].
    unfold array_on, depth. simpl.
    rewrite lookup_insert_ne, lookup_insert_eq, Hstk by done. eauto 10.
  - exists s. unfold array_on. eauto 10.
Qed.

Lemma makeArrayPusher_keeps_depth f opt_this this n objectStack a :
  keeps_depth_under (array_on objectStack a) objectStack
    (makeArrayPusher (pureReader f) opt_this this n objectStack).
Proof.
  intros s [] s' Hs Hrun.
  destruct (makeArrayPusher_pure f opt_this this n objectStack a s Hs)
    as (s1 & Hrun1 & ? & ?).
  by assert (s1 = s') as -> by congruence.
Qed.

Lemma makeArrayPusher_runs f opt_this this n objectStack a :
  runs_under (array_on objectStack a)
    (makeArrayPusher (pureReader f) opt_this this n objectStack).
Proof.
  intros s Hs.
  destruct (makeArrayPusher_pure f opt_this this n objectStack a s Hs)
    as (s1 & Hrun1 & ? & ?).
  by exists tt, s1.
Qed.

(** A writer for one value: the value becomes an attribute of the
    node. *)
Definition writeValue : Serializer :=
  λ this node value objectStack, setAttribute node "value" value.

Definition VALUE_SERIALIZERS : gmap string (gmap string Serializer) :=
  {[ "urn:items" := {[ "item" := writeValue ]} ]}.

(** The top of the stack is a context frame whose node is [p], an
    element of the namespace [uri]; [values] is an array. *)
Definition context_on (objectStack ctx : loc) (p : nid) (uri : string)
  (values : loc) (t : State) : Prop :=
  (∃ es, heap t !! objectStack = Some (Arr (es ++ [VObj ctx]))) ∧
  (∃ m, heap t !! ctx = Some (Rec m) ∧ m !! "node" = Some (VNode p)) ∧
  (∃ dp, nodes t !! p = Some dp ∧ namespaceURI dp = Some uri) ∧
  (∃ vs, heap t !! values = Some (Arr vs)).

Lemma setAttribute_Ok node name value s s' :
  setAttribute node name value s = Ok tt s' ↔
  ∃ d, nodes s !! node = Some d ∧
       s' = mkState (heap s)
              (<[node := mkDomNode (namespaceURI d) (localName d)
                           (parentNode d) (childNodes d)
                           (attributes d ++ [(name, value)])]> (nodes s))
              (cells s).
Proof.
  unfold setAttribute. split.
  - intros (d & s1 & [Hd ->]%getNode_Ok & [= <-])%bind_Ok_inv. eauto.
  - intros (d & Hd & ->). erewrite bind_Ok; [|by apply getNode_Ok]. done.
Qed.

Lemma writeValue_context objectStack ctx p uri values this n v s s' :
  context_on objectStack ctx p uri values s →
  writeValue this n v objectStack s = Ok tt s' →
  context_on objectStack ctx p uri values s'.
Proof.
  intros (Hstk & Hctx & (dp & Hp & Huri) & Hvs)
    (d & Hd & ->)%setAttribute_Ok.
  repeat split; simpl; [done|done| |done].
  destruct (decide (n = p)) as [->|Hne].
  - rewrite lookup_insert_eq. eexists. split; [done|]. simpl. congruence.
  - rewrite lookup_insert_ne by done. eauto.
Qed.

Lemma makeSimpleNodeFactory_on_context objectStack ctx p uri values this v
  name key s :
  context_on objectStack ctx p uri values s →
  let n := fresh (dom (nodes s)) in
  let s' := mkState (heap s)
              (<[n := mkDomNode (Some uri) (local_part name) None [] []]>
                 (nodes s)) (cells s) in
  makeSimpleNodeFactory (Some name) None this v objectStack key s
    = Ok (Some n) s' ∧
  context_on objectStack ctx p uri values s'.
Proof.
  intros ((es & Hstk) & (m & Hctx & Hnode) & (dp & Hp & Huri) & Hvs) n s'.
  assert (nodes s !! n = None) as Hfresh by apply not_elem_of_dom, is_fresh.
  assert (p ≠ n) as Hpn by (intros ->; congruence).
  split.
  - unfold makeSimpleNodeFactory.
    rewrite (bind_Ok _ _ _ _ _ (arr_top_snoc _ _ _ _ Hstk)).
    rewrite (bind_Ok _ _ _ _ _ (get_property_rec _ _ "node" _ Hctx)).
    rewrite (read_property_Some _ _ _ Hnode). simpl.
    unfold bind at 1. unfold bind at 1.
    unfold getNode. rewrite Hp, Huri. done.
  - repeat split; simpl; eauto.
    exists dp. by rewrite lookup_insert_ne.
Qed.

Lemma VALUE_SERIALIZERS_keep_depth objectStack opt_this ctx p uri values :
  serializers_keep_depth objectStack opt_this
    (context_on objectStack ctx p uri values) VALUE_SERIALIZERS.
Proof.
  intros serializer n v ->%handler_of_singleton.
  apply keeps_heap_depth_under; [by apply setAttribute_keeps|].
  intros s [] s' Hs Hrun. by eapply writeValue_context.
Qed.

Lemma makeSimpleNodeFactory_keeps_depth objectStack opt_this ctx p uri
  values name :
  factory_keeps_depth objectStack opt_this
    (context_on objectStack ctx p uri values)
    (makeSimpleNodeFactory (Some name) None).
Proof.
  intros v key.
  apply keeps_heap_depth_under; [by apply makeSimpleNodeFactory_keeps|].
  intros s r s' Hs Hrun.
  destruct (makeSimpleNodeFactory_on_context objectStack ctx p uri values
              opt_this v name key s Hs) as [Hrun' ?].
  congruence.
Qed.

Lemma VALUE_SERIALIZERS_run objectStack opt_this ctx p values :
  writers_run_under objectStack opt_this
    (context_on objectStack ctx p "urn:items" values)
    VALUE_SERIALIZERS (makeSimpleNodeFactory (Some "item") None).
Proof.
  intros v key s Hs.
  destruct (makeSimpleNodeFactory_on_context objectStack ctx p "urn:items"
              values opt_this v "item" key s Hs) as [Hrun Hs1].
  eexists _, _. split; [exact Hrun|].
  set (n := fresh (dom (nodes s))) in *.
  set (s1 := mkState _ _ _) in *.
  assert (∃ s2, writeValue opt_this n v objectStack s1 = Ok tt s2)
    as [s2 Hs2].
  { eexists. apply setAttribute_Ok. eexists. split; [|reflexivity].
    apply lookup_insert_eq. }
  eexists _, {[ "item" := writeValue ]}, writeValue, s2.
  split; [by apply lookup_insert_eq|]. split; [done|]. split; [done|].
  split; [done|]. by eapply writeValue_context.
Qed.

(** C1.  [pushParseAndPop] and [pushSerializeAndPop] push one frame, run
    the dispatch on that stack, pop one frame and return it.  Let the
    handlers that the tables hold keep the depth of the object stack
    wherever a condition [I] of their choice holds, once the frame is
    pushed and from one handler to the next (that the top of the stack
    is an array other than the stack, for handlers that push onto it);
    of the parsers, those that the table has for the element children
    of the node are concerned, each on its child.  Then a call that
    returns leaves the stack as deep as it found it, and its result is
    the top of the stack after the dispatch; and when moreover the
    handlers return wherever [I] holds, the call returns (in the read
    direction, on a node none of whose element children is looked up
    under the name of a member of [Object.prototype]). *)
Theorem push_pop_balance (objectStack : loc) (opt_this object : Val)
  (parsersNS : gmap string (gmap string Parser)) (node : Node)
  (serializersNS : gmap string (gmap string Serializer))
  (nodeFactory : NodeFactory) (values : Val)
  (opt_keys : option (list string)) (s : State) (d : nat) :
  depth objectStack s = Some d →
  let parse := parseNode parsersNS node objectStack opt_this in
  let write := serialize serializersNS nodeFactory values objectStack
                 opt_keys opt_this in
  (∀ I : State → Prop,
     I (pushed objectStack object s) →
     parsers_keep_depth objectStack opt_this I parsersNS node →
     (∀ v s',
        pushParseAndPop object parsersNS node objectStack opt_this s
          = Ok v s' →
        pushed_run_popped objectStack object parse s v s' ∧
        depth objectStack s' = Some d) ∧
     (parsers_run_under objectStack opt_this I parsersNS node →
      plainly_named parsersNS node →
      ∃ v s',
        pushParseAndPop object parsersNS node objectStack opt_this s
          = Ok v s' ∧
        depth objectStack s' = Some d)) ∧
  (∀ I : State → Prop,
     I (pushed objectStack object s) →
     serializers_keep_depth objectStack opt_this I serializersNS →
     factory_keeps_depth objectStack opt_this I nodeFactory →
     (∀ v s',
        pushSerializeAndPop object serializersNS nodeFactory values
          objectStack opt_keys opt_this s = Ok v s' →
        pushed_run_popped objectStack object write s v s' ∧
        depth objectStack s' = Some d) ∧
     (writers_run_under objectStack opt_this I serializersNS nodeFactory →
      array_under I values →
      ∃ v s',
        pushSerializeAndPop object serializersNS nodeFactory values
          objectStack opt_keys opt_this s = Ok v s' ∧
        depth objectStack s' = Some d)).
Proof.
  intros Hd parse write.
  pose proof Hd as (es0 & Hes0 & Hlen)%depth_Some.
  split.
  - intros I HI Hp.
    assert (keeps_depth_under I objectStack parse) as Hparse
      by by apply parseNode_keeps_depth.
    split.
    + intros v s' Hcall.
      destruct (push_dispatch_pop_balanced objectStack I object parse s v
                  s' HI Hparse Hcall) as [? ->]. done.
    + intros Hrun Hplain.
      destruct (push_dispatch_pop_total objectStack I object parse s es0)
        as (s1 & es1 & v & _ & _ & _ & Hlen1 & Hcall);
        [done|done|by apply parseNode_runs_under|done|].
      exists v, (popped objectStack es1 s1). split; [done|].
      unfold popped. rewrite depth_insert. congruence.
  - intros I HI Hs Hf.
    assert (keeps_depth_under I objectStack write) as Hwrite
      by by apply serialize_keeps_depth.
    split.
    + intros v s' Hcall.
      destruct (push_dispatch_pop_balanced objectStack I object write s v
                  s' HI Hwrite Hcall) as [? ->]. done.
    + intros Hrun Harr.
      destruct (push_dispatch_pop_total objectStack I object write s es0)
        as (s1 & es1 & v & _ & _ & _ & Hlen1 & Hcall);
        [done|done|by apply serialize_runs_under|done|].
      exists v, (popped objectStack es1 s1). split; [done|].
      unfold popped. rewrite depth_insert. congruence.
Qed.

(** ** A running example *)

(** A value reader for the examples: the text of an element that holds
    text only. *)
Definition readText (n : Node) : Val :=
  match n with
  | Element _ _ [Text t] => VStr t
  | _ => VUndefined
  end.

Definition ITEM_PUSHERS : gmap string (gmap string Parser) :=
  {[ "urn:items" :=
       {[ "item" := makeArrayPusher (pureReader readText) VUndefined ]} ]}.

Definition balance_state : State :=
  mkState
    (<[0 := Arr []]>
       (<[1 := Arr [VStr "first"]]>
          (<[2 := Arr [VNum 7; VUndefined; VNull]]>
             {[ 3 := Rec {[ "node" := VNode 0 ]} ]})))
    {[ 0 := mkDomNode (Some "urn:items") "items" None [] [] ]}
    ∅.

Definition balance_doc : Node :=
  Element (Some "urn:items") "items"
    [ Element (Some "urn:items") "item" [ Text "a" ];
      Text "between";
      Element (Some "urn:items") "item"
        [ Element (Some "urn:items") "item" [] ];
      Element (Some "urn:other") "skipped" [] ].

Lemma ITEM_PUSHERS_plain : plainly_named ITEM_PUSHERS balance_doc.
Proof.
  intros c Hc. simpl in Hc.
  repeat (apply elem_of_cons in Hc as [->|Hc]; [reflexivity|]).
  by apply elem_of_nil in Hc.
Qed.

Lemma push_pop_balance_witness :
  depth 0 balance_state = Some 0 ∧
  (∃ v s',
     pushParseAndPop (VObj 1) ITEM_PUSHERS balance_doc 0 VUndefined
       balance_state = Ok v s' ∧
     depth 0 s' = Some 0) ∧
  (∃ v s',
     pushSerializeAndPop (VObj 3) VALUE_SERIALIZERS
       (makeSimpleNodeFactory (Some "item") None) (VObj 2) 0 None VUndefined
       balance_state = Ok v s' ∧
     depth 0 s' = Some 0).
Proof.
  assert (depth 0 balance_state = Some 0) as Hd by reflexivity.
  split; [exact Hd|]. split.
  - destruct (push_pop_balance 0 VUndefined (VObj 1) ITEM_PUSHERS
                balance_doc ∅ (λ _ _ _ _, ret None) VUndefined None
                balance_state 0 Hd) as [Hparse _].
    destruct (Hparse (array_on 0 1)) as [_ Hruns].
    + split; [done|]. split; [by exists []|by eexists].
    + intros c parser _ ->%registered_handler%handler_of_singleton.
      apply makeArrayPusher_keeps_depth.
    + apply Hruns; [|exact ITEM_PUSHERS_plain].
      intros c parser _ ->%registered_handler%handler_of_singleton.
      apply makeArrayPusher_runs.
  - destruct (push_pop_balance 0 VUndefined (VObj 3) ∅ balance_doc
                VALUE_SERIALIZERS
                (makeSimpleNodeFactory (Some "item") None) (VObj 2) None
                balance_state 0 Hd) as [_ Hwrite].
    destruct (Hwrite (context_on 0 3 0 "urn:items" 2)) as [_ Hruns].
    + split; [by exists []|]. split; [by eexists|].
      split; [by eexists|by eexists].
    + apply VALUE_SERIALIZERS_keep_depth.
    + apply makeSimpleNodeFactory_keeps_depth.
    + apply Hruns; [apply VALUE_SERIALIZERS_run|].
      exists 2. split; [done|]. by intros t (_ & _ & _ & Hvs).
Defined.
(** * Table misses *)

(** What the two lookups find when the table has no handler and no
    member of [Object.prototype] is in the way: nothing, at the first
    or at the second. *)
Lemma lookup_key_miss {H} (table : gmap string (gmap string H)) ns name :
  registered table ns name = None →
  inherits table (default "null" ns) name = false →
  lookup_key table (default "null" ns) = Absent ∨
  ∃ handlers, lookup_key table (default "null" ns) = Own handlers ∧
              lookup_key handlers name = Absent.
Proof.
  unfold registered, inherits, lookup_key.
  destruct (table !! default "null" ns) as [hs|]; simpl.
  - intros Hname Hin. right. exists hs. split; [done|].
    rewrite Hname in *. by destruct (inherited name).
  - intros _ Hin. left. by destruct (inherited (default "null" ns)).
Qed.

Lemma parseChild_unregistered parsersNS objectStack opt_this ns name kids :
  registered parsersNS ns name = None →
  inherits parsersNS (default "null" ns) name = false →
  parseChild parsersNS objectStack opt_this (Element ns name kids) = ret tt.
Proof.
  intros Hmiss Hin. unfold parseChild. simpl.
  by destruct (lookup_key_miss _ _ _ Hmiss Hin)
    as [->|(parsers & -> & ->)].
Qed.

Lemma forEach_skip {A} (body : A → M unit) l1 x l2 s :
  body x = ret tt →
  forEach body (l1 ++ x :: l2) s = forEach body (l1 ++ l2) s.
Proof.
  intros Hx. rewrite !forEach_app. unfold bind.
  destruct (forEach body l1 s) as [[] s1|]; [|done].
  simpl. by rewrite Hx.
Qed.

Lemma elementChildren_insert ns name before child after :
  isElement child = true →
  elementChildren (Element ns name (before ++ child :: after)) =
  filter (λ c, isElement c = true) before ++
  child :: filter (λ c, isElement c = true) after.
Proof.
  intros Hc. simpl. rewrite filter_app, filter_cons. by rewrite decide_True.
Qed.

(** What a call returned or threw, the state left aside. *)
Definition outcome {A} (r : Res A) : A + Exn :=
  match r with Ok a _ => inl a | Throw e _ => inr e end.

(** The object stack holds one empty record. *)
Definition record_state : State :=
  mkState (<[0 := Arr [VObj 1]]> {[ 1 := Rec ∅ ]}) ∅ ∅.

(** A child that the table of [item] parsers does not have, named as a
    member of [Object.prototype]. *)
Definition inherited_name_doc (name : string) : Node :=
  Element (Some "urn:items") "items"
    [ Element (Some "urn:items") name [] ].

(** C2.  An element child whose namespace is not a key of the Parser
    table, or whose local name is not a key of the table of its
    namespace, is skipped by [parseNode] when the lookup finds nothing:
    the step of the loop for that child returns at once in the state it
    started from, so no parser is called, nothing is thrown and the
    object stack is as it was, and the whole call does what it does on
    the node without that child.  The guards of [parseNode] compare
    what the lookups find with [undefined], and the tables are ordinary
    objects: for a child named [__proto__] or [valueOf] in a namespace
    of the table, which has no entry in it, the lookup finds a member
    of [Object.prototype] and the call of it throws a [TypeError]. *)
Theorem unregistered_child_is_skipped_unless_inherited :
  (∀ (parsersNS : gmap string (gmap string Parser)) (objectStack : loc)
     (opt_this : Val) (ns : option string) (name : string)
     (kids : list Node),
     registered parsersNS ns name = None →
     inherits parsersNS (default "null" ns) name = false →
     let child := Element ns name kids in
     (∀ s, parseChild parsersNS objectStack opt_this child s = Ok tt s) ∧
     (∀ pns pname before after s,
        parseNode parsersNS (Element pns pname (before ++ child :: after))
          objectStack opt_this s =
        parseNode parsersNS (Element pns pname (before ++ after))
          objectStack opt_this s)) ∧
  (registered ITEM_PUSHERS (Some "urn:items") "__proto__" = None ∧
   ∀ opt_this,
     outcome (parseNode ITEM_PUSHERS (inherited_name_doc "__proto__") 0
                opt_this record_state) = inr TypeError) ∧
  (registered ITEM_PUSHERS (Some "urn:items") "valueOf" = None ∧
   outcome (parseNode ITEM_PUSHERS (inherited_name_doc "valueOf") 0
              VUndefined record_state) = inr TypeError).
Proof.
  split; [|by split].
  intros parsersNS objectStack opt_this ns name kids Hmiss Hin child.
  subst child.
  pose proof (parseChild_unregistered _ objectStack opt_this _ _ kids Hmiss
                Hin) as Hskip.
  split; [by intros s; rewrite Hskip|].
  intros pns pname before after s. unfold parseNode.
  rewrite elementChildren_insert by done.
  rewrite forEach_skip by done. simpl. by rewrite filter_app.
Qed.

Lemma unregistered_child_is_skipped_unless_inherited_witness :
  registered ITEM_PUSHERS (Some "urn:items") "title" = None ∧
  inherits ITEM_PUSHERS (default "null" (Some "urn:items")) "title"
    = false ∧
  parseNode ITEM_PUSHERS
    (Element (Some "urn:items") "items"
       [ Element (Some "urn:items") "title" [Text "t"];
         Element (Some "urn:items") "item" [] ]) 0 VUndefined record_state =
  parseNode ITEM_PUSHERS
    (Element (Some "urn:items") "items"
       [ Element (Some "urn:items") "item" [] ]) 0 VUndefined record_state.
Proof.
  split; [reflexivity|]. split; [reflexivity|].
  exact (proj2 (proj1 unregistered_child_is_skipped_unless_inherited
                  ITEM_PUSHERS 0 VUndefined (Some "urn:items") "title"
                  [Text "t"] eq_refl eq_refl)
           (Some "urn:items") "items" []
           [Element (Some "urn:items") "item" []] record_state).
Defined.

(** The object stack holds one context frame, whose node is the element
    [items] of the namespace [urn:items]. *)
Definition write_state : State :=
  mkState
    (<[0 := Arr [VObj 3]]>
       (<[2 := Arr [VNum 7; VUndefined; VNull]]>
          {[ 3 := Rec {[ "node" := VNode 0 ]} ]}))
    {[ 0 := mkDomNode (Some "urn:items") "items" None [] [] ]}
    ∅.

(** The write direction as the read direction is: a node that the
    factory returns and the table does not know is passed over. *)
Definition write_misses_are_silent : Prop :=
  ∀ (serializersNS : gmap string (gmap string Serializer))
    (nodeFactory : NodeFactory) (objectStack : loc) (opt_this : Val)
    (key : option string) (value : Val) (s s1 : State) (n : nid)
    (d : DomNode),
    nodeFactory opt_this value objectStack key s = Ok (Some n) s1 →
    nodes s1 !! n = Some d →
    registered serializersNS (namespaceURI d) (localName d) = None →
    ∃ s', writeEntry serializersNS nodeFactory objectStack opt_this key
            value s = Ok tt s'.

(** With an empty Serializer table and the factory of [item] elements,
    writing the value 7 throws. *)
Lemma write_misses_are_not_silent : ¬ write_misses_are_silent.
Proof.
  intros Hsilent.
  set (factory := makeSimpleNodeFactory (Some "item") None).
  set (r := factory VUndefined (VNum 7) 0 None write_state).
  set (d := mkDomNode (Some "urn:items") "item" None [] []).
  destruct (Hsilent ∅ factory 0 VUndefined None (VNum 7) write_state
              (state_of r) 1 d) as [s' Hs'].
  - vm_compute. reflexivity.
  - vm_compute. reflexivity.
  - reflexivity.
  - vm_compute in Hs'. discriminate.
Qed.

(** C3 (amended).  A pair that the table does not have, and for which
    the lookup finds no member of [Object.prototype] either, is passed
    over in the read direction.  In the write direction a value is
    passed over when the node factory returns [undefined] for it; when
    the factory returns a node for whose namespace and local name the
    lookup in the Serializer table finds nothing, the call throws a
    [TypeError] in the state the factory left. *)
Theorem table_miss_read_silent_write_throws :
  (∀ (parsersNS : gmap string (gmap string Parser)) objectStack opt_this
     ns name kids s,
     registered parsersNS ns name = None →
     inherits parsersNS (default "null" ns) name = false →
     parseChild parsersNS objectStack opt_this (Element ns name kids) s
       = Ok tt s) ∧
  (∀ (serializersNS : gmap string (gmap string Serializer))
     (nodeFactory : NodeFactory) objectStack opt_this key value s s1,
     nodeFactory opt_this value objectStack key s = Ok None s1 →
     writeEntry serializersNS nodeFactory objectStack opt_this key value s
       = Ok tt s1) ∧
  (∀ (serializersNS : gmap string (gmap string Serializer))
     (nodeFactory : NodeFactory) objectStack opt_this key value s s1 n d,
     nodeFactory opt_this value objectStack key s = Ok (Some n) s1 →
     nodes s1 !! n = Some d →
     registered serializersNS (namespaceURI d) (localName d) = None →
     inherits serializersNS (default "null" (namespaceURI d)) (localName d)
       = false →
     writeEntry serializersNS nodeFactory objectStack opt_this key value s
       = Throw TypeError s1).
Proof.
  split; [|split].
  - intros * Hmiss Hin. by rewrite parseChild_unregistered.
  - intros * Hnode. unfold writeEntry. by rewrite (bind_Ok _ _ _ _ _ Hnode).
  - intros * Hnode Hd Hmiss Hin. unfold writeEntry, callSerializer.
    rewrite (bind_Ok _ _ _ _ _ Hnode).
    erewrite bind_Ok; [|by apply getNode_Ok].
    by destruct (lookup_key_miss _ _ _ Hmiss Hin)
      as [->|(serializers & -> & ->)].
Qed.

Lemma table_miss_read_silent_write_throws_witness :
  registered (∅ : gmap string (gmap string Serializer))
    (Some "urn:items") "item" = None ∧
  inherits (∅ : gmap string (gmap string Serializer))
    (default "null" (Some "urn:items")) "item" = false ∧
  outcome (serialize ∅ (makeSimpleNodeFactory (Some "item") None) (VObj 2) 0
             None VUndefined write_state) = inr TypeError.
Proof.
  split; [reflexivity|]. split; [reflexivity|].
  set (factory := makeSimpleNodeFactory (Some "item") None).
  set (r := factory VUndefined (VNum 7) 0 None write_state).
  pose proof (proj2 (proj2 table_miss_read_silent_write_throws) ∅ factory 0
                VUndefined None (VNum 7) write_state (state_of r) 1
                (mkDomNode (Some "urn:items") "item" None [] [])
                ltac:(vm_compute; reflexivity) ltac:(vm_compute; reflexivity)
                eq_refl eq_refl) as Hthrow.
  unfold serialize, serializeValue.
  erewrite bind_Ok; [|vm_compute; reflexivity].
  simpl forEach. erewrite bind_Throw; [reflexivity|].
  erewrite bind_Ok; [|vm_compute; reflexivity].
  simpl. exact Hthrow.
Defined.
(** * The read-direction combinators *)

(** A value reader for the examples: an [a] element reads as the array
    [[1, 2]], a [b] element as [[3]], anything else as [undefined]. *)
Definition readNumbers : ValueReader :=
  λ this node objectStack,
    match Node_localName node with
    | Some "a" => a <- alloc (Arr [VNum 1; VNum 2]) ;; ret (VObj a)
    | Some "b" => a <- alloc (Arr [VNum 3]) ;; ret (VObj a)
    | _ => ret VUndefined
    end.

Definition NUMBER_PARSERS : gmap string (gmap string Parser) :=
  default ∅
    (makeStructureNS ["urn:numbers"]
       (<[ "a" := makeArrayExtender readNumbers VUndefined ]>
          {[ "b" := makeArrayExtender readNumbers VUndefined ]}) None).

(** The array that a call returned, read from the state it left. *)
Definition array_of (r : Res Val) : option (list Val) :=
  match r with
  | Ok (VObj l) s =>
      match heap s !! l with Some (Arr es) => Some es | _ => None end
  | _ => None
  end.

(** C5.  The parser that [makeArrayExtender] returns calls the value
    reader; when the reader returns an array, its elements are appended
    in order to the array that is at the top of the object stack, which
    keeps the elements it had; when the reader returns [undefined] the
    state is the one the reader left.  Reading [[1, 2]] and then [[3]]
    into an empty array gives [[1, 2, 3]]. *)
Theorem makeArrayExtender_appends (valueReader : ValueReader)
  (opt_this this : Val) (node : Node) (objectStack : loc) (s s1 : State) :
  (∀ d extension es a elems,
     valueReader opt_this node objectStack s = Ok (VObj d) s1 →
     heap s1 !! d = Some (Arr extension) →
     heap s1 !! objectStack = Some (Arr (es ++ [VObj a])) →
     heap s1 !! a = Some (Arr elems) →
     makeArrayExtender valueReader opt_this this node objectStack s =
     Ok tt (mkState (<[a := Arr (elems ++ extension)]> (heap s1))
              (nodes s1) (cells s1))) ∧
  (valueReader opt_this node objectStack s = Ok VUndefined s1 →
   makeArrayExtender valueReader opt_this this node objectStack s
     = Ok tt s1) ∧
  array_of
    ((stack <- alloc (Arr []) ;;
      top <- alloc (Arr []) ;;
      pushParseAndPop (VObj top) NUMBER_PARSERS
        (Element (Some "urn:numbers") "numbers"
           [ Element (Some "urn:numbers") "a" [];
             Element (Some "urn:numbers") "b" [] ]) stack VUndefined)
       empty_state)
  = Some [VNum 1; VNum 2; VNum 3].
Proof.
  split; [|split].
  - intros d extension es a elems Hread Hd Hstack Ha.
    unfold makeArrayExtender. rewrite (bind_Ok _ _ _ _ _ Hread). simpl.
    rewrite (bind_Ok _ _ _ _ _ (arr_top_snoc _ _ _ _ Hstack)). simpl.
    erewrite bind_Ok; [|by apply getArray_Ok].
    erewrite bind_Ok; [|by apply getArray_Ok]. done.
  - intros Hread. unfold makeArrayExtender.
    by rewrite (bind_Ok _ _ _ _ _ Hread).
  - vm_compute. reflexivity.
Qed.

Definition extender_state : State :=
  mkState (<[0 := Arr [VObj 1]]> {[ 1 := Arr [VNum 0] ]}) ∅ ∅.

Lemma makeArrayExtender_appends_witness :
  array_of
    (bind (makeArrayExtender readNumbers VUndefined VUndefined
             (Element None "a" []) 0)
       (λ _, ret (VObj 1)) extender_state)
  = Some [VNum 0; VNum 1; VNum 2].
Proof.
  set (r := readNumbers VUndefined (Element None "a" []) 0 extender_state).
  pose proof (proj1 (makeArrayExtender_appends readNumbers VUndefined
                       VUndefined (Element None "a" []) 0 extender_state
                       (state_of r))
                2 [VNum 1; VNum 2] [] 1 [VNum 0]
                ltac:(vm_compute; reflexivity) ltac:(vm_compute; reflexivity)
                ltac:(vm_compute; reflexivity) ltac:(vm_compute; reflexivity))
    as Hrun.
  rewrite (bind_Ok _ _ _ _ _ Hrun). vm_compute. reflexivity.
Defined.

Lemma has_property_rec o m property s :
  heap s !! o = Some (Rec m) →
  has_property (VObj o) property s
    = Ok (bool_decide (is_Some (m !! property)) ||
          bool_decide (is_Some (inherited property))) s.
Proof. intros H. simpl. unfold bind, getObj. by rewrite H. Qed.

Lemma inherited_None_proto property :
  inherited property = None → property ≠ "__proto__".
Proof. by intros H ->. Qed.

Lemma set_property_rec o m property value s :
  heap s !! o = Some (Rec m) →
  property ≠ "__proto__" →
  set_property (VObj o) property value s =
  Ok tt (mkState (<[o := Rec (<[property := value]> m)]> (heap s))
           (nodes s) (cells s)).
Proof.
  intros H Hne. simpl. unfold bind, getObj. rewrite H.
  by rewrite bool_decide_eq_false_2 by (by intros [? _]).
Qed.

Lemma val_push_arr a es value s :
  heap s !! a = Some (Arr es) →
  val_push (VObj a) value s =
  Ok tt (mkState (<[a := Arr (es ++ [value])]> (heap s)) (nodes s) (cells s)).
Proof. intros H. simpl. unfold bind, getObj. by rewrite H. Qed.

Section PropertyPusher.
Variable valueReader : ValueReader.
Variable opt_property : option string.
Variables opt_this this : Val.
Variable node : Node.
Variable objectStack : loc.

Let parser : M unit :=
  makeObjectPropertyPusher valueReader opt_property opt_this this node
    objectStack.
Let property : string := property_of opt_property node.

(** The property is not there yet, on the record or inherited: a new
    array is stored under it, and the value is its only element. *)
Lemma pusher_creates s s1 v es o m :
  valueReader (receiver opt_this this) node objectStack s = Ok v s1 →
  defined v = true →
  heap s1 !! objectStack = Some (Arr (es ++ [VObj o])) →
  heap s1 !! o = Some (Rec m) →
  m !! property = None →
  inherited property = None →
  let a := fresh (dom (heap s1)) in
  parser s =
  Ok tt (mkState
           (<[a := Arr [v]]>
              (<[o := Rec (<[property := VObj a]> m)]>
                 (<[a := Arr []]> (heap s1))))
           (nodes s1) (cells s1)).
Proof.
  intros Hread Hv Hstack Ho Hnone Hplain a. subst parser property.
  unfold makeObjectPropertyPusher.
  rewrite (bind_Ok _ _ _ _ _ Hread), Hv.
  rewrite (bind_Ok _ _ _ _ _ (arr_top_snoc _ _ _ _ Hstack)).
  assert (heap s1 !! a = None) as Hfresh by apply not_elem_of_dom, is_fresh.
  assert (o ≠ a) as Hoa by (intros ->; congruence).
  rewrite (bind_Ok _ _ _ _ _ (has_property_rec _ _ _ _ Ho)), Hnone, Hplain.
  rewrite !bool_decide_eq_false_2 by (by intros [? ?]). cbn [orb].
  set (s2 := mkState (<[a := Arr []]> (heap s1)) (nodes s1) (cells s1)).
  assert (heap s2 !! o = Some (Rec m)) as Ho2
    by (simpl; by rewrite lookup_insert_ne).
  assert ((x <- alloc (Arr []) ;;
           set_property (VObj o) (property_of opt_property node) (VObj x) ;;
           ret (VObj x)) s1
          = Ok (VObj a)
              (mkState
                 (<[o := Rec (<[property_of opt_property node := VObj a]> m)]>
                    (heap s2)) (nodes s1) (cells s1))) as Harray.
  { erewrite bind_Ok; [|reflexivity]. fold a s2.
    by rewrite (bind_Ok _ _ _ _ _
                  (set_property_rec _ _ _ _ _ Ho2
                     (inherited_None_proto _ Hplain))). }
  rewrite (bind_Ok _ _ _ _ _ Harray).
  erewrite val_push_arr;
    [|simpl; by rewrite lookup_insert_ne, lookup_insert_eq].
  done.
Qed.

(** The property holds an array: the value is appended to it. *)
Lemma pusher_appends s s1 v es o m a elems :
  valueReader (receiver opt_this this) node objectStack s = Ok v s1 →
  defined v = true →
  heap s1 !! objectStack = Some (Arr (es ++ [VObj o])) →
  heap s1 !! o = Some (Rec m) →
  m !! property = Some (VObj a) →
  heap s1 !! a = Some (Arr elems) →
  parser s =
  Ok tt (mkState (<[a := Arr (elems ++ [v])]> (heap s1))
           (nodes s1) (cells s1)).
Proof.
  intros Hread Hv Hstack Ho Hsome Ha. subst parser property.
  unfold makeObjectPropertyPusher.
  rewrite (bind_Ok _ _ _ _ _ Hread), Hv.
  rewrite (bind_Ok _ _ _ _ _ (arr_top_snoc _ _ _ _ Hstack)).
  rewrite (bind_Ok _ _ _ _ _ (has_property_rec _ _ _ _ Ho)), Hsome.
  rewrite bool_decide_eq_true_2 by done. cbn [orb].
  rewrite (bind_Ok _ _ _ _ _ (get_property_rec _ _ _ _ Ho)).
  rewrite (read_property_Some _ _ _ Hsome).
  by apply val_push_arr.
Qed.

Lemma pusher_skips s s1 :
  valueReader (receiver opt_this this) node objectStack s
    = Ok VUndefined s1 →
  parser s = Ok tt s1.
Proof.
  intros Hread. subst parser. unfold makeObjectPropertyPusher.
  by rewrite (bind_Ok _ _ _ _ _ Hread).
Qed.
End PropertyPusher.

(** The record [o] at the top of the stack holds, under each key of
    [arrays], an array of its own whose elements are the values of
    [arrays] for that key, and nothing else. *)
Definition property_arrays (objectStack o : loc)
  (arrays : gmap string (list Val)) (s : State) : Prop :=
  ∃ es (A : gmap string loc),
    heap s !! objectStack = Some (Arr (es ++ [VObj o])) ∧
    heap s !! o = Some (Rec (VObj <$> A)) ∧
    dom A = dom arrays ∧
    (∀ k a, A !! k = Some a →
            a ≠ objectStack ∧ heap s !! a = Some (Arr (arrays !!! k))) ∧
    (∀ k1 k2 a, A !! k1 = Some a → A !! k2 = Some a → k1 = k2).

Lemma defined_false v : defined v = false → v = VUndefined.
Proof. by destruct v. Qed.

Section PushedProperties.
Variable f : Node → Val.
Variable opt_property : option string.
Variables opt_this this : Val.
Variables objectStack o : loc.

(** What one invocation adds to the arrays. *)
Definition push_value (arrays : gmap string (list Val)) (n : Node)
  : gmap string (list Val) :=
  let property := property_of opt_property n in
  if defined (f n)
  then <[property := arrays !!! property ++ [f n]]> arrays
  else arrays.

Lemma pusher_step arrays n s :
  inherited (property_of opt_property n) = None →
  property_arrays objectStack o arrays s →
  ∃ s', makeObjectPropertyPusher (pureReader f) opt_property opt_this this n
          objectStack s = Ok tt s' ∧
        property_arrays objectStack o (push_value arrays n) s'.
Proof.
  intros Hplain (es & A & Hstk & Ho & Hdom & Harr & Hinj).
  unfold push_value. set (k := property_of opt_property n) in *.
  destruct (defined (f n)) eqn:Hv.
  2:{ exists s. split; [|by exists es, A].
      apply pusher_skips. unfold pureReader. by rewrite (defined_false _ Hv). }
  destruct (A !! k) as [a|] eqn:Hk.
  - destruct (Harr _ _ Hk) as [Hne Ha].
    eexists. split.
    { eapply pusher_appends; [reflexivity|done|exact Hstk|exact Ho| |exact Ha].
      fold k. by rewrite lookup_fmap, Hk. }
    assert (a ≠ o) as Hao by (intros ->; congruence).
    exists es, A. simpl. rewrite !lookup_insert_ne by done.
    split; [done|]. split; [done|]. split.
    { rewrite dom_insert_lookup_L; [done|].
      apply elem_of_dom. rewrite <- Hdom. apply elem_of_dom. eauto. }
    split; [|done]. intros k' a' Hk'.
    destruct (Harr _ _ Hk') as [Hne' Ha']. split; [done|].
    destruct (decide (k' = k)) as [->|Hkk].
    + assert (a' = a) as -> by congruence.
      by rewrite lookup_insert_eq, lookup_total_insert_eq.
    + assert (a ≠ a') by (intros <-; by destruct Hkk; eapply Hinj).
      by rewrite lookup_insert_ne, lookup_total_insert_ne.
  - set (a := fresh (dom (heap s))).
    assert (heap s !! a = None) as Hfresh by apply not_elem_of_dom, is_fresh.
    assert (a ≠ objectStack) as Hne by (intros ->; congruence).
    assert (a ≠ o) as Hao by (intros ->; congruence).
    eexists. split.
    { eapply pusher_creates;
        [reflexivity|done|exact Hstk|exact Ho| |exact Hplain].
      fold k. by rewrite lookup_fmap, Hk. }
    fold a k. exists es, (<[k := a]> A). simpl.
    assert (o ≠ objectStack) as Hos by (intros ->; congruence).
    assert (arrays !!! k = []) as Hempty.
    { rewrite lookup_total_alt.
      assert (arrays !! k = None) as ->; [|done].
      apply not_elem_of_dom. rewrite <- Hdom. by apply not_elem_of_dom. }
    split_and!.
    + by rewrite !lookup_insert_ne.
    + rewrite lookup_insert_ne, lookup_insert_eq by done.
      by rewrite fmap_insert.
    + by rewrite !dom_insert_L, Hdom.
    + intros k' a'. destruct (decide (k' = k)) as [->|Hkk].
      * rewrite lookup_insert_eq. intros [= <-]. split; [done|].
        by rewrite lookup_insert_eq, lookup_total_insert_eq, Hempty.
      * rewrite lookup_insert_ne by done. intros Hk'.
        destruct (Harr _ _ Hk') as [Hne' Ha']. split; [done|].
        assert (a ≠ a') by (intros <-; congruence).
        assert (o ≠ a') by (intros <-; congruence).
        by rewrite !lookup_insert_ne, lookup_total_insert_ne.
    + intros k1 k2 a'.
      destruct (decide (k1 = k)) as [->|H1], (decide (k2 = k)) as [->|H2];
        [done|..]; rewrite ?lookup_insert_eq, ?lookup_insert_ne by done.
      * intros [= <-] H2'. destruct (Harr _ _ H2'). congruence.
      * intros H1' [= <-]. destruct (Harr _ _ H1'). congruence.
      * apply Hinj.
Qed.

(** The parser invoked for each node of a list in turn. *)
Lemma pusher_steps ns arrays s :
  Forall (λ n, inherited (property_of opt_property n) = None) ns →
  property_arrays objectStack o arrays s →
  ∃ s', forEach (λ n, makeObjectPropertyPusher (pureReader f) opt_property
                        opt_this this n objectStack) ns s = Ok tt s' ∧
        property_arrays objectStack o (foldl push_value arrays ns) s'.
Proof.
  intros Hplain. revert arrays s.
  induction Hplain as [|n ns Hn0 _ IH]; intros arrays s Hs; simpl.
  - by exists s.
  - destruct (pusher_step arrays n s Hn0 Hs) as (s1 & Hn & Hs1).
    destruct (IH _ _ Hs1) as (s' & Hns & Hs').
    exists s'. by rewrite (bind_Ok _ _ _ _ _ Hn).
Qed.

Lemma push_values_same property ns arrays :
  Forall (λ n, property_of opt_property n = property ∧ defined (f n) = true)
    ns →
  ns ≠ [] →
  foldl push_value arrays ns
  = <[property := arrays !!! property ++ (f <$> ns)]> arrays.
Proof.
  intros Hall. revert arrays.
  induction Hall as [|n ns [Hn Hv] Hall IH]; intros arrays Hne; [done|].
  simpl. unfold push_value at 2. rewrite Hn, Hv.
  destruct ns as [|n' ns]; [done|].
  rewrite IH by done. rewrite lookup_total_insert_eq, insert_insert_eq.
  by rewrite <- app_assoc.
Qed.
End PushedProperties.

Lemma property_arrays_empty objectStack o es s :
  heap s !! objectStack = Some (Arr (es ++ [VObj o])) →
  heap s !! o = Some (Rec ∅) →
  property_arrays objectStack o ∅ s.
Proof.
  intros Hstk Ho. exists es, ∅. rewrite fmap_empty, !dom_empty_L.
  split_and!; [done..| |]; intros *; by rewrite lookup_empty.
Qed.

(** The record at the top of the stack has no property [constructor]
    of its own. *)
Definition constructor_doc : Node :=
  Element None "constructor" [Text "a"].

(** C6.  The parser that [makeObjectPropertyPusher] returns calls the
    value reader; when the value is defined it is appended to the array
    stored on the record at the top of the object stack under the
    property, which is the bound one if there is one and the local name
    of the node otherwise; when the record has no such property, and
    the property is not the name of a member of [Object.prototype], a
    new array is stored under it first.  Invoked for nodes that share
    such a property (the bound one, or their local name), it leaves
    under it an array of the values read, in the order of the
    invocations; invoked for two nodes of different names, it leaves
    two properties with an array each.  The
    test [property in object] also holds for the members that a record
    inherits: for a node named [constructor] and an empty record, no
    array is created, and the call throws a [TypeError] with the record
    as it was. *)
Theorem makeObjectPropertyPusher_accumulates_unless_inherited :
  (∀ (valueReader : ValueReader) opt_property opt_this this node
     objectStack s s1 v es o m,
     valueReader (receiver opt_this this) node objectStack s = Ok v s1 →
     defined v = true →
     heap s1 !! objectStack = Some (Arr (es ++ [VObj o])) →
     heap s1 !! o = Some (Rec m) →
     let parser := makeObjectPropertyPusher valueReader opt_property
                     opt_this this node objectStack in
     let property := property_of opt_property node in
     (m !! property = None →
      inherited property = None →
      let a := fresh (dom (heap s1)) in
      parser s =
      Ok tt (mkState
               (<[a := Arr [v]]>
                  (<[o := Rec (<[property := VObj a]> m)]>
                     (<[a := Arr []]> (heap s1))))
               (nodes s1) (cells s1))) ∧
     (∀ a elems,
        m !! property = Some (VObj a) →
        heap s1 !! a = Some (Arr elems) →
        parser s =
        Ok tt (mkState (<[a := Arr (elems ++ [v])]> (heap s1))
                 (nodes s1) (cells s1)))) ∧
  (∀ property node, property_of (Some property) node = property) ∧
  (∀ ns name kids, property_of None (Element ns name kids) = name) ∧
  (∀ (f : Node → Val) opt_property opt_this this objectStack o es s property
     children,
     heap s !! objectStack = Some (Arr (es ++ [VObj o])) →
     heap s !! o = Some (Rec ∅) →
     inherited property = None →
     Forall (λ n, property_of opt_property n = property ∧
                  defined (f n) = true) children →
     children ≠ [] →
     ∃ s' a,
       forEach (λ n, makeObjectPropertyPusher (pureReader f) opt_property
                       opt_this this n objectStack) children s = Ok tt s' ∧
       heap s' !! o = Some (Rec {[ property := VObj a ]}) ∧
       heap s' !! a = Some (Arr (f <$> children))) ∧
  (∀ (f : Node → Val) opt_this this objectStack o es s n1 n2 name1 name2,
     heap s !! objectStack = Some (Arr (es ++ [VObj o])) →
     heap s !! o = Some (Rec ∅) →
     Node_localName n1 = Some name1 → Node_localName n2 = Some name2 →
     inherited name1 = None → inherited name2 = None →
     name1 ≠ name2 →
     defined (f n1) = true → defined (f n2) = true →
     ∃ s' m a1 a2,
       forEach (λ n, makeObjectPropertyPusher (pureReader f) None opt_this
                       this n objectStack) [n1; n2] s = Ok tt s' ∧
       heap s' !! o = Some (Rec m) ∧
       m !! name1 = Some (VObj a1) ∧ m !! name2 = Some (VObj a2) ∧
       a1 ≠ a2 ∧
       heap s' !! a1 = Some (Arr [f n1]) ∧
       heap s' !! a2 = Some (Arr [f n2])) ∧
  (defined (readText constructor_doc) = true ∧
   heap record_state !! 1 = Some (Rec ∅) ∧
   makeObjectPropertyPusher (pureReader readText) None VUndefined VUndefined
     constructor_doc 0 record_state = Throw TypeError record_state).
Proof.
  split_and!.
  - intros * Hread Hv Hstk Ho parser property. split.
    + by apply pusher_creates with es.
    + intros a elems Hsome Ha. by apply pusher_appends with es o m.
  - done.
  - done.
  - intros * Hstk Ho Hplain Hall Hne.
    destruct (pusher_steps f opt_property opt_this this objectStack o
                children ∅ s)
      as (s' & Hrun & (es' & A & _ & Ho' & Hdom & Harr & _));
      [|by apply property_arrays_empty with es|].
    { eapply Forall_impl; [exact Hall|]. by intros n [-> ?]. }
    assert (foldl (push_value f opt_property) ∅ children
            = {[ property := f <$> children ]}) as Hfold.
    { rewrite (push_values_same f opt_property property) by done.
      by rewrite lookup_total_empty, insert_empty. }
    rewrite Hfold in Hdom, Harr. rewrite dom_singleton_L in Hdom.
    apply dom_singleton_inv_L in Hdom as [a ->].
    exists s', a. split; [done|]. rewrite map_fmap_singleton in Ho'.
    split; [done|].
    destruct (Harr property a) as [_ Ha]; [apply lookup_singleton_eq|].
    by rewrite lookup_total_singleton_eq in Ha.
  - intros * Hstk Ho Hn1 Hn2 Hplain1 Hplain2 Hne Hv1 Hv2.
    destruct (pusher_steps f None opt_this this objectStack o [n1; n2] ∅ s)
      as (s' & Hrun & (es' & A & _ & Ho' & Hdom & Harr & Hinj));
      [|by apply property_arrays_empty with es|].
    { repeat constructor; unfold property_of; by rewrite ?Hn1, ?Hn2. }
    simpl in Hdom, Harr. unfold push_value, property_of in Hdom, Harr.
    rewrite Hn1, Hn2, Hv1, Hv2 in Hdom, Harr. simpl in Hdom, Harr.
    rewrite lookup_total_empty in Hdom, Harr.
    rewrite lookup_total_insert_ne, lookup_total_empty in Hdom, Harr by done.
    simpl in Hdom, Harr.
    assert (is_Some (A !! name1)) as [a1 H1].
    { apply elem_of_dom. rewrite Hdom. apply elem_of_dom.
      rewrite lookup_insert_ne, lookup_insert_eq by done. eauto. }
    assert (is_Some (A !! name2)) as [a2 H2].
    { apply elem_of_dom. rewrite Hdom. apply elem_of_dom.
      rewrite lookup_insert_eq. eauto. }
    exists s', (VObj <$> A), a1, a2.
    split; [done|]. split; [done|].
    rewrite !lookup_fmap, H1, H2. split; [done|]. split; [done|].
    split; [intros ->; by destruct Hne; eapply Hinj|].
    destruct (Harr _ _ H1) as [_ Ha1]. destruct (Harr _ _ H2) as [_ Ha2].
    rewrite lookup_total_insert_ne, lookup_total_insert_eq in Ha1 by done.
    rewrite lookup_total_insert_eq in Ha2. done.
  - reflexivity.
  - reflexivity.
  - reflexivity.
Qed.

Lemma makeObjectPropertyPusher_accumulates_unless_inherited_witness :
  ∃ s' a,
    forEach (λ n, makeObjectPropertyPusher (pureReader readText) None
                    VUndefined VUndefined n 0)
      [ Element None "item" [Text "a"];
        Element None "item" [Text "b"];
        Element None "item" [Text "c"] ] record_state = Ok tt s' ∧
    heap s' !! 1 = Some (Rec {[ "item" := VObj a ]}) ∧
    heap s' !! a = Some (Arr [VStr "a"; VStr "b"; VStr "c"]).
Proof.
  apply (proj1 (proj2 (proj2 (proj2
           makeObjectPropertyPusher_accumulates_unless_inherited)))
           readText None VUndefined VUndefined 0 1 [] record_state "item"
           [ Element None "item" [Text "a"];
             Element None "item" [Text "b"];
             Element None "item" [Text "c"] ]).
  - reflexivity.
  - reflexivity.
  - reflexivity.
  - repeat constructor.
  - discriminate.
Defined.
(** * The loop of [serialize] *)

(** The keys and values that [serialize] pairs up: position by position
    when keys are given, stopping at the shorter of the two (a key
    without a value reads [undefined], which is passed over anyway);
    each value without a key otherwise. *)
Definition entries (opt_keys : option (list string)) (vs : list Val)
  : list (option string * Val) :=
  zip (match opt_keys with
       | Some keys => Some <$> keys
       | None => replicate (length vs) None
       end) vs.

Section SerializeLoop.
Variable serializersNS : gmap string (gmap string Serializer).
Variable nodeFactory : NodeFactory.
Variable objectStack : loc.
Variable opt_this : Val.
Variable values : loc.
Variable vs : list Val.

(** An invariant of the loop: it fixes the array of values, and the
    node factory and the serializers maintain it. *)
Definition entry_invariant (I : State → Prop) : Prop :=
  (∀ t, I t → heap t !! values = Some (Arr vs)) ∧
  ∀ key v t t',
    I t →
    writeEntry serializersNS nodeFactory objectStack opt_this key v t
      = Ok tt t' →
    I t'.

(** The node factory and the serializers leave the array of values as
    it is. *)
Definition values_untouched : Prop :=
  ∀ key v t t',
    heap t !! values = Some (Arr vs) →
    writeEntry serializersNS nodeFactory objectStack opt_this key v t
      = Ok tt t' →
    heap t' !! values = Some (Arr vs).

Lemma values_untouched_invariant :
  values_untouched →
  entry_invariant (λ t, heap t !! values = Some (Arr vs)).
Proof. by split. Qed.

Lemma val_index_arr i s :
  heap s !! values = Some (Arr vs) →
  val_index (VObj values) i s = Ok (default VUndefined (vs !! i)) s.
Proof.
  intros H. simpl. by erewrite bind_Ok; [|by apply getArray_Ok].
Qed.

Lemma serialize_loop I opt_keys kos i s :
  entry_invariant I →
  I s →
  (∀ j ko, kos !! j = Some ko → opt_keys ≫= (.!! (i + j)) = ko) →
  forEach (serializeValue serializersNS nodeFactory (VObj values)
             objectStack opt_keys opt_this) (seq i (length kos)) s =
  forEach (λ e, writeEntry serializersNS nodeFactory objectStack opt_this
                  e.1 e.2)
    (filter (λ e, defined e.2 = true) (zip kos (drop i vs))) s.
Proof.
  intros [Hvalues Hkeep]. revert i s.
  induction kos as [|ko kos IH]; intros i s Hs Hkeys; [done|].
  cbn [length seq forEach]. unfold serializeValue at 1.
  rewrite bind_assoc, (bind_Ok _ _ _ _ _ (val_index_arr i s (Hvalues _ Hs))).
  assert (opt_keys ≫= (.!! i) = ko) as ->.
  { rewrite <- (Hkeys 0 ko eq_refl). f_equal. f_equal. lia. }
  assert (∀ j ko', kos !! j = Some ko' → opt_keys ≫= (.!! (S i + j)) = ko')
    as Hkeys'.
  { intros j ko' Hj. rewrite <- (Hkeys (S j) ko' Hj). do 2 f_equal. lia. }
  destruct (vs !! i) as [v|] eqn:Hv; cbn [default from_option id].
  - rewrite (drop_S _ _ _ Hv). cbn [zip zip_with]. rewrite filter_cons.
    cbn [snd fst]. destruct (defined v) eqn:Hdef.
    + rewrite decide_True by done. cbn [forEach fst snd]. unfold bind at 1 2.
      destruct (writeEntry _ _ _ _ _ _ s) as [[] t|e t] eqn:Hstep; [|done].
      apply IH; [by eapply Hkeep|done].
    + rewrite decide_False by done. unfold bind, ret. by apply IH.
  - rewrite drop_ge by by apply lookup_ge_None.
    rewrite zip_with_nil_r, filter_nil. cbn [defined forEach].
    unfold bind at 1. unfold ret at 1.
    rewrite (IH (S i) s Hs Hkeys').
    rewrite drop_ge by (apply lookup_ge_None in Hv; lia).
    by rewrite zip_with_nil_r.
Qed.

(** [serialize] calls the node factory, and the serializer of the node
    it returns, for the values that are not [undefined], in the order
    of the array, and for those only. *)
Lemma serialize_entries_under I opt_keys s :
  entry_invariant I →
  I s →
  serialize serializersNS nodeFactory (VObj values) objectStack opt_keys
    opt_this s =
  forEach (λ e, writeEntry serializersNS nodeFactory objectStack opt_this
                  e.1 e.2)
    (filter (λ e, defined e.2 = true) (entries opt_keys vs)) s.
Proof.
  intros HI Hs. unfold serialize, entries.
  pose proof (proj1 HI _ Hs) as Hvalues.
  destruct opt_keys as [keys|].
  - erewrite bind_Ok; [|reflexivity].
    rewrite <- (length_fmap Some keys).
    rewrite (serialize_loop I (Some keys) (Some <$> keys) 0 s);
      [done|done|done|].
    intros j ko. rewrite list_lookup_fmap. simpl.
    destruct (keys !! j); simpl; congruence.
  - erewrite bind_Ok;
      [|simpl; erewrite bind_Ok; [|by apply getArray_Ok]; reflexivity].
    rewrite <- (length_replicate (length vs) (None : option string)) at 1.
    rewrite (serialize_loop I None (replicate (length vs) None) 0 s);
      [done|done|done|].
    by intros j ko [-> _]%lookup_replicate.
Qed.

Lemma serialize_entries opt_keys s :
  values_untouched →
  heap s !! values = Some (Arr vs) →
  serialize serializersNS nodeFactory (VObj values) objectStack opt_keys
    opt_this s =
  forEach (λ e, writeEntry serializersNS nodeFactory objectStack opt_this
                  e.1 e.2)
    (filter (λ e, defined e.2 = true) (entries opt_keys vs)) s.
Proof.
  intros Hkeep Hs.
  by apply (serialize_entries_under (λ t, heap t !! values = Some (Arr vs)));
    [apply values_untouched_invariant|].
Qed.
End SerializeLoop.

(** * Sequences *)

(** What reading a record at the keys of a list gives: its own value
    at the key, else the member of [Object.prototype] of that name,
    else [undefined]. *)
Definition values_at (m : gmap string Val) (keys : list string)
  : list Val :=
  read_property m <$> keys.

Lemma makeSequence_loop o m keys a i k s :
  o ≠ a →
  heap s !! o = Some (Rec m) →
  heap s !! a
    = Some (Arr (take i (values_at m keys)
                   ++ replicate (length keys - i) VUndefined)) →
  i + k = length keys →
  forEach (λ i,
     v <- get_property (VObj o) (default "undefined" (keys !! i)) ;;
     es <- getArray a ;;
     setObj a (Arr (<[i := v]> es))) (seq i k) s =
  Ok tt (mkState (<[a := Arr (values_at m keys)]> (heap s))
           (nodes s) (cells s)).
Proof.
  intros Hoa. revert i s. induction k as [|k IH]; intros i s Ho Ha Hik.
  - simpl. unfold ret. f_equal. destruct s as [h n c]. simpl in *. f_equal.
    symmetry. apply insert_id. rewrite Ha. do 2 f_equal.
    replace (length keys - i) with 0 by lia. simpl.
    rewrite app_nil_r. apply take_ge. unfold values_at.
    rewrite length_fmap. lia.
  - cbn [seq forEach]. rewrite bind_assoc.
    rewrite (bind_Ok _ _ _ _ _ (get_property_rec _ _ _ _ Ho)).
    rewrite bind_assoc. erewrite bind_Ok; [|by apply getArray_Ok].
    unfold bind at 1. unfold setObj at 1.
    assert (i < length keys) as Hi by lia.
    destruct (lookup_lt_is_Some_2 keys i Hi) as [key Hkey].
    rewrite Hkey. cbn [default from_option id].
    rewrite IH; cbn [heap nodes cells].
    + by rewrite insert_insert_eq.
    + by rewrite lookup_insert_ne.
    + rewrite lookup_insert_eq. do 2 f_equal.
      assert (length (take i (values_at m keys)) = i) as Hlen.
      { rewrite length_take. unfold values_at. rewrite length_fmap. lia. }
      rewrite insert_app_r_alt by lia. rewrite Hlen, Nat.sub_diag.
      replace (length keys - i) with (S (length keys - S i)) by lia.
      cbn [replicate]. simpl.
      erewrite take_S_r;
        [|unfold values_at; rewrite list_lookup_fmap, Hkey; reflexivity].
      by rewrite <- app_assoc.
    + lia.
Qed.

Lemma makeSequence_values o m orderedKeys s :
  heap s !! o = Some (Rec m) →
  let a := fresh (dom (heap s)) in
  makeSequence (VObj o) orderedKeys s =
  Ok (VObj a) (mkState (<[a := Arr (values_at m orderedKeys)]> (heap s))
                 (nodes s) (cells s)).
Proof.
  intros Ho a. unfold makeSequence.
  erewrite bind_Ok; [|reflexivity]. fold a.
  assert (heap s !! a = None) as Hfresh by apply not_elem_of_dom, is_fresh.
  assert (o ≠ a) as Hoa by (intros ->; congruence).
  erewrite bind_Ok.
  2:{ apply (makeSequence_loop o m orderedKeys a 0); cbn [heap];
        [done|by rewrite lookup_insert_ne|
         by rewrite lookup_insert_eq, Nat.sub_0_r|done]. }
  cbn [heap nodes cells]. by rewrite insert_insert_eq.
Qed.

(** The object stack holds a context frame whose node is the element
    [items]; the record at address 1 is [{a: 1, b: 2}]. *)
Definition sequence_state : State :=
  mkState
    (<[0 := Arr [VObj 3]]>
       (<[1 := Rec (<[ "a" := VNum 1 ]> {[ "b" := VNum 2 ]})]>
          {[ 3 := Rec {[ "node" := VNode 0 ]} ]}))
    {[ 0 := mkDomNode (Some "urn:items") "items" None [] [] ]}
    ∅.

(** Serializers for the elements [a], [b] and [c]: each writes its value
    as an attribute and appends the element to the node of the context
    frame. *)
Definition KEYED_SERIALIZERS : gmap string (gmap string Serializer) :=
  default ∅
    (makeStructureNS ["urn:items"]
       (<[ "a" := makeChildAppender writeValue VUndefined ]>
          (<[ "b" := makeChildAppender writeValue VUndefined ]>
             {[ "c" := makeChildAppender writeValue VUndefined ]})) None).

(** The children of an element of the output document: namespace,
    local name and attributes of each. *)
Definition children_view (s : State) (p : nid)
  : list (option string * string * list (string * Val)) :=
  match nodes s !! p with
  | Some d =>
      omap (λ c, (λ dc, (namespaceURI dc, localName dc, attributes dc))
                   <$> nodes s !! c) (childNodes d)
  | None => []
  end.

(** C7.  [makeSequence] returns a new array as long as the list of keys,
    whose element at each position is what reading the record at the
    key of that position gives: the value of the record at that key,
    and [undefined] where the record has no such key and the key is not
    the name of a member of [Object.prototype]; [serialize], given that
    array and those keys, calls the node factory and the serializer for
    the positions whose value is defined, in order, and for no other.
    For [{a: 1, b: 2}] and the keys [a, b, c] the array is
    [[1, 2, undefined]] and the elements written are [a] and [b].  The
    record is read with [object[key]], which also finds what a record
    inherits: for the keys [a, constructor, c], the record having no
    [constructor], the array is [[1, Object, undefined]], and the
    position of [constructor] is not passed over. *)
Theorem makeSequence_reads_properties :
  (∀ o m orderedKeys s,
     heap s !! o = Some (Rec m) →
     ∃ a s' sequence,
       makeSequence (VObj o) orderedKeys s = Ok (VObj a) s' ∧
       heap s !! a = None ∧
       heap s' !! a = Some (Arr sequence) ∧
       length sequence = length orderedKeys ∧
       (∀ i key, orderedKeys !! i = Some key →
                 sequence !! i = Some (read_property m key) ∧
                 (inherited key = None →
                  sequence !! i = Some (default VUndefined (m !! key)))) ∧
       ∀ (serializersNS : gmap string (gmap string Serializer))
         (nodeFactory : NodeFactory) objectStack opt_this,
         values_untouched serializersNS nodeFactory objectStack opt_this a
           sequence →
         serialize serializersNS nodeFactory (VObj a) objectStack
           (Some orderedKeys) opt_this s' =
         forEach (λ e, writeEntry serializersNS nodeFactory objectStack
                         opt_this e.1 e.2)
           (filter (λ e, defined e.2 = true)
              (zip (Some <$> orderedKeys) sequence)) s') ∧
  (let r := makeSequence (VObj 1) ["a"; "b"; "c"] sequence_state in
   outcome r = inl (VObj 4) ∧
   array_of r = Some [VNum 1; VNum 2; VUndefined] ∧
   (∀ (serializersNS : gmap string (gmap string Serializer))
      (nodeFactory : NodeFactory) objectStack opt_this,
      values_untouched serializersNS nodeFactory objectStack opt_this 4
        [VNum 1; VNum 2; VUndefined] →
      serialize serializersNS nodeFactory (VObj 4) objectStack
        (Some ["a"; "b"; "c"]) opt_this (state_of r) =
      (writeEntry serializersNS nodeFactory objectStack opt_this
         (Some "a") (VNum 1) ;;
       writeEntry serializersNS nodeFactory objectStack opt_this
         (Some "b") (VNum 2) ;;
       ret tt) (state_of r)) ∧
   children_view
     (state_of
        (serialize KEYED_SERIALIZERS OBJECT_PROPERTY_NODE_FACTORY (VObj 4) 0
           (Some ["a"; "b"; "c"]) VUndefined (state_of r))) 0 =
   [ (Some "urn:items", "a", [("value", VNum 1)]);
     (Some "urn:items", "b", [("value", VNum 2)]) ]) ∧
  (let r := makeSequence (VObj 1) ["a"; "constructor"; "c"] sequence_state in
   array_of r = Some [VNum 1; VBuiltin Constructor; VUndefined] ∧
   ∀ (serializersNS : gmap string (gmap string Serializer))
     (nodeFactory : NodeFactory) objectStack opt_this,
     values_untouched serializersNS nodeFactory objectStack opt_this 4
       [VNum 1; VBuiltin Constructor; VUndefined] →
     serialize serializersNS nodeFactory (VObj 4) objectStack
       (Some ["a"; "constructor"; "c"]) opt_this (state_of r) =
     (writeEntry serializersNS nodeFactory objectStack opt_this
        (Some "a") (VNum 1) ;;
      writeEntry serializersNS nodeFactory objectStack opt_this
        (Some "constructor") (VBuiltin Constructor) ;;
      ret tt) (state_of r)).
Proof.
  split; [|split].
  - intros o m orderedKeys s Ho.
    eexists (fresh (dom (heap s))), _, (values_at m orderedKeys).
    split; [by apply makeSequence_values|].
    split; [apply not_elem_of_dom, is_fresh|].
    split; [simpl; by rewrite lookup_insert_eq|].
    split; [unfold values_at; by rewrite length_fmap|].
    split.
    + intros i key Hkey. unfold values_at.
      rewrite list_lookup_fmap, Hkey. split; [done|].
      intros Hplain. simpl. by rewrite read_property_plain.
    + intros * Hkeep. rewrite (serialize_entries _ _ _ _ _ _ _ _ Hkeep);
        [done|]. simpl. by rewrite lookup_insert_eq.
  - split; [vm_compute; reflexivity|]. split; [vm_compute; reflexivity|].
    split; [|vm_compute; reflexivity].
    intros * Hkeep.
    rewrite (serialize_entries _ _ _ _ _ _ _ _ Hkeep);
      [done|vm_compute; reflexivity].
  - split; [vm_compute; reflexivity|].
    intros * Hkeep.
    rewrite (serialize_entries _ _ _ _ _ _ _ _ Hkeep);
      [done|vm_compute; reflexivity].
Qed.

Lemma values_untouched_keeps_heap
  (serializersNS : gmap string (gmap string Serializer))
  (nodeFactory : NodeFactory) objectStack opt_this values vs :
  (∀ key v, keeps_heap (writeEntry serializersNS nodeFactory objectStack
                          opt_this key v)) →
  values_untouched serializersNS nodeFactory objectStack opt_this values vs.
Proof. intros Hkeep key v t t' Ht Hrun. by rewrite (Hkeep _ _ _ _ _ Hrun). Qed.

Lemma KEYED_SERIALIZERS_handler serializer :
  handler_of KEYED_SERIALIZERS serializer →
  serializer = makeChildAppender writeValue VUndefined.
Proof.
  intros (ns & serializers & name & Hns & Hname).
  change KEYED_SERIALIZERS
    with (<[ "urn:items" :=
              <[ "a" := makeChildAppender writeValue VUndefined ]>
                (<[ "b" := makeChildAppender writeValue VUndefined ]>
                   {[ "c" := makeChildAppender writeValue VUndefined ]}) ]>
            (∅ : gmap string (gmap string Serializer))) in Hns.
  apply lookup_insert_Some in Hns as [[_ <-]|[_ Hns]];
    [|by rewrite lookup_empty in Hns].
  apply lookup_insert_Some in Hname as [[_ <-]|[_ Hname]]; [done|].
  apply lookup_insert_Some in Hname as [[_ <-]|[_ Hname]]; [done|].
  by apply lookup_singleton_Some in Hname as [_ <-].
Qed.

Lemma KEYED_SERIALIZERS_untouched objectStack opt_this values vs :
  values_untouched KEYED_SERIALIZERS OBJECT_PROPERTY_NODE_FACTORY objectStack
    opt_this values vs.
Proof.
  apply values_untouched_keeps_heap. intros key v.
  apply writeEntry_keeps; [by apply makeSimpleNodeFactory_keeps|].
  intros serializer n ->%KEYED_SERIALIZERS_handler.
  apply makeChildAppender_keeps; [done|]. intros receiver.
  by apply setAttribute_keeps.
Qed.

Lemma makeSequence_reads_properties_witness :
  heap sequence_state !! 1
    = Some (Rec (<[ "a" := VNum 1 ]> {[ "b" := VNum 2 ]})) ∧
  ∃ a s' sequence,
    makeSequence (VObj 1) ["a"; "b"; "c"] sequence_state = Ok (VObj a) s' ∧
    length sequence = 3 ∧
    serialize KEYED_SERIALIZERS OBJECT_PROPERTY_NODE_FACTORY (VObj a) 0
      (Some ["a"; "b"; "c"]) VUndefined s' =
    forEach (λ e, writeEntry KEYED_SERIALIZERS OBJECT_PROPERTY_NODE_FACTORY 0
                    VUndefined e.1 e.2)
      (filter (λ e, defined e.2 = true)
         (zip (Some <$> ["a"; "b"; "c"]) sequence)) s'.
Proof.
  assert (heap sequence_state !! 1
          = Some (Rec (<[ "a" := VNum 1 ]> {[ "b" := VNum 2 ]}))) as Ho
    by reflexivity.
  split; [exact Ho|].
  destruct (proj1 makeSequence_reads_properties 1 _ ["a"; "b"; "c"]
              sequence_state Ho)
    as (a & s' & sequence & Hrun & _ & _ & Hlen & _ & Hwrite).
  exists a, s', sequence. split; [exact Hrun|]. split; [exact Hlen|].
  apply Hwrite, KEYED_SERIALIZERS_untouched.
Defined.

(** Serializer for [item] elements: the value becomes an attribute and
    the element a child of the node of the context frame. *)
Definition ITEM_SERIALIZERS : gmap string (gmap string Serializer) :=
  {[ "urn:items" := {[ "item" := makeChildAppender writeValue VUndefined ]} ]}.

Lemma ITEM_SERIALIZERS_untouched opt_nodeName opt_namespaceURI objectStack
  opt_this values vs :
  values_untouched ITEM_SERIALIZERS
    (makeSimpleNodeFactory opt_nodeName opt_namespaceURI) objectStack
    opt_this values vs.
Proof.
  apply values_untouched_keeps_heap. intros key v.
  apply writeEntry_keeps; [by apply makeSimpleNodeFactory_keeps|].
  intros serializer n ->%handler_of_singleton.
  apply makeChildAppender_keeps; [done|]. intros receiver.
  by apply setAttribute_keeps.
Qed.

(** The object stack holds a context frame whose node is the element
    [items]; the array at address 2 holds the values that are false in
    a condition, [undefined] last. *)
Definition falsy_state : State :=
  mkState
    (<[0 := Arr [VObj 3]]>
       (<[2 := Arr [VNull; VNum 0; VBool false; VStr ""; VUndefined]]>
          {[ 3 := Rec {[ "node" := VNode 0 ]} ]}))
    {[ 0 := mkDomNode (Some "urn:items") "items" None [] [] ]}
    ∅.

(** C9.  [serialize] passes over a value exactly when it is
    [undefined]: at an index whose value is anything else ([null], 0,
    [false] and the empty string included) the step of the loop is the
    call of the node factory followed, when a node is returned, by the
    call of the serializer; at an index whose value is [undefined], or
    past the end of the array, the step does nothing. *)
Theorem serialize_skips_only_undefined :
  (∀ (serializersNS : gmap string (gmap string Serializer))
     (nodeFactory : NodeFactory) values objectStack opt_keys opt_this i s vs,
     heap s !! values = Some (Arr vs) →
     serializeValue serializersNS nodeFactory (VObj values) objectStack
       opt_keys opt_this i s =
     match vs !! i with
     | Some VUndefined | None => Ok tt s
     | Some v =>
         writeEntry serializersNS nodeFactory objectStack opt_this
           (opt_keys ≫= (.!! i)) v s
     end) ∧
  (∀ (serializersNS : gmap string (gmap string Serializer))
     (nodeFactory : NodeFactory) values objectStack opt_keys opt_this s vs,
     heap s !! values = Some (Arr vs) →
     values_untouched serializersNS nodeFactory objectStack opt_this values
       vs →
     serialize serializersNS nodeFactory (VObj values) objectStack opt_keys
       opt_this s =
     forEach (λ e, writeEntry serializersNS nodeFactory objectStack opt_this
                     e.1 e.2)
       (filter (λ e, defined e.2 = true) (entries opt_keys vs)) s) ∧
  (∀ v, defined v = false ↔ v = VUndefined) ∧
  (∀ (serializersNS : gmap string (gmap string Serializer))
     (nodeFactory : NodeFactory) values objectStack opt_this s,
     let vs := [VNull; VNum 0; VBool false; VStr ""; VUndefined] in
     let write := writeEntry serializersNS nodeFactory objectStack opt_this
                    None in
     heap s !! values = Some (Arr vs) →
     values_untouched serializersNS nodeFactory objectStack opt_this values
       vs →
     serialize serializersNS nodeFactory (VObj values) objectStack None
       opt_this s =
     (write VNull ;; write (VNum 0) ;; write (VBool false) ;;
      write (VStr "") ;; ret tt) s) ∧
  children_view
    (state_of
       (serialize ITEM_SERIALIZERS (makeSimpleNodeFactory (Some "item") None)
          (VObj 2) 0 None VUndefined falsy_state)) 0 =
  [ (Some "urn:items", "item", [("value", VNull)]);
    (Some "urn:items", "item", [("value", VNum 0)]);
    (Some "urn:items", "item", [("value", VBool false)]);
    (Some "urn:items", "item", [("value", VStr "")]) ].
Proof.
  split_and!.
  - intros * Hs. unfold serializeValue.
    rewrite (bind_Ok _ _ _ _ _ (val_index_arr _ _ i s Hs)).
    by destruct (vs !! i) as [[]|].
  - intros * Hs Hkeep. by apply serialize_entries.
  - intros v. split; [apply defined_false|by intros ->].
  - intros * Hs Hkeep. by rewrite (serialize_entries _ _ _ _ _ _ _ _ Hkeep).
  - vm_compute. reflexivity.
Qed.

Lemma serialize_skips_only_undefined_witness :
  heap falsy_state !! 2
    = Some (Arr [VNull; VNum 0; VBool false; VStr ""; VUndefined]) ∧
  let factory := makeSimpleNodeFactory (Some "item") None in
  let write := writeEntry ITEM_SERIALIZERS factory 0 VUndefined None in
  serialize ITEM_SERIALIZERS factory (VObj 2) 0 None VUndefined falsy_state =
  (write VNull ;; write (VNum 0) ;; write (VBool false) ;; write (VStr "") ;;
   ret tt) falsy_state.
Proof.
  split; [reflexivity|].
  apply (proj1 (proj2 (proj2 (proj2 serialize_skips_only_undefined)))
           ITEM_SERIALIZERS (makeSimpleNodeFactory (Some "item") None) 2 0
           VUndefined falsy_state eq_refl).
  apply ITEM_SERIALIZERS_untouched.
Defined.

(** * The adapter from one value to an array of values *)

(** The top of the object stack is a context frame whose node is [p],
    an element of the namespace [ns]. *)
Definition context_frame (objectStack ctx : loc) (p : nid)
  (ns : option string) (t : State) : Prop :=
  (∃ es, heap t !! objectStack = Some (Arr (es ++ [VObj ctx]))) ∧
  (∃ m, heap t !! ctx = Some (Rec m) ∧ m !! "node" = Some (VNode p)) ∧
  (∃ dp, nodes t !! p = Some dp ∧ namespaceURI dp = ns).

Lemma makeSimpleNodeFactory_inherits name objectStack ctx p ns this v key t :
  context_frame objectStack ctx p ns t →
  makeSimpleNodeFactory (Some name) None this v objectStack key t =
  (n <- createElementNS ns name ;; ret (Some n)) t.
Proof.
  intros ((es & Hstk) & (m & Hctx & Hnode) & (dp & Hp & Hns)).
  unfold makeSimpleNodeFactory.
  rewrite (bind_Ok _ _ _ _ _ (arr_top_snoc _ _ _ _ Hstk)).
  rewrite (bind_Ok _ _ _ _ _ (get_property_rec _ _ "node" _ Hctx)).
  rewrite (read_property_Some _ _ _ Hnode). cbn [val_namespaceURI].
  erewrite bind_Ok; [reflexivity|].
  erewrite bind_Ok; [|by apply getNode_Ok]. by rewrite Hns.
Qed.

Lemma context_frame_createElementNS objectStack ctx p ns ns' name t :
  context_frame objectStack ctx p ns t →
  context_frame objectStack ctx p ns (state_of (createElementNS ns' name t)).
Proof.
  intros (Hstk & Hctx & (dp & Hp & Hns)). split; [done|]. split; [done|].
  exists dp. split; [|done]. simpl. rewrite lookup_insert_ne; [done|].
  intros <-. apply (is_fresh (dom (nodes t))), elem_of_dom. eauto.
Qed.

Section ArraySerializer.
Variable nodeWriter : Serializer.
Variable c : cid.

(** The table and the node factory that the captured variables hold
    once they are built from a namespace key and a local name. *)
Definition cachedSerializers (built : string * string)
  : gmap string (gmap string Serializer) :=
  {[ built.1 := {[ built.2 := nodeWriter ]} ]}.

Definition cachedFactory (built : string * string) : NodeFactory :=
  makeSimpleNodeFactory (Some built.2) None.

Definition with_cell (v : option (string * string)) (s : State) : State :=
  mkState (heap s) (nodes s) (<[c := v]> (cells s)).

Lemma arraySerializer_first this node value objectStack s d :
  cells s !! c = Some None →
  nodes s !! node = Some d →
  let built := (default "null" (namespaceURI d), localName d) in
  arraySerializer c nodeWriter this node value objectStack s =
  serialize (cachedSerializers built) (cachedFactory built) value
    objectStack None VUndefined (with_cell (Some built) s).
Proof.
  intros Hc Hd built. unfold arraySerializer.
  erewrite bind_Ok; [|by unfold getCell; rewrite Hc].
  erewrite bind_Ok; [reflexivity|].
  erewrite bind_Ok; [|by apply getNode_Ok]. reflexivity.
Qed.

Lemma arraySerializer_later this node value objectStack s built :
  cells s !! c = Some (Some built) →
  arraySerializer c nodeWriter this node value objectStack s =
  serialize (cachedSerializers built) (cachedFactory built) value
    objectStack None VUndefined s.
Proof.
  intros Hc. unfold arraySerializer.
  erewrite bind_Ok; [|by unfold getCell; rewrite Hc].
  erewrite bind_Ok; reflexivity.
Qed.

(** The node writer cannot reach the captured variables. *)
Definition writer_keeps_cells : Prop :=
  ∀ this n v objectStack, keeps_cells (nodeWriter this n v objectStack).

Lemma cached_serialize_keeps_cells built value objectStack :
  writer_keeps_cells →
  keeps_cells
    (serialize (cachedSerializers built) (cachedFactory built) value
       objectStack None VUndefined).
Proof.
  intros Hw. apply serialize_keeps. intros key v.
  apply writeEntry_keeps; [by apply makeSimpleNodeFactory_keeps|].
  by intros serializer n ->%handler_of_singleton.
Qed.
End ArraySerializer.

Section ArraySerializerCalls.
Variable nodeWriter : Serializer.
Variable objectStack ctx : loc.
Variable p : nid.
Variable d : DomNode.

Let built : string * string :=
  (default "null" (namespaceURI d), localName d).

(** What the adapter does with one value when the node of the context
    frame is in the namespace of the trigger node. *)
Definition writeItem (value : Val) : M unit :=
  n <- createElementNS (namespaceURI d) (localName d) ;;
  nodeWriter VUndefined n value objectStack.

Lemma local_part_plain name : after_colon name = None → local_part name = name.
Proof. unfold local_part. by intros ->. Qed.

Lemma writeEntry_cached key v t :
  after_colon (localName d) = None →
  context_frame objectStack ctx p (namespaceURI d) t →
  writeEntry (cachedSerializers nodeWriter built) (cachedFactory built)
    objectStack VUndefined key v t = writeItem v t.
Proof.
  intros Hname Hctx. unfold writeEntry, cachedFactory, writeItem.
  unfold bind at 1.
  rewrite (makeSimpleNodeFactory_inherits _ _ _ _ _ _ _ _ _ Hctx).
  unfold built, bind, createElementNS, ret, getNode. cbn [fst snd nodes].
  rewrite lookup_insert_eq. cbn [namespaceURI localName].
  rewrite (local_part_plain _ Hname).
  unfold cachedSerializers, callSerializer. cbn [fst snd].
  erewrite lookup_key_Some by apply lookup_singleton_eq.
  by erewrite lookup_key_Some by apply lookup_singleton_eq.
Qed.

Lemma entries_all_defined vs :
  Forall (λ v, defined v = true) vs →
  filter (λ e : option string * Val, defined e.2 = true) (entries None vs)
  = (λ v, (None, v)) <$> vs.
Proof.
  unfold entries. induction 1 as [|v vs Hv _ IH]; [done|].
  cbn [length replicate zip zip_with fmap list_fmap].
  rewrite filter_cons. cbn [snd]. rewrite decide_True by done.
  f_equal. exact IH.
Qed.

Lemma forEach_writeItem I vs s :
  after_colon (localName d) = None →
  (∀ t, I t → context_frame objectStack ctx p (namespaceURI d) t) →
  (∀ v t t', I t → writeItem v t = Ok tt t' → I t') →
  I s →
  forEach (λ e : option string * Val,
             writeEntry (cachedSerializers nodeWriter built)
               (cachedFactory built) objectStack VUndefined e.1 e.2)
    ((λ v, (None, v)) <$> vs) s =
  forEach writeItem vs s.
Proof.
  intros Hname Hctx Hkeep. revert s.
  induction vs as [|v vs IH]; intros s Hs; [done|].
  cbn [fmap list_fmap forEach fst snd]. unfold bind.
  rewrite (writeEntry_cached None v s Hname (Hctx _ Hs)).
  destruct (writeItem v s) as [[] t|e t] eqn:Hstep; [|done].
  apply IH. by eapply Hkeep.
Qed.
End ArraySerializerCalls.

Lemma context_frame_with_cell c v objectStack ctx p ns s :
  context_frame objectStack ctx p ns s →
  context_frame objectStack ctx p ns (with_cell c v s).
Proof. done. Qed.

(** The object stack holds a context frame whose node is the element
    [items] of the namespace [urn:items]; the nodes 1 and 5 are an
    [item] of that namespace and an [other] of another one; the arrays
    at 2 and 4 are [[1, 2]] and [[3]]. *)
Definition adapter_state : State :=
  mkState
    (<[0 := Arr [VObj 3]]>
       (<[2 := Arr [VNum 1; VNum 2]]>
          (<[4 := Arr [VNum 3]]>
             {[ 3 := Rec {[ "node" := VNode 0 ]} ]})))
    (<[0 := mkDomNode (Some "urn:items") "items" None [] []]>
       (<[1 := mkDomNode (Some "urn:items") "item" None [] []]>
          {[ 5 := mkDomNode (Some "urn:other") "other" None [] [] ]}))
    ∅.

(** [serialize] over an array of defined values always goes through:
    what the claim says of the adapter, for a node writer that always
    returns. *)
Definition array_serializer_always_writes : Prop :=
  ∀ (nodeWriter : Serializer) c this node l objectStack s d vs ctx p ns,
    (∀ this n v objectStack t,
       ∃ t', nodeWriter this n v objectStack t = Ok tt t') →
    cells s !! c = Some None →
    nodes s !! node = Some d →
    heap s !! l = Some (Arr vs) →
    Forall (λ v, defined v = true) vs →
    context_frame objectStack ctx p ns s →
    ∃ s', arraySerializer c nodeWriter this node (VObj l) objectStack s
          = Ok tt s'.

(** Called with the trigger node [other] of [urn:other] while the node
    of the context frame is in [urn:items], the adapter throws. *)
Lemma array_serializer_foreign_trigger_throws :
  ¬ array_serializer_always_writes.
Proof.
  intros Hclaim.
  destruct (Hclaim (λ _ _ _ _, ret tt) 0 VUndefined 5 2 0
              (with_cell 0 None adapter_state)
              (mkDomNode (Some "urn:other") "other" None [] [])
              [VNum 1; VNum 2] 3 0 (Some "urn:items")) as [s' Hs'].
  - intros. by eexists.
  - reflexivity.
  - reflexivity.
  - reflexivity.
  - by repeat constructor.
  - split; [by exists []|]. split; by eexists.
  - vm_compute in Hs'. discriminate.
Qed.

(** C8 (amended).  On its first invocation the serializer that
    [makeArraySerializer] returns builds a table whose one entry is the
    node writer under the namespace and local name of the trigger node,
    and a node factory for that local name whose namespace is the one
    of the node of the context frame, whatever the namespace of the
    trigger node is, and runs [serialize] with them over the array.
    When the node of the context frame is in the namespace of the
    trigger node, that is, for each value in order, the creation of an
    element of that namespace and local name (which the DOM accepts, as
    it does those of a node it holds) followed by the call of the node
    writer on it. *)
Theorem array_serializer_first_call (nodeWriter : Serializer) (c : cid)
  (this : Val) (node : nid) (l objectStack ctx : loc) (p : nid) (s : State)
  (d : DomNode) (vs : list Val) :
  cells s !! c = Some None →
  nodes s !! node = Some d →
  heap s !! l = Some (Arr vs) →
  Forall (λ v, defined v = true) vs →
  let built := (default "null" (namespaceURI d), localName d) in
  let s1 := with_cell c (Some built) s in
  let call := arraySerializer c nodeWriter this node (VObj l) objectStack in
  call s =
  serialize {[ built.1 := {[ built.2 := nodeWriter ]} ]}
    (makeSimpleNodeFactory (Some (localName d)) None) (VObj l) objectStack
    None VUndefined s1 ∧
  (∀ ns' receiver v key t,
     context_frame objectStack ctx p ns' t →
     makeSimpleNodeFactory (Some (localName d)) None receiver v objectStack
       key t =
     (n <- createElementNS ns' (localName d) ;; ret (Some n)) t) ∧
  (∀ I : State → Prop,
     after_colon (localName d) = None →
     dom_accepts (namespaceURI d) (localName d) = true →
     I s1 →
     (∀ t, I t → context_frame objectStack ctx p (namespaceURI d) t ∧
                 heap t !! l = Some (Arr vs)) →
     (∀ v t t', I t → writeItem nodeWriter objectStack d v t = Ok tt t' →
                I t') →
     call s = forEach (writeItem nodeWriter objectStack d) vs s1) ∧
  children_view
    (state_of
       ((serializer <- makeArraySerializer
                         (makeChildAppender writeValue VUndefined)
                         VUndefined ;;
         serializer VUndefined 1 (VObj 2) 0) adapter_state)) 0 =
  [ (Some "urn:items", "item", [("value", VNum 1)]);
    (Some "urn:items", "item", [("value", VNum 2)]) ].
Proof.
  intros Hc Hd Hl Hvs. cbv zeta.
  pose proof (arraySerializer_first nodeWriter c this node (VObj l)
                objectStack s d Hc Hd) as Hfirst. cbv zeta in Hfirst.
  split; [exact Hfirst|]. split; [|split; [|vm_compute; reflexivity]].
  - intros ns' receiver v key t Hctx.
    by apply makeSimpleNodeFactory_inherits with ctx p.
  - intros I Hname _ Hs1 HI Hkeep. rewrite Hfirst.
    rewrite (serialize_entries_under _ _ _ _ l vs I); [|split| done].
    + rewrite entries_all_defined by done.
      apply (forEach_writeItem nodeWriter objectStack ctx p d I);
        [done|by intros t [? _]%HI|done..].
    + by intros t [_ ?]%HI.
    + intros key v t t' Ht.
      rewrite (writeEntry_cached nodeWriter objectStack ctx p d key v t Hname
                 (proj1 (HI _ Ht))).
      by apply Hkeep.
Qed.

Lemma writeItem_writeValue_keeps objectStack ctx p ns d v t t' :
  context_frame objectStack ctx p ns t →
  writeItem writeValue objectStack d v t = Ok tt t' →
  context_frame objectStack ctx p ns t' ∧ heap t' = heap t.
Proof.
  intros Hctx (n & t1 & Hn & Hw)%bind_Ok_inv.
  pose proof (context_frame_createElementNS _ _ _ _ (namespaceURI d)
                (localName d) _ Hctx) as Hctx1.
  rewrite Hn in Hctx1. cbn [state_of] in Hctx1.
  assert (n = fresh (dom (nodes t))) as Hfresh by by injection Hn.
  split.
  - destruct Hctx1 as (Hstk & Hrec & (dp & Hp & Hns)).
    assert (heap t' = heap t1) as Hheap by by eapply setAttribute_keeps.
    unfold context_frame. rewrite Hheap. split; [done|]. split; [done|].
    exists dp. split; [|done].
    unfold writeValue, setAttribute in Hw.
    apply bind_Ok_inv in Hw as (d0 & ? & [_ ->]%getNode_Ok & Hset).
    monad_inv Hset. cbn [nodes]. rewrite lookup_insert_ne; [done|].
    destruct Hctx as (_ & _ & (dp' & Hp' & _)). intros Heq.
    apply (is_fresh (dom (nodes t))). rewrite Heq.
    apply elem_of_dom. eauto.
  - transitivity (heap t1); [by eapply setAttribute_keeps|].
    by eapply createElementNS_keeps.
Qed.

Lemma array_serializer_first_call_witness :
  let s := with_cell 0 None adapter_state in
  let d := mkDomNode (Some "urn:items") "item" None [] [] in
  arraySerializer 0 writeValue VUndefined 1 (VObj 2) 0 s =
  forEach (writeItem writeValue 0 d) [VNum 1; VNum 2]
    (with_cell 0 (Some ("urn:items", "item")) s).
Proof.
  intros s d.
  assert (context_frame 0 3 0 (Some "urn:items") s) as Hctx.
  { split; [by exists []|]. split; by eexists. }
  apply (proj1 (proj2 (proj2
           (array_serializer_first_call writeValue 0 VUndefined 1
              2 0 3 0 s d [VNum 1; VNum 2] eq_refl eq_refl eq_refl
              ltac:(by repeat constructor))))
           (λ t, context_frame 0 3 0 (Some "urn:items") t ∧
                 heap t !! 2 = Some (Arr [VNum 1; VNum 2]))).
  - reflexivity.
  - reflexivity.
  - split; [exact Hctx|reflexivity].
  - by intros t.
  - intros v t t' [Ht Hvalues] Hrun.
    destruct (writeItem_writeValue_keeps _ _ _ _ _ _ _ _ Ht Hrun) as [? Hheap].
    split; [done|]. by rewrite Hheap.
Defined.

(** C10.  The serializer that [makeArraySerializer] returns builds its
    table and its node factory on its first invocation only, from the
    local name and the namespace of the trigger node of that
    invocation; every later invocation runs [serialize] with that table
    and that factory, whatever its trigger node is.  Called for the
    trigger [item] with [[1, 2]] and then for the trigger [other] of
    another namespace with [[3]], it writes three [item] elements. *)
Theorem makeArraySerializer_caches_first_trigger (nodeWriter : Serializer) :
  (∀ opt_this s,
     ∃ c, cells s !! c = None ∧
          makeArraySerializer nodeWriter opt_this s =
          Ok (arraySerializer c nodeWriter) (with_cell c None s)) ∧
  (∀ c this node value objectStack s d,
     cells s !! c = Some None →
     nodes s !! node = Some d →
     let built := (default "null" (namespaceURI d), localName d) in
     arraySerializer c nodeWriter this node value objectStack s =
     serialize {[ built.1 := {[ built.2 := nodeWriter ]} ]}
       (makeSimpleNodeFactory (Some built.2) None) value objectStack None
       VUndefined (with_cell c (Some built) s)) ∧
  (∀ c this node value objectStack s built,
     cells s !! c = Some (Some built) →
     arraySerializer c nodeWriter this node value objectStack s =
     serialize {[ built.1 := {[ built.2 := nodeWriter ]} ]}
       (makeSimpleNodeFactory (Some built.2) None) value objectStack None
       VUndefined s) ∧
  (∀ c this1 node1 value1 objectStack1 this2 node2 value2 objectStack2
     s d s1,
     writer_keeps_cells nodeWriter →
     cells s !! c = Some None →
     nodes s !! node1 = Some d →
     arraySerializer c nodeWriter this1 node1 value1 objectStack1 s
       = Ok tt s1 →
     let built := (default "null" (namespaceURI d), localName d) in
     cells s1 !! c = Some (Some built) ∧
     arraySerializer c nodeWriter this2 node2 value2 objectStack2 s1 =
     serialize {[ built.1 := {[ built.2 := nodeWriter ]} ]}
       (makeSimpleNodeFactory (Some built.2) None) value2 objectStack2 None
       VUndefined s1) ∧
  children_view
    (state_of
       ((serializer <- makeArraySerializer
                         (makeChildAppender writeValue VUndefined)
                         VUndefined ;;
         serializer VUndefined 1 (VObj 2) 0 ;;
         serializer VUndefined 5 (VObj 4) 0) adapter_state)) 0 =
  [ (Some "urn:items", "item", [("value", VNum 1)]);
    (Some "urn:items", "item", [("value", VNum 2)]);
    (Some "urn:items", "item", [("value", VNum 3)]) ].
Proof.
  split_and!.
  - intros opt_this s. exists (fresh (dom (cells s))).
    split; [apply not_elem_of_dom, is_fresh|done].
  - intros * Hc Hd. by apply arraySerializer_first.
  - intros * Hc. by apply arraySerializer_later.
  - intros * Hw Hc Hd Hrun. cbv zeta.
    rewrite (arraySerializer_first _ _ _ _ _ _ _ _ Hc Hd) in Hrun.
    cbv zeta in Hrun.
    apply (cached_serialize_keeps_cells _ _ _ _ Hw) in Hrun.
    assert (cells s1 !! c
            = Some (Some (default "null" (namespaceURI d), localName d)))
      as Hc1 by (rewrite Hrun; apply lookup_insert_eq).
    split; [exact Hc1|]. by apply arraySerializer_later.
  - vm_compute. reflexivity.
Qed.

Lemma makeChildAppender_writeValue_keeps_cells :
  writer_keeps_cells (makeChildAppender writeValue VUndefined).
Proof.
  intros this n v objectStack. apply makeChildAppender_keeps; [done|].
  intros receiver. by apply setAttribute_keeps.
Qed.

Lemma makeArraySerializer_caches_first_trigger_witness :
  let nodeWriter := makeChildAppender writeValue VUndefined in
  let s := with_cell 0 None adapter_state in
  let s1 := state_of (arraySerializer 0 nodeWriter VUndefined 1 (VObj 2) 0 s) in
  cells s1 !! 0 = Some (Some ("urn:items", "item")) ∧
  arraySerializer 0 nodeWriter VUndefined 5 (VObj 4) 0 s1 =
  serialize {[ "urn:items" := {[ "item" := nodeWriter ]} ]}
    (makeSimpleNodeFactory (Some "item") None) (VObj 4) 0 None VUndefined s1.
Proof.
  intros nodeWriter s s1.
  apply (proj1 (proj2 (proj2 (proj2
           (makeArraySerializer_caches_first_trigger nodeWriter))))
           0 VUndefined 1 (VObj 2) 0 VUndefined 5 (VObj 4) 0 s
           (mkDomNode (Some "urn:items") "item" None [] []) s1).
  - apply makeChildAppender_writeValue_keeps_cells.
  - reflexivity.
  - reflexivity.
  - vm_compute. reflexivity.
Defined.

(** * Round trips *)

(** The elements of a document, text left out. *)
Fixpoint skeleton (t : Node) : Node :=
  match t with
  | Element ns name kids =>
      Element ns name
        ((fix go (l : list Node) : list Node :=
            match l with
            | [] => []
            | c :: r => if isElement c then skeleton c :: go r else go r
            end) kids)
  | Text data => Text data
  end.

Lemma skeleton_Element ns name kids :
  skeleton (Element ns name kids) =
  Element ns name (skeleton <$> elementChildren (Element ns name kids)).
Proof.
  simpl. f_equal. induction kids as [|c kids IH]; [done|].
  rewrite filter_cons. destruct (isElement c) eqn:Hc.
  - rewrite decide_True by done. simpl. by rewrite IH.
  - rewrite decide_False by congruence. exact IH.
Qed.

(** The element of the output document at [n], read as a tree; [fuel]
    bounds the nesting. *)
Fixpoint dom_tree (fuel : nat) (ns : gmap nid DomNode) (n : nid)
  : option Node :=
  match fuel with
  | 0 => None
  | S f =>
      d ← ns !! n;
      kids ← mapM (dom_tree f ns) (childNodes d);
      Some (Element (namespaceURI d) (localName d) kids)
  end.

(** ** A codec for the structure of a document

    Every recognized element is read into a record of its namespace,
    its local name and the array of its recognized children, by a
    nested [pushParseAndPop]; it is written back by a node factory that
    creates the element the record names, and by a serializer that
    writes the children with a nested [pushSerializeAndPop] before
    appending the element to its parent.  The tables refer to
    themselves; they are unfolded [nesting] times. *)

Definition element_record (ns : option string) (name : string)
  (children : Val) : gmap string Val :=
  <[ "namespaceURI" := match ns with Some u => VStr u | None => VNull end ]>
    (<[ "localName" := VStr name ]> {[ "children" := children ]}).

Definition readElement (parsersNS : gmap string (gmap string Parser))
  : ValueReader :=
  λ this node objectStack,
    kids <- alloc (Arr []) ;;
    children <- pushParseAndPop (VObj kids) parsersNS node objectStack this ;;
    o <- alloc (Rec (element_record (Node_namespaceURI node)
                       (default "undefined" (Node_localName node))
                       children)) ;;
    ret (VObj o).

Definition elementFactory : NodeFactory :=
  λ this value objectStack key,
    ns <- get_property value "namespaceURI" ;;
    name <- get_property value "localName" ;;
    match name with
    | VStr name =>
        n <- createElementNS (match ns with VStr u => Some u | _ => None end)
               name ;;
        ret (Some n)
    | _ => ret None
    end.

Definition writeElement (serializersNS : gmap string (gmap string Serializer))
  : Serializer :=
  λ this node value objectStack,
    children <- get_property value "children" ;;
    context <- alloc (Rec {[ "node" := VNode node ]}) ;;
    pushSerializeAndPop (VObj context) serializersNS elementFactory children
      objectStack None this ;;
    ret tt.

Section Codec.
Variables uris names : gset string.

Fixpoint TREE_PARSERS (nesting : nat) : gmap string (gmap string Parser) :=
  match nesting with
  | 0 => ∅
  | S k =>
      gset_to_gmap
        (gset_to_gmap
           (makeArrayPusher (readElement (TREE_PARSERS k)) VUndefined) names)
        uris
  end.

Fixpoint TREE_SERIALIZERS (nesting : nat)
  : gmap string (gmap string Serializer) :=
  match nesting with
  | 0 => ∅
  | S k =>
      gset_to_gmap
        (gset_to_gmap
           (makeChildAppender (writeElement (TREE_SERIALIZERS k)) VUndefined)
           names)
        uris
  end.

(** Parse the children of [doc] into an array, create an element like
    [doc] and write the array under it. *)
Definition roundTrip (nesting : nat) (doc : Node) (objectStack : loc)
  : M nid :=
  kids <- alloc (Arr []) ;;
  values <- pushParseAndPop (VObj kids) (TREE_PARSERS nesting) doc
              objectStack VUndefined ;;
  root <- createElementNS (Node_namespaceURI doc)
            (default "undefined" (Node_localName doc)) ;;
  context <- alloc (Rec {[ "node" := VNode root ]}) ;;
  pushSerializeAndPop (VObj context) (TREE_SERIALIZERS nesting)
    elementFactory values objectStack None VUndefined ;;
  ret root.

(** The namespace and local name of an element are keys of the
    tables. *)
Definition recognized (t : Node) : Prop :=
  default "null" (Node_namespaceURI t) ∈ uris ∧
  default "undefined" (Node_localName t) ∈ names.

(** All the elements below [t] are recognized, and they nest at most
    [nesting] deep. *)
Fixpoint covered (nesting : nat) (t : Node) : Prop :=
  match nesting with
  | 0 => elementChildren t = []
  | S k => Forall (λ c, recognized c ∧ covered k c) (elementChildren t)
  end.

(** The value [v] stands for the element [t] in the heap [h], in
    objects that are not among [D]. *)
Fixpoint val_repr (D : gset loc) (k : nat) (h : gmap loc Obj) (t : Node)
  (v : Val) : Prop :=
  ∃ o a vs,
    v = VObj o ∧ (o ∉ D) ∧ (a ∉ D) ∧
    h !! o = Some (Rec (element_record (Node_namespaceURI t)
                          (default "undefined" (Node_localName t))
                          (VObj a))) ∧
    h !! a = Some (Arr vs) ∧
    match k with
    | 0 => elementChildren t = [] ∧ vs = []
    | S k' => Forall2 (val_repr D k' h) (elementChildren t) vs
    end.

Definition children_repr (D : gset loc) (k : nat) (h : gmap loc Obj)
  (t : Node) (vs : list Val) : Prop :=
  match k with
  | 0 => elementChildren t = [] ∧ vs = []
  | S k' => Forall2 (val_repr D k' h) (elementChildren t) vs
  end.

Lemma val_repr_preserved D D' k h h' t v :
  D' ⊆ D →
  (∀ l x, l ∉ D → h !! l = Some x → h' !! l = Some x) →
  val_repr D k h t v → val_repr D' k h' t v.
Proof.
  intros HD Hh. revert t v.
  induction k as [|k IH];
    intros t v (o & a & vs & -> & Ho & Ha & Hrec & Harr & Hkids);
    exists o, a, vs;
    (split; [done|]); (split; [by intros ?%HD|]); (split; [by intros ?%HD|]);
    (split; [by apply Hh|]); (split; [by apply Hh|]).
  - done.
  - eapply Forall2_impl; [exact Hkids|]. intros c w. apply IH.
Qed.

Lemma children_repr_preserved D D' k h h' t vs :
  D' ⊆ D →
  (∀ l x, l ∉ D → h !! l = Some x → h' !! l = Some x) →
  children_repr D k h t vs → children_repr D' k h' t vs.
Proof.
  intros HD Hh. destruct k as [|k]; [done|]. simpl. intros Hkids.
  eapply Forall2_impl; [exact Hkids|]. intros c w.
  by apply val_repr_preserved.
Qed.
End Codec.

Section CodecRead.
Variables uris names : gset string.

Let PARSERS := TREE_PARSERS uris names.

Lemma table_lookup {H} (h : H) ns name :
  ns ∈ uris → name ∈ names →
  (gset_to_gmap (gset_to_gmap h names) uris : gmap string (gmap string H))
    !! ns = Some (gset_to_gmap h names) ∧
  (gset_to_gmap h names : gmap string H) !! name = Some h.
Proof. intros Hns Hname. by split; apply lookup_gset_to_gmap_Some. Qed.

Lemma parseChild_recognized k objectStack this c :
  recognized uris names c →
  parseChild (PARSERS (S k)) objectStack this c =
  makeArrayPusher (readElement (PARSERS k)) VUndefined this c objectStack.
Proof.
  intros [Hns Hname]. unfold parseChild, PARSERS. cbn [TREE_PARSERS].
  destruct (table_lookup
              (makeArrayPusher (readElement (TREE_PARSERS uris names k))
                 VUndefined) _ _ Hns Hname) as [H1 H2].
  by rewrite (lookup_key_Some _ _ _ H1), (lookup_key_Some _ _ _ H2).
Qed.

(** What a nested [pushParseAndPop] does, given an empty array [a] to
    collect the children. *)
Definition parse_spec (k : nat) : Prop :=
  ∀ node this objectStack s es a,
    covered uris names k node →
    heap s !! objectStack = Some (Arr es) →
    heap s !! a = Some (Arr []) →
    a ≠ objectStack →
    ∃ s' vs,
      pushParseAndPop (VObj a) (PARSERS k) node objectStack this s
        = Ok (VObj a) s' ∧
      heap s' !! objectStack = Some (Arr es) ∧
      heap s' !! a = Some (Arr vs) ∧
      children_repr (dom (heap s)) k (heap s') node vs ∧
      (∀ l x, l ≠ a → heap s !! l = Some x → heap s' !! l = Some x) ∧
      nodes s' = nodes s ∧ cells s' = cells s.

(** What the value reader of an element does. *)
Definition read_spec (k : nat) : Prop :=
  ∀ node this objectStack s es,
    covered uris names k node →
    heap s !! objectStack = Some (Arr es) →
    ∃ o s',
      readElement (PARSERS k) this node objectStack s = Ok (VObj o) s' ∧
      (∀ l x, heap s !! l = Some x → heap s' !! l = Some x) ∧
      nodes s' = nodes s ∧ cells s' = cells s ∧
      val_repr (dom (heap s)) k (heap s') node (VObj o).

Lemma read_of_parse k : parse_spec k → read_spec k.
Proof.
  intros Hparse node this objectStack s es Hcov Hstk.
  set (a := fresh (dom (heap s))).
  set (s1 := mkState (<[a := Arr []]> (heap s)) (nodes s) (cells s)).
  assert (heap s !! a = None) as Hfresh by apply not_elem_of_dom, is_fresh.
  assert (a ≠ objectStack) as Has by (intros ->; congruence).
  destruct (Hparse node this objectStack s1 es a Hcov) as
    (s2 & vs & Hrun & Hstk2 & Ha2 & Hkids & Hext & Hnodes & Hcells);
    [by simpl; rewrite lookup_insert_ne|by simpl; rewrite lookup_insert_eq
    |done|].
  set (o := fresh (dom (heap s2))).
  assert (heap s2 !! o = None) as Hfresh2 by apply not_elem_of_dom, is_fresh.
  assert (∀ l x, heap s !! l = Some x → heap s2 !! l = Some x) as Hext2.
  { intros l x Hl. apply Hext; [intros ->; congruence|].
    simpl. rewrite lookup_insert_ne; [done|]. intros <-. congruence. }
  exists o, (mkState (<[o := Rec (element_record (Node_namespaceURI node)
                                    (default "undefined" (Node_localName node))
                                    (VObj a))]> (heap s2))
               (nodes s2) (cells s2)).
  split.
  { unfold readElement. erewrite bind_Ok; [|reflexivity]. fold a s1.
    by rewrite (bind_Ok _ _ _ _ _ Hrun). }
  assert (∀ l x, heap s2 !! l = Some x →
                 <[o := Rec (element_record (Node_namespaceURI node)
                               (default "undefined" (Node_localName node))
                               (VObj a))]> (heap s2) !! l = Some x) as Hext3.
  { intros l x Hl. rewrite lookup_insert_ne; [done|]. intros <-. congruence. }
  split; [intros l x Hl; by apply Hext3, Hext2|].
  split; [done|]. split; [done|].
  assert (dom (heap s) ⊆ dom (heap s1)) as Hdom.
  { simpl. rewrite dom_insert_L. set_solver. }
  assert (children_repr (dom (heap s)) k
            (<[o := Rec (element_record (Node_namespaceURI node)
                           (default "undefined" (Node_localName node))
                           (VObj a))]> (heap s2)) node vs) as Hkids'.
  { eapply children_repr_preserved; [exact Hdom| |exact Hkids].
    intros l x _. apply Hext3. }
  assert (o ∉ dom (heap s)) as Ho.
  { intros [x Hx]%elem_of_dom. apply Hext2 in Hx. congruence. }
  destruct k as [|k']; exists o, a, vs;
    (split; [done|]); (split; [done|]);
    (split; [by apply not_elem_of_dom|]);
    (split; [by simpl; rewrite lookup_insert_eq|]);
    (split; [by simpl; apply Hext3|]); exact Hkids'.
Qed.

Lemma elementChildren_elements t :
  Forall (λ c, isElement c = true) (elementChildren t).
Proof.
  destruct t as [ns name kids|]; [|constructor]. simpl.
  apply Forall_forall. by intros c [? _]%list_elem_of_filter.
Qed.

(** The loop of [parseNode] over recognized children, the array [a]
    being at the top of the stack. *)
Lemma parse_children k cs this objectStack a es s vs0 :
  read_spec k →
  Forall (λ c, recognized uris names c ∧ covered uris names k c) cs →
  heap s !! objectStack = Some (Arr (es ++ [VObj a])) →
  heap s !! a = Some (Arr vs0) →
  a ≠ objectStack →
  ∃ s' vs,
    forEach (parseChild (PARSERS (S k)) objectStack this) cs s = Ok tt s' ∧
    heap s' !! objectStack = Some (Arr (es ++ [VObj a])) ∧
    heap s' !! a = Some (Arr (vs0 ++ vs)) ∧
    Forall2 (val_repr (dom (heap s)) k (heap s')) cs vs ∧
    (∀ l x, l ≠ a → heap s !! l = Some x → heap s' !! l = Some x) ∧
    nodes s' = nodes s ∧ cells s' = cells s.
Proof.
  intros Hread Hcs. revert s vs0.
  induction Hcs as [|c cs [Hrec Hcov] _ IH]; intros s vs0 Hstk Ha Has.
  { exists s, []. rewrite app_nil_r. by repeat split. }
  destruct (Hread c this objectStack s _ Hcov Hstk)
    as (o & s1 & Hrun & Hext & Hnodes & Hcells & Hrepr).
  set (s2 := mkState (<[a := Arr (vs0 ++ [VObj o])]> (heap s1))
               (nodes s1) (cells s1)).
  assert (parseChild (PARSERS (S k)) objectStack this c s = Ok tt s2) as Hc.
  { rewrite parseChild_recognized by done. unfold makeArrayPusher, receiver.
    cbn [defined]. rewrite (bind_Ok _ _ _ _ _ Hrun). cbn [defined].
    rewrite (bind_Ok _ _ _ _ _ (arr_top_snoc _ _ _ _ (Hext _ _ Hstk))).
    by apply val_push_arr, Hext. }
  destruct (IH s2 (vs0 ++ [VObj o]))
    as (s' & vs & Hrest & Hstk' & Ha' & Hreprs & Hext' & Hnodes' & Hcells');
    [by simpl; rewrite lookup_insert_ne; [apply Hext|]
    |by simpl; rewrite lookup_insert_eq|done|].
  assert (a ∈ dom (heap s)) as Hadom by (apply elem_of_dom; eauto).
  exists s', (VObj o :: vs). split_and!.
  - cbn [forEach]. by rewrite (bind_Ok _ _ _ _ _ Hc).
  - done.
  - by rewrite <- app_assoc in Ha'.
  - constructor.
    + eapply val_repr_preserved; [reflexivity| |exact Hrepr].
      intros l x Hl Hx. apply Hext'; [by intros ->|].
      simpl. rewrite lookup_insert_ne; [done|]. by intros <-.
    + eapply Forall2_impl; [exact Hreprs|]. intros c' w.
      apply val_repr_preserved; [|done]. simpl. rewrite dom_insert_L.
      intros l Hl%elem_of_dom. apply elem_of_union. right.
      destruct Hl as [x Hx]. apply elem_of_dom. eauto.
  - intros l x Hl Hx. apply Hext'; [done|]. simpl.
    rewrite lookup_insert_ne by done. by apply Hext.
  - by rewrite Hnodes'.
  - by rewrite Hcells'.
Qed.

Lemma parse_spec_all k : parse_spec k.
Proof.
  induction k as [|k IH]; intros node this objectStack s es a Hcov Hstk Ha Has.
  - set (s1 := mkState (<[objectStack := Arr (es ++ [VObj a])]> (heap s))
                 (nodes s) (cells s)).
    exists s, []. split_and!; try done.
    unfold pushParseAndPop, parseNode. simpl in Hcov. rewrite Hcov.
    erewrite bind_Ok; [|apply arr_push_Ok; eauto].
    erewrite bind_Ok; [|reflexivity]. unfold arr_pop.
    erewrite bind_Ok; [|apply getArray_Ok; split;
                         [apply lookup_insert_eq|reflexivity]].
    rewrite last_snoc, removelast_last. unfold bind, setObj, ret.
    cbn [heap nodes cells]. rewrite insert_insert_eq.
    destruct s as [h n c]. cbn [heap nodes cells] in *.
    by rewrite insert_id.
  - set (s1 := mkState (<[objectStack := Arr (es ++ [VObj a])]> (heap s))
                 (nodes s) (cells s)).
    destruct (parse_children k (elementChildren node) this objectStack a es
                s1 []) as (s2 & vs & Hrun & Hstk2 & Ha2 & Hreprs & Hext
                           & Hnodes & Hcells);
      [by apply read_of_parse|exact Hcov|by simpl; rewrite lookup_insert_eq
      |by simpl; rewrite lookup_insert_ne|done|].
    exists (mkState (<[objectStack := Arr es]> (heap s2)) (nodes s2)
              (cells s2)), vs.
    split_and!.
    + unfold pushParseAndPop, parseNode.
      erewrite bind_Ok; [|apply arr_push_Ok; eauto]. fold s1.
      fold PARSERS. rewrite (bind_Ok _ _ _ _ _ Hrun). unfold arr_pop.
      erewrite bind_Ok; [|by apply getArray_Ok].
      by rewrite last_snoc, removelast_last.
    + simpl. by rewrite lookup_insert_eq.
    + simpl. by rewrite lookup_insert_ne.
    + simpl. eapply Forall2_impl; [exact Hreprs|]. intros c w.
      apply val_repr_preserved.
      * simpl. rewrite dom_insert_L. intros l Hl. apply elem_of_union. by right.
      * intros l x Hl Hx. rewrite lookup_insert_ne; [done|]. intros <-.
        apply Hl. simpl. rewrite dom_insert_L. apply elem_of_union. left.
        by apply elem_of_singleton.
    + intros l x Hl Hx. simpl. destruct (decide (l = objectStack)) as [->|Hne].
      * rewrite lookup_insert_eq. congruence.
      * rewrite lookup_insert_ne by done. apply Hext; [done|].
        simpl. by rewrite lookup_insert_ne.
    + done.
    + done.
Qed.

Lemma read_spec_all k : read_spec k.
Proof. apply read_of_parse, parse_spec_all. Qed.
End CodecRead.

(** The node [n] stands for the element [t] in the output document
    [nd], in nodes that are not among [N]. *)
Fixpoint dom_repr (N : gset nid) (k : nat) (nd : gmap nid DomNode)
  (t : Node) (n : nid) : Prop :=
  ∃ d,
    isElement t = true ∧
    (n ∉ N) ∧ nd !! n = Some d ∧
    namespaceURI d = Node_namespaceURI t ∧
    localName d = default "undefined" (Node_localName t) ∧
    match k with
    | 0 => elementChildren t = [] ∧ childNodes d = []
    | S k' => Forall2 (dom_repr N k' nd) (elementChildren t) (childNodes d)
    end.

Definition children_dom_repr (N : gset nid) (k : nat)
  (nd : gmap nid DomNode) (t : Node) (ns : list nid) : Prop :=
  match k with
  | 0 => elementChildren t = [] ∧ ns = []
  | S k' => Forall2 (dom_repr N k' nd) (elementChildren t) ns
  end.

Lemma dom_repr_preserved N N' k nd nd' t n :
  N' ⊆ N →
  (∀ q d, q ∉ N → nd !! q = Some d → nd' !! q = Some d) →
  dom_repr N k nd t n → dom_repr N' k nd' t n.
Proof.
  intros HN Hnd. revert t n.
  induction k as [|k IH];
    intros t n (d & Ht & Hn & Hd & Hns & Hname & Hkids); exists d;
    (split; [done|]); (split; [by intros ?%HN|]); (split; [by apply Hnd|]);
    (split; [done|]); (split; [done|]).
  - done.
  - eapply Forall2_impl; [exact Hkids|]. intros c w. apply IH.
Qed.

Lemma children_dom_repr_preserved N N' k nd nd' t ns :
  N' ⊆ N →
  (∀ q d, q ∉ N → nd !! q = Some d → nd' !! q = Some d) →
  children_dom_repr N k nd t ns → children_dom_repr N' k nd' t ns.
Proof.
  intros HN Hnd. destruct k as [|k]; [done|]. simpl. intros Hkids.
  eapply Forall2_impl; [exact Hkids|]. intros c w.
  by apply dom_repr_preserved.
Qed.

(** Reading the tree back. *)
Lemma dom_repr_tree N k nd t n :
  dom_repr N k nd t n → dom_tree (S k) nd n = Some (skeleton t).
Proof.
  revert t n. induction k as [|k IH];
    intros [ns name kids|] n (d & Ht & _ & Hd & Hns & Hname & Hkids);
    try done; rewrite skeleton_Element; simpl in Hns, Hname;
    change (dom_tree (S ?f) nd n)
      with (d ← nd !! n;
            kids ← mapM (dom_tree f nd) (childNodes d);
            Some (Element (namespaceURI d) (localName d) kids));
    rewrite Hd; cbn [mbind option_bind].
  - destruct Hkids as [-> ->]. simpl. by rewrite Hns, Hname.
  - assert (mapM (dom_tree (S k) nd) (childNodes d)
            = Some (skeleton <$> elementChildren (Element ns name kids)))
      as ->; [|simpl; by rewrite Hns, Hname].
    apply mapM_Some_2. apply Forall2_flip, Forall2_fmap_l.
    eapply Forall2_impl; [exact Hkids|]. intros c w Hcw. by apply IH.
Qed.

Definition add_children (ns : list nid) (d : DomNode) : DomNode :=
  mkDomNode (namespaceURI d) (localName d) (parentNode d)
    (childNodes d ++ ns) (attributes d).

Lemma add_children_nil d : add_children [] d = d.
Proof. destruct d. unfold add_children. simpl. by rewrite app_nil_r. Qed.

Lemma add_children_cons n ns d :
  add_children ns (add_child n d) = add_children (n :: ns) d.
Proof. unfold add_children, add_child. simpl. by rewrite <- app_assoc. Qed.

Lemma appendChild_detached p n dp dn s :
  n ≠ p →
  nodes s !! p = Some dp → parentNode dp = None →
  nodes s !! n = Some dn → parentNode dn = None →
  ∃ s',
    appendChild p n s = Ok tt s' ∧
    heap s' = heap s ∧ cells s' = cells s ∧
    nodes s' !! p = Some (add_child n dp) ∧
    nodes s' !! n = Some (set_parent p dn) ∧
    ∀ q, q ≠ p → q ≠ n → nodes s' !! q = nodes s !! q.
Proof.
  intros Hnp Hp Hpp Hn Hnn.
  assert (inclusive_ancestor (size (nodes s)) (nodes s) n p = false) as Hanc.
  { destruct (size (nodes s)); simpl; rewrite bool_decide_eq_false_2 by done;
      [done|]. by rewrite Hp; simpl; rewrite Hpp. }
  eexists. split.
  { unfold appendChild.
    erewrite bind_Ok; [|by apply getNode_Ok].
    erewrite bind_Ok; [|by apply getNode_Ok].
    rewrite Hanc, Hnn. reflexivity. }
  cbn [heap nodes cells]. split; [done|]. split; [done|]. split_and!.
  - rewrite lookup_alter_ne, lookup_alter_eq by done. by rewrite Hp.
  - rewrite lookup_alter_eq, lookup_alter_ne by done. by rewrite Hn.
  - intros q Hq1 Hq2. by rewrite !lookup_alter_ne.
Qed.

(** The top of the object stack is a context frame for the node [p]. *)
Definition writing (objectStack ctx : loc) (p : nid) (s : State) : Prop :=
  (∃ es, heap s !! objectStack = Some (Arr (es ++ [VObj ctx]))) ∧
  (∃ m, heap s !! ctx = Some (Rec m) ∧ m !! "node" = Some (VNode p)).

Section CodecWrite.
Variables uris names : gset string.
Hypothesis names_plain : ∀ name, name ∈ names → after_colon name = None.

Let SERIALIZERS := TREE_SERIALIZERS uris names.

(** What [serialize] does with one value that stands for an element,
    under the node [p]. *)
Definition entry_spec (k : nat) : Prop :=
  ∀ t v D objectStack this key s ctx p dp,
    isElement t = true → recognized uris names t → covered uris names k t →
    val_repr D k (heap s) t v →
    objectStack ∈ D →
    writing objectStack ctx p s →
    nodes s !! p = Some dp → parentNode dp = None →
    ∃ s' n,
      writeEntry (SERIALIZERS (S k)) elementFactory objectStack this key v s
        = Ok tt s' ∧
      (∀ l x, heap s !! l = Some x → heap s' !! l = Some x) ∧
      cells s' = cells s ∧
      (n ∉ dom (nodes s)) ∧
      nodes s' !! p = Some (add_child n dp) ∧
      dom_repr (dom (nodes s)) k (nodes s') t n ∧
      (∀ q dq, q ≠ p → nodes s !! q = Some dq → nodes s' !! q = Some dq).

(** What [serialize] does with the array of the children of [t], under
    the node [p]. *)
Definition serialize_spec (k : nat) : Prop :=
  ∀ t a vs D objectStack this s ctx p dp,
    covered uris names k t →
    children_repr D k (heap s) t vs →
    objectStack ∈ D →
    heap s !! a = Some (Arr vs) →
    writing objectStack ctx p s →
    nodes s !! p = Some dp → parentNode dp = None →
    ∃ s' ns,
      serialize (SERIALIZERS k) elementFactory (VObj a) objectStack None
        this s = Ok tt s' ∧
      (∀ l x, heap s !! l = Some x → heap s' !! l = Some x) ∧
      cells s' = cells s ∧
      nodes s' !! p = Some (add_children ns dp) ∧
      children_dom_repr (dom (nodes s)) k (nodes s') t ns ∧
      (∀ q dq, q ≠ p → nodes s !! q = Some dq → nodes s' !! q = Some dq).

Lemma serialize_spec_0 : serialize_spec 0.
Proof.
  intros t a vs D objectStack this s ctx p dp Hcov [Ht ->] HD Ha Hw Hp Hpp.
  exists s, []. split_and!; try done.
  - unfold serialize.
    erewrite bind_Ok;
      [|simpl; erewrite bind_Ok; [|by apply getArray_Ok]; reflexivity].
    done.
  - by rewrite add_children_nil.
Qed.

Lemma write_children k cs vs vs_done a D objectStack this s ctx p dp :
  entry_spec k →
  Forall (λ c, isElement c = true ∧ recognized uris names c ∧
               covered uris names k c) cs →
  Forall2 (val_repr D k (heap s)) cs vs →
  objectStack ∈ D →
  heap s !! a = Some (Arr (vs_done ++ vs)) →
  writing objectStack ctx p s →
  nodes s !! p = Some dp → parentNode dp = None →
  ∃ s' ns,
    forEach (serializeValue (SERIALIZERS (S k)) elementFactory (VObj a)
               objectStack None this) (seq (length vs_done) (length vs)) s
      = Ok tt s' ∧
    (∀ l x, heap s !! l = Some x → heap s' !! l = Some x) ∧
    cells s' = cells s ∧
    nodes s' !! p = Some (add_children ns dp) ∧
    Forall2 (dom_repr (dom (nodes s)) k (nodes s')) cs ns ∧
    (∀ q dq, q ≠ p → nodes s !! q = Some dq → nodes s' !! q = Some dq).
Proof.
  intros Hentry. revert vs vs_done s dp.
  induction cs as [|c cs IH]; intros vs vs_done s dp Hcs Hrepr HD Ha Hw Hp Hpp.
  { apply Forall2_nil_inv_l in Hrepr as ->.
    exists s, []. split_and!; try done. by rewrite add_children_nil. }
  apply Forall2_cons_inv_l in Hrepr as (v & vs' & Hv & Hrepr & ->).
  apply Forall_cons in Hcs as [(Hel & Hrec & Hcov) Hcs].
  destruct (Hentry c v D objectStack this None s ctx p dp Hel Hrec Hcov Hv HD
              Hw Hp Hpp)
    as (s1 & n & Hrun & Hext & Hcells & Hn & Hp1 & Hdom & Hother).
  assert (defined v = true) as Hdef.
  { destruct k; destruct Hv as (o & ? & ? & -> & _); done. }
  assert (serializeValue (SERIALIZERS (S k)) elementFactory (VObj a)
            objectStack None this (length vs_done) s = Ok tt s1) as Hstep.
  { unfold serializeValue.
    erewrite bind_Ok; [|by apply val_index_arr].
    rewrite lookup_app_r, Nat.sub_diag by lia. simpl. by rewrite Hdef. }
  destruct (IH vs' (vs_done ++ [v]) s1 (add_child n dp))
    as (s' & ns & Hrest & Hext' & Hcells' & Hp' & Hdoms & Hother');
    [done| |done|by rewrite <- app_assoc; apply Hext| |done|done|].
  { eapply Forall2_impl; [exact Hrepr|]. intros c' w.
    apply val_repr_preserved; [done|]. intros l x _. apply Hext. }
  { destruct Hw as ((es & Hstk) & (m & Hctx & Hnode)).
    split; [exists es|exists m]; eauto. }
  assert (p ∈ dom (nodes s)) as Hpdom by (apply elem_of_dom; eauto).
  exists s', (n :: ns). split_and!.
  - cbn [length seq forEach]. rewrite (bind_Ok _ _ _ _ _ Hstep).
    rewrite length_app in Hrest. simpl in Hrest.
    by rewrite Nat.add_1_r in Hrest.
  - intros l x Hl. by apply Hext', Hext.
  - congruence.
  - by rewrite Hp', add_children_cons.
  - constructor.
    + eapply dom_repr_preserved; [reflexivity| |exact Hdom].
      intros q d Hq Hd. apply Hother'; [|done]. by intros ->.
    + eapply Forall2_impl; [exact Hdoms|]. intros c' w.
      apply dom_repr_preserved; [|done].
      intros q [dq Hq]%elem_of_dom. apply elem_of_dom.
      destruct (decide (q = p)) as [->|Hqp]; [eauto|].
      exists dq. by apply Hother.
  - intros q dq Hq Hdq. by apply Hother', Hother.
Qed.

Lemma serialize_of_entry k : entry_spec k → serialize_spec (S k).
Proof.
  intros Hentry t a vs D objectStack this s ctx p dp Hcov Hrepr HD Ha Hw Hp
    Hpp.
  destruct (write_children k (elementChildren t) vs [] a D objectStack this s
              ctx p dp Hentry) as (s' & ns & Hrun & Hrest); try done.
  { simpl in Hcov. pose proof (elementChildren_elements t) as Hel.
    rewrite Forall_forall in Hcov, Hel. apply Forall_forall.
    intros c Hc. destruct (Hcov c Hc). split; [by apply Hel|done]. }
  exists s', ns. split; [|exact Hrest].
  unfold serialize.
  erewrite bind_Ok;
    [|simpl; erewrite bind_Ok; [|by apply getArray_Ok]; reflexivity].
  exact Hrun.
Qed.

Lemma element_record_lookup ns name children :
  read_property (element_record ns name children) "namespaceURI"
    = match ns with Some u => VStr u | None => VNull end ∧
  read_property (element_record ns name children) "localName" = VStr name ∧
  read_property (element_record ns name children) "children" = children.
Proof.
  unfold read_property, element_record. by split_and!; simplify_map_eq.
Qed.

Lemma entry_of_serialize k : serialize_spec k → entry_spec k.
Proof.
  intros Hser t v D objectStack this key s ctx p dp Hel [Huri Hname] Hcov
    Hv HD Hw Hp Hpp.
  assert (∃ o a vs,
            v = VObj o ∧ (a ∉ D) ∧
            heap s !! o
              = Some (Rec (element_record (Node_namespaceURI t)
                             (default "undefined" (Node_localName t))
                             (VObj a))) ∧
            heap s !! a = Some (Arr vs) ∧
            children_repr D k (heap s) t vs)
    as (o & a & vs & -> & HaD & Ho & Ha & Hkids).
  { destruct k; destruct Hv as (o & a & vs & -> & _ & ? & ? & ? & ?);
      by exists o, a, vs. }
  destruct Hw as ((es & Hstk) & (m & Hctx & Hnode)).
  destruct (element_record_lookup (Node_namespaceURI t)
              (default "undefined" (Node_localName t)) (VObj a))
    as (Lns & Lname & Lkids).
  set (name := default "undefined" (Node_localName t)) in *.
  (* the node factory *)
  set (n := fresh (dom (nodes s))).
  set (d0 := mkDomNode (Node_namespaceURI t) name None [] []).
  set (s1 := mkState (heap s) (<[n := d0]> (nodes s)) (cells s)).
  assert (nodes s !! n = None) as Hn by apply not_elem_of_dom, is_fresh.
  assert (n ≠ p) as Hnp by (intros ->; congruence).
  assert (elementFactory this (VObj o) objectStack key s = Ok (Some n) s1)
    as Hfactory.
  { unfold elementFactory.
    rewrite (bind_Ok _ _ _ _ _ (get_property_rec _ _ _ _ Ho)), Lns.
    rewrite (bind_Ok _ _ _ _ _ (get_property_rec _ _ _ _ Ho)), Lname.
    cbn [default from_option id]. unfold bind, createElementNS, ret.
    fold n. rewrite (local_part_plain _ (names_plain _ Hname)).
    by destruct (Node_namespaceURI t). }
  (* the children, under the new node *)
  set (c' := fresh (dom (heap s))).
  assert (heap s !! c' = None) as Hc' by apply not_elem_of_dom, is_fresh.
  set (h2 := <[c' := Rec {[ "node" := VNode n ]}]> (heap s)).
  set (h3 := <[objectStack := Arr ((es ++ [VObj ctx]) ++ [VObj c'])]> h2).
  set (s3 := mkState h3 (nodes s1) (cells s)).
  assert (c' ≠ objectStack) as Hc's by (intros ->; congruence).
  assert (∀ l x, l ∉ D → heap s !! l = Some x → h3 !! l = Some x) as Hext3.
  { intros l x Hl Hx. unfold h3, h2.
    rewrite !lookup_insert_ne; [done|by intros <-; congruence|by intros <-]. }
  destruct (Hser t a vs D objectStack this s3 c' n d0 Hcov)
    as (s4 & ns & Hrun & Hext4 & Hcells4 & Hn4 & Hdoms & Hother4).
  { eapply children_repr_preserved; [reflexivity|exact Hext3|exact Hkids]. }
  { done. }
  { by apply Hext3. }
  { split.
    - exists (es ++ [VObj ctx]). unfold s3, h3. cbn [heap].
      by rewrite lookup_insert_eq.
    - exists {[ "node" := VNode n ]}. split; [|done].
      unfold s3, h3, h2. cbn [heap].
      by rewrite lookup_insert_ne, lookup_insert_eq. }
  { unfold s3, s1. cbn [nodes]. by rewrite lookup_insert_eq. }
  { done. }
  set (s5 := mkState (<[objectStack := Arr (es ++ [VObj ctx])]> (heap s4))
               (nodes s4) (cells s4)).
  assert (writeElement (SERIALIZERS k) this n (VObj o) objectStack s1
          = Ok tt s5) as Hwrite.
  { unfold writeElement.
    rewrite (bind_Ok _ _ _ _ _ (get_property_rec _ _ _ s1 Ho)), Lkids.
    cbn [default from_option id].
    erewrite bind_Ok; [|reflexivity]. cbn [heap nodes cells]. fold c' h2.
    unfold pushSerializeAndPop.
    erewrite bind_Ok.
    2:{ erewrite bind_Ok.
        2:{ apply arr_push_Ok. exists (es ++ [VObj ctx]). split; [|reflexivity].
            simpl. unfold h2. by rewrite lookup_insert_ne. }
        cbn [heap nodes cells]. fold h3 s3.
        rewrite (bind_Ok _ _ _ _ _ Hrun). unfold arr_pop.
        erewrite bind_Ok;
          [|apply getArray_Ok; split;
            [apply Hext4; simpl; apply lookup_insert_eq|reflexivity]].
        rewrite last_snoc, removelast_last. reflexivity. }
    done. }
  (* the new node becomes a child of [p] *)
  assert (nodes s5 !! p = Some dp) as Hp5.
  { simpl. apply Hother4; [done|]. simpl. by rewrite lookup_insert_ne. }
  destruct (appendChild_detached p n dp (add_children ns d0) s5)
    as (s' & Happend & Hheap' & Hcells' & Hp' & Hn' & Hother'); try done.
  assert (∀ l x, heap s !! l = Some x → heap s5 !! l = Some x) as Hext5.
  { intros l x Hx. simpl. destruct (decide (l = objectStack)) as [->|Hl].
    - rewrite lookup_insert_eq. congruence.
    - rewrite lookup_insert_ne by done. apply Hext4. simpl. unfold h3, h2.
      rewrite !lookup_insert_ne; [done|by intros <-; congruence|done]. }
  assert (makeChildAppender (writeElement (SERIALIZERS k)) VUndefined this n
            (VObj o) objectStack s1 = Ok tt s') as Happender.
  { unfold makeChildAppender, receiver. cbn [defined].
    rewrite (bind_Ok _ _ _ _ _ Hwrite).
    erewrite bind_Ok;
      [|apply (arr_top_snoc _ es (VObj ctx)); unfold s5; cbn [heap];
        apply lookup_insert_eq].
    erewrite bind_Ok; [|by apply get_property_rec, Hext5].
    rewrite (read_property_Some _ _ _ Hnode). exact Happend. }
  exists s', n. split_and!.
  - unfold writeEntry. rewrite (bind_Ok _ _ _ _ _ Hfactory).
    erewrite bind_Ok;
      [|apply getNode_Ok; split; [apply lookup_insert_eq|reflexivity]].
    cbn [namespaceURI localName d0]. unfold SERIALIZERS.
    cbn [TREE_SERIALIZERS].
    destruct (table_lookup uris names
                (makeChildAppender
                   (writeElement (TREE_SERIALIZERS uris names k)) VUndefined)
                _ _ Huri Hname) as [H1 H2].
    unfold callSerializer.
    rewrite (lookup_key_Some _ _ _ H1), (lookup_key_Some _ _ _ H2).
    exact Happender.
  - intros l x Hx. rewrite Hheap'. by apply Hext5.
  - rewrite Hcells'. simpl. by rewrite Hcells4.
  - by apply not_elem_of_dom.
  - done.
  - assert (children_dom_repr (dom (nodes s)) k (nodes s') t ns) as Hkids'.
    { eapply children_dom_repr_preserved; [| |exact Hdoms].
      - simpl. rewrite dom_insert_L. intros q Hq. apply elem_of_union. by right.
      - intros q dq Hq Hdq. rewrite Hother'; [done| |].
        + intros ->. apply Hq. simpl. rewrite dom_insert_L.
          apply elem_of_union. right. apply elem_of_dom. eauto.
        + intros ->. apply Hq. simpl. rewrite dom_insert_L.
          apply elem_of_union. left. by apply elem_of_singleton. }
    destruct k; exists (set_parent p (add_children ns d0));
      (split; [done|]); (split; [by apply not_elem_of_dom|]);
      (split; [done|]); (split; [done|]); (split; [done|]).
    + destruct Hkids' as [? ->]. done.
    + exact Hkids'.
  - intros q dq Hq Hdq.
    assert (q ≠ n) as Hqn by (intros ->; congruence).
    rewrite Hother' by done. simpl. apply Hother4; [done|].
    simpl. by rewrite lookup_insert_ne.
Qed.

Lemma serialize_spec_all k : serialize_spec k.
Proof.
  induction k as [|k IH]; [apply serialize_spec_0|].
  by apply serialize_of_entry, entry_of_serialize.
Qed.
End CodecWrite.

(** ** Documents of any depth *)

Lemma Node_nested_ind (P : Node → Prop) :
  (∀ data, P (Text data)) →
  (∀ ns name kids, Forall P kids → P (Element ns name kids)) →
  ∀ t, P t.
Proof.
  intros HT HE. fix IH 1. intros [ns name kids|data]; [|apply HT].
  apply HE. induction kids as [|c kids IHkids]; constructor;
    [apply IH|apply IHkids].
Qed.

(** How deep the elements below [t] nest. *)
Fixpoint height (t : Node) : nat :=
  match t with
  | Element _ _ kids =>
      (fix go (l : list Node) : nat :=
         match l with
         | [] => 0
         | c :: r => if isElement c then max (S (height c)) (go r) else go r
         end) kids
  | Text _ => 0
  end.

(** The namespace and local name of every element below [t], in
    document order. *)
Fixpoint pairs_below (t : Node) : list (option string * string) :=
  match t with
  | Element _ _ kids =>
      (fix go (l : list Node) : list (option string * string) :=
         match l with
         | [] => []
         | Element ns name ks as c :: r => (ns, name) :: pairs_below c ++ go r
         | Text _ :: r => go r
         end) kids
  | Text _ => []
  end.

Lemma pairs_below_skeleton t : pairs_below (skeleton t) = pairs_below t.
Proof.
  induction t as [|ns name kids IH] using Node_nested_ind; [done|].
  simpl. induction IH as [|c kids Hc _ IHkids]; [done|].
  destruct c as [cns cname ckids|]; [|exact IHkids].
  cbn [isElement]. rewrite <- IHkids, <- Hc. reflexivity.
Qed.

Section Covered.
Variables uris names : gset string.

(** Every element below [t] is recognized. *)
Fixpoint all_recognized (t : Node) : Prop :=
  match t with
  | Element _ _ kids =>
      (fix go (l : list Node) : Prop :=
         match l with
         | [] => True
         | c :: r =>
             (isElement c = true → recognized uris names c) ∧
             all_recognized c ∧ go r
         end) kids
  | Text _ => True
  end.

Lemma covered_mono k k' t :
  k ≤ k' → covered uris names k t → covered uris names k' t.
Proof.
  revert k' t. induction k as [|k IH]; intros k' t Hk Hcov.
  - simpl in Hcov. destruct k'; simpl; [done|]. by rewrite Hcov.
  - destruct k' as [|k']; [lia|]. simpl in *.
    eapply Forall_impl; [exact Hcov|]. intros c [? ?]. split; [done|].
    apply IH; [lia|done].
Qed.

Lemma covered_height t :
  all_recognized t → covered uris names (height t) t.
Proof.
  induction t as [|ns name kids IH] using Node_nested_ind; [done|].
  intros Hall.
  assert (Forall (λ c, recognized uris names c ∧
                       covered uris names (height c) c ∧
                       S (height c) ≤ height (Element ns name kids))
            (elementChildren (Element ns name kids))) as Hkids.
  { simpl in *. induction IH as [|c kids Hc _ IHkids]; [constructor|].
    destruct Hall as (Hrec & Hallc & Hall). rewrite filter_cons.
    destruct (isElement c) eqn:Hel.
    - rewrite decide_True by done. constructor.
      + split; [by apply Hrec|]. split; [by apply Hc|]. lia.
      + eapply Forall_impl; [apply IHkids, Hall|].
        intros c' (? & ? & ?). split; [done|]. split; [done|]. lia.
    - rewrite decide_False by congruence. by apply IHkids. }
  destruct (height (Element ns name kids)) as [|k] eqn:Hk.
  - change (elementChildren (Element ns name kids) = []).
    destruct (elementChildren _) as [|c cs]; [done|].
    apply Forall_cons in Hkids as [(_ & _ & ?) _]. lia.
  - change (Forall (λ c, recognized uris names c ∧ covered uris names k c)
              (elementChildren (Element ns name kids))).
    eapply Forall_impl; [exact Hkids|].
    intros c (? & ? & ?). split; [done|].
    eapply covered_mono; [|done]. lia.
Qed.
End Covered.

Lemma round_trip_covered (uris names : gset string) k doc objectStack s es :
  (∀ name, name ∈ names → after_colon name = None) →
  isElement doc = true →
  after_colon (default "undefined" (Node_localName doc)) = None →
  covered uris names k doc →
  heap s !! objectStack = Some (Arr es) →
  ∃ root s',
    roundTrip uris names k doc objectStack s = Ok root s' ∧
    nodes s !! root = None ∧
    dom_tree (S k) (nodes s') root = Some (skeleton doc) ∧
    heap s' !! objectStack = Some (Arr es).
Proof.
  intros Hplain Hel Hname Hcov Hstk.
  (* reading *)
  set (a := fresh (dom (heap s))).
  set (s1 := mkState (<[a := Arr []]> (heap s)) (nodes s) (cells s)).
  assert (heap s !! a = None) as Ha by apply not_elem_of_dom, is_fresh.
  assert (a ≠ objectStack) as Has by (intros ->; congruence).
  destruct (parse_spec_all uris names k doc VUndefined objectStack s1 es a
              Hcov)
    as (s2 & vs & Hparse & Hstk2 & Ha2 & Hkids & _ & Hnodes2 & Hcells2);
    [by simpl; rewrite lookup_insert_ne|by simpl; rewrite lookup_insert_eq
    |done|].
  (* the root of the output *)
  set (root := fresh (dom (nodes s2))).
  set (d0 := mkDomNode (Node_namespaceURI doc)
               (default "undefined" (Node_localName doc)) None [] []).
  set (s3 := mkState (heap s2) (<[root := d0]> (nodes s2)) (cells s2)).
  assert (nodes s2 !! root = None) as Hroot by apply not_elem_of_dom, is_fresh.
  set (c := fresh (dom (heap s2))).
  assert (heap s2 !! c = None) as Hc by apply not_elem_of_dom, is_fresh.
  assert (c ≠ objectStack) as Hcs by (intros ->; congruence).
  assert (c ≠ a) as Hca by (intros ->; congruence).
  set (h5 := <[objectStack := Arr (es ++ [VObj c])]>
               (<[c := Rec {[ "node" := VNode root ]}]> (heap s2))).
  set (s5 := mkState h5 (nodes s3) (cells s2)).
  assert (objectStack ∈ dom (heap s1)) as HD.
  { apply elem_of_dom. simpl. rewrite lookup_insert_ne by done. eauto. }
  (* writing *)
  destruct (serialize_spec_all uris names Hplain k doc a vs (dom (heap s1))
              objectStack VUndefined s5 c root d0 Hcov)
    as (s6 & ns & Hwrite & Hext6 & _ & Hroot6 & Hdoms & _).
  { eapply children_repr_preserved; [reflexivity| |exact Hkids].
    intros l x Hl Hx. unfold s5, h5. cbn [heap].
    rewrite !lookup_insert_ne; [done|by intros <-; congruence|by intros <-]. }
  { done. }
  { unfold s5, h5. cbn [heap]. by rewrite !lookup_insert_ne. }
  { split.
    - exists es. unfold s5, h5. cbn [heap]. by rewrite lookup_insert_eq.
    - exists {[ "node" := VNode root ]}. split; [|done].
      unfold s5, h5. cbn [heap].
      by rewrite lookup_insert_ne, lookup_insert_eq. }
  { unfold s5, s3. cbn [nodes]. by rewrite lookup_insert_eq. }
  { done. }
  set (s7 := mkState (<[objectStack := Arr es]> (heap s6)) (nodes s6)
               (cells s6)).
  exists root, s7. split_and!.
  - unfold roundTrip. erewrite bind_Ok; [|reflexivity]. fold a s1.
    rewrite (bind_Ok _ _ _ _ _ Hparse).
    erewrite bind_Ok; [|reflexivity]. fold root.
    rewrite (local_part_plain _ Hname). fold d0 s3.
    erewrite bind_Ok; [|reflexivity]. cbn [heap nodes cells]. fold c.
    erewrite bind_Ok; [reflexivity|]. unfold pushSerializeAndPop.
    erewrite bind_Ok;
      [|apply arr_push_Ok; exists es; split; [|reflexivity]; simpl;
        by rewrite lookup_insert_ne].
    cbn [heap nodes cells]. fold h5 s5.
    rewrite (bind_Ok _ _ _ _ _ Hwrite). unfold arr_pop.
    erewrite bind_Ok;
      [|apply getArray_Ok; split;
        [apply Hext6; unfold s5, h5; cbn [heap]; apply lookup_insert_eq
        |reflexivity]].
    by rewrite last_snoc, removelast_last.
  - rewrite Hnodes2 in Hroot. exact Hroot.
  - apply (dom_repr_tree ∅). cbn [nodes].
    assert (children_dom_repr ∅ k (nodes s6) doc ns) as Hdoms'.
    { eapply children_dom_repr_preserved; [| |exact Hdoms]; [|done].
      apply empty_subseteq. }
    destruct k; exists (add_children ns d0);
      (split; [done|]); (split; [apply not_elem_of_empty|]);
      (split; [done|]); (split; [done|]); (split; [done|]).
    + by destruct Hdoms' as [? ->].
    + exact Hdoms'.
  - simpl. by rewrite lookup_insert_eq.
Qed.

(** ** A codec that does not round-trip

    Each recognized child is read into a property of a record by
    [makeObjectPropertySetter]; the record is written back through
    [makeSequence], the factory that names nodes after the keys, and
    serializers for the same names. *)
Definition FLAT_PARSERS : gmap string (gmap string Parser) :=
  default ∅
    (makeStructureNS ["urn:items"]
       (<[ "a" := makeObjectPropertySetter (pureReader readText) None
                    VUndefined ]>
          (<[ "b" := makeObjectPropertySetter (pureReader readText) None
                       VUndefined ]>
             {[ "c" := makeObjectPropertySetter (pureReader readText) None
                         VUndefined ]}))
       None).

Definition flatRoundTrip (doc : Node) (objectStack : loc) : M nid :=
  record <- alloc (Rec ∅) ;;
  parsed <- pushParseAndPop (VObj record) FLAT_PARSERS doc objectStack
              VUndefined ;;
  values <- makeSequence parsed ["a"; "b"; "c"] ;;
  root <- createElementNS (Node_namespaceURI doc)
            (default "undefined" (Node_localName doc)) ;;
  context <- alloc (Rec {[ "node" := VNode root ]}) ;;
  pushSerializeAndPop (VObj context) KEYED_SERIALIZERS
    OBJECT_PROPERTY_NODE_FACTORY values objectStack (Some ["a"; "b"; "c"])
    VUndefined ;;
  ret root.

Definition flat_doc : Node :=
  Element (Some "urn:items") "items"
    [ Element (Some "urn:items") "a" [Text "x"];
      Element (Some "urn:items") "a" [Text "y"];
      Element (Some "urn:items") "b" [Text "z"] ].

(** The object stack is empty. *)
Definition stack_state : State := mkState {[ 0 := Arr [] ]} ∅ ∅.

(** The tree under the node that a call returned. *)
Definition output_tree (fuel : nat) (r : Res nid) : option Node :=
  match r with
  | Ok root s => dom_tree fuel (nodes s) root
  | Throw _ _ => None
  end.




(** * Stores that differ in one object *)

(** The store in which the address [l] holds [o]. *)
Definition with_object (l : loc) (o : Obj) (s : State) : State :=
  mkState (<[l := o]> (heap s)) (nodes s) (cells s).

Lemma with_object_id l o s :
  heap s !! l = Some o → with_object l o s = s.
Proof.
  intros H. destruct s as [h n c]. unfold with_object. simpl in *.
  by rewrite insert_id.
Qed.

Lemma with_object_twice l o o' s :
  with_object l o' (with_object l o s) = with_object l o' s.
Proof. unfold with_object. simpl. by rewrite insert_insert_eq. Qed.

Lemma with_object_commute l l' o o' s :
  l ≠ l' →
  with_object l o (with_object l' o' s) =
  with_object l' o' (with_object l o s).
Proof. intros H. unfold with_object. simpl. by rewrite insert_insert_ne. Qed.

Lemma with_object_lookup l o s : heap (with_object l o s) !! l = Some o.
Proof. unfold with_object. simpl. by rewrite lookup_insert_eq. Qed.

Lemma with_object_lookup_ne l l' o s :
  l ≠ l' → heap (with_object l o s) !! l' = heap s !! l'.
Proof. intros H. unfold with_object. simpl. by rewrite lookup_insert_ne. Qed.

(** * Text content *)

(** The strings that [getAllTextContent_] pushes for a node: one for
    each text node at or below it, in document order. *)
Fixpoint text_pieces (normalizeWhitespace : bool) (node : Node)
  : list string :=
  match node with
  | Text nodeValue =>
      [if normalizeWhitespace then remove_line_breaks nodeValue
       else nodeValue]
  | Element _ _ kids => kids ≫= text_pieces normalizeWhitespace
  end.

Lemma getAllTextContent__pushes node normalizeWhitespace accumulator :
  ∀ es s,
    heap s !! accumulator = Some (Arr es) →
    getAllTextContent_ node normalizeWhitespace accumulator s =
    Ok accumulator
      (with_object accumulator
         (Arr (es ++ (VStr <$> text_pieces normalizeWhitespace node))) s).
Proof.
  induction node as [data|ns name kids IH] using Node_nested_ind;
    intros es s Hacc.
  - cbn [getAllTextContent_ text_pieces].
    assert (∀ v, arr_push accumulator v s =
                 Ok tt (with_object accumulator (Arr (es ++ [v])) s))
      as Hpush.
    { intros v. apply arr_push_Ok. by exists es. }
    destruct normalizeWhitespace;
      by rewrite (bind_Ok _ _ _ _ _ (Hpush _)).
  - cbn [getAllTextContent_ text_pieces].
    erewrite bind_Ok; [reflexivity|].
    revert es s Hacc. induction IH as [|c kids Hc _ IHkids]; intros es s Hacc.
    + cbn. rewrite app_nil_r. by rewrite with_object_id.
    + rewrite (bind_Ok _ _ _ _ _ (Hc es s Hacc)).
      rewrite (IHkids (es ++ (VStr <$> text_pieces normalizeWhitespace c))).
      * rewrite with_object_twice. cbn [mbind list_bind].
        by rewrite fmap_app, app_assoc.
      * apply with_object_lookup.
Qed.

Lemma mapM_joined_strings (l : list string) :
  mapM joined (VStr <$> l) = Some l.
Proof.
  apply mapM_Some_2. apply Forall2_fmap_l, Forall_Forall2_diag.
  by apply Forall_forall.
Qed.

Lemma getAllTextContent_run node normalizeWhitespace s :
  getAllTextContent node normalizeWhitespace s =
  Ok (String.concat "" (text_pieces normalizeWhitespace node))
    (with_object (fresh (dom (heap s)))
       (Arr (VStr <$> text_pieces normalizeWhitespace node)) s).
Proof.
  unfold getAllTextContent.
  erewrite bind_Ok; [|reflexivity].
  erewrite bind_Ok;
    [|apply (getAllTextContent__pushes _ _ _ []); cbn [heap];
      by rewrite lookup_insert_eq].
  unfold join. erewrite bind_Ok;
    [|apply getArray_Ok; split; [apply with_object_lookup|reflexivity]].
  cbn [app]. rewrite mapM_joined_strings.
  unfold ret. f_equal. unfold with_object. cbn [heap nodes cells].
  by rewrite insert_insert_eq.
Qed.

(** X1.  [getAllTextContent_] only appends: called with an accumulator
    that is an array, it returns that same array, to which it has
    pushed one string for each text node at or below the node, in
    document order (with its line breaks removed when
    [normalizeWhitespace] is set); what the accumulator held before is
    kept in front, and nothing else in the store changes. *)
Theorem getAllTextContent__appends (node : Node) (normalizeWhitespace : bool)
  (accumulator : loc) (es : list Val) (s : State) :
  heap s !! accumulator = Some (Arr es) →
  ∃ s',
    getAllTextContent_ node normalizeWhitespace accumulator s
      = Ok accumulator s' ∧
    heap s' =
      <[accumulator :=
          Arr (es ++ (VStr <$> text_pieces normalizeWhitespace node))]>
        (heap s) ∧
    nodes s' = nodes s ∧ cells s' = cells s.
Proof.
  intros Hacc. eexists. split; [by apply getAllTextContent__pushes|done].
Qed.

Definition text_doc : Node :=
  Element None "p"
    [ Text "a"; Element None "b" [Text "b"; Text "c"]; Element None "i" [];
      Text "d" ].

Lemma getAllTextContent__appends_witness :
  ∃ s',
    getAllTextContent_ text_doc false 0 (mkState {[ 0 := Arr [VStr "z"] ]} ∅ ∅)
      = Ok 0 s' ∧
    heap s' !! 0 =
      Some (Arr [VStr "z"; VStr "a"; VStr "b"; VStr "c"; VStr "d"]).
Proof.
  destruct (getAllTextContent__appends text_doc false 0 [VStr "z"]
              (mkState {[ 0 := Arr [VStr "z"] ]} ∅ ∅))
    as (s' & Hrun & Hheap & _); [reflexivity|].
  exists s'. split; [exact Hrun|]. rewrite Hheap. reflexivity.
Defined.

(** X2.  [getAllTextContent] always returns, for every node and every
    store: its result is the concatenation, in document order, of the
    text nodes at or below the node, the empty string when there is
    none.  The only trace it leaves in the store is the array it
    allocated for the pieces. *)
Theorem getAllTextContent_concatenates (node : Node)
  (normalizeWhitespace : bool) (s : State) :
  ∃ accumulator s',
    getAllTextContent node normalizeWhitespace s =
    Ok (String.concat "" (text_pieces normalizeWhitespace node)) s' ∧
    heap s !! accumulator = None ∧
    (∀ l, l ≠ accumulator → heap s' !! l = heap s !! l) ∧
    nodes s' = nodes s ∧ cells s' = cells s.
Proof.
  exists (fresh (dom (heap s))). eexists.
  split; [apply getAllTextContent_run|]. split_and!; try done.
  - apply not_elem_of_dom, is_fresh.
  - intros l Hl. by apply with_object_lookup_ne.
Qed.

Lemma remove_line_breaks_cons c r :
  remove_line_breaks (String c r) =
  if bool_decide (c ≠ CR ∧ c ≠ LF) then String c (remove_line_breaks r)
  else remove_line_breaks r.
Proof.
  cbn [remove_line_breaks].
  destruct (Ascii.eqb_spec c CR) as [->|Hcr].
  - rewrite bool_decide_eq_false_2 by (by intros [? ?]).
    destruct r as [|c' r']; [done|].
    destruct (Ascii.eqb_spec c' LF) as [->|Hlf]; [|done].
    reflexivity.
  - destruct (Ascii.eqb_spec c LF) as [->|Hlf].
    + by rewrite bool_decide_eq_false_2 by (by intros [? ?]).
    + by rewrite bool_decide_eq_true_2.
Qed.

Lemma remove_line_breaks_filter s :
  String.list_ascii_of_string (remove_line_breaks s) =
  filter (λ c, c ≠ CR ∧ c ≠ LF) (String.list_ascii_of_string s).
Proof.
  induction s as [|c r IH]; [done|].
  rewrite remove_line_breaks_cons. cbn [String.list_ascii_of_string].
  rewrite filter_cons. case_bool_decide as Hc.
  - rewrite decide_True by done. cbn [String.list_ascii_of_string].
    by rewrite IH.
  - by rewrite decide_False.
Qed.

Lemma list_ascii_of_string_append s1 s2 :
  String.list_ascii_of_string (s1 +:+ s2) =
  String.list_ascii_of_string s1 ++ String.list_ascii_of_string s2.
Proof. induction s1 as [|c r IH]; [done|]. simpl. by rewrite IH. Qed.

Lemma list_ascii_of_concat (l : list string) :
  String.list_ascii_of_string (String.concat "" l) =
  l ≫= String.list_ascii_of_string.
Proof.
  induction l as [|x l IH]; [done|].
  cbn [mbind list_bind]. rewrite <- IH. destruct l as [|y l].
  - simpl. by rewrite app_nil_r.
  - cbn [String.concat]. by rewrite !list_ascii_of_string_append.
Qed.

Lemma text_pieces_normalized node :
  text_pieces true node = remove_line_breaks <$> text_pieces false node.
Proof.
  induction node as [data|ns name kids IH] using Node_nested_ind; [done|].
  cbn [text_pieces]. induction IH as [|c kids Hc _ IHkids]; [done|].
  cbn [mbind list_bind]. by rewrite fmap_app, Hc, IHkids.
Qed.

(** X3.  With [normalizeWhitespace] set, [getAllTextContent] returns
    what it returns without it, less every carriage return and every
    line feed; all other characters are kept, in their order.  The
    replacement is done text node by text node, and still a carriage
    return that ends one text node and a line feed that starts the next
    are both removed. *)
Theorem getAllTextContent_normalized (node : Node) (s : State) :
  ∃ raw normalized,
    outcome (getAllTextContent node false s) = inl raw ∧
    outcome (getAllTextContent node true s) = inl normalized ∧
    String.list_ascii_of_string normalized =
    filter (λ c, c ≠ CR ∧ c ≠ LF) (String.list_ascii_of_string raw).
Proof.
  eexists _, _. rewrite !getAllTextContent_run. split; [done|]. split; [done|].
  rewrite !list_ascii_of_concat, text_pieces_normalized.
  induction (text_pieces false node) as [|x l IH]; [done|].
  cbn [fmap list_fmap mbind list_bind].
  rewrite filter_app, remove_line_breaks_filter. f_equal. exact IH.
Qed.

(** * Exceptions in a handler *)

(** Whether the call returns or throws, the object stack is as deep
    afterwards as it was before. *)
Definition keeps_depth_throughout {A} (objectStack : loc) (m : M A) : Prop :=
  ∀ s, depth objectStack (state_of (m s)) = depth objectStack s.

Lemma keeps_depth_throughout_ret {A} stk (a : A) :
  keeps_depth_throughout stk (ret a).
Proof. by intros s. Qed.

Lemma keeps_depth_throughout_throw {A} stk e :
  keeps_depth_throughout stk (throw e : M A).
Proof. by intros s. Qed.

Lemma keeps_depth_throughout_bind {A B} stk (m : M A) (k : A → M B) :
  keeps_depth_throughout stk m →
  (∀ a, keeps_depth_throughout stk (k a)) →
  keeps_depth_throughout stk (bind m k).
Proof.
  intros Hm Hk s. specialize (Hm s). unfold bind.
  destruct (m s) as [a s1|e s1]; simpl in *; [|done].
  by rewrite Hk.
Qed.

Lemma forEach_keeps_depth_throughout {A} stk (body : A → M unit) l :
  (∀ x, x ∈ l → keeps_depth_throughout stk (body x)) →
  keeps_depth_throughout stk (forEach body l).
Proof.
  induction l as [|x l IH]; intros Hbody; simpl.
  - apply keeps_depth_throughout_ret.
  - apply keeps_depth_throughout_bind; [apply Hbody; by left|].
    intros _. apply IH. intros y Hy. apply Hbody. by right.
Qed.

Lemma unchanged_keeps_depth_throughout {A} stk (m : M A) :
  (∀ s, state_of (m s) = s) → keeps_depth_throughout stk m.
Proof. intros H s. by rewrite H. Qed.

Lemma getArray_unchanged l s : state_of (getArray l s) = s.
Proof.
  unfold getArray, bind, getObj, ret, throw.
  by destruct (heap s !! l) as [[es|m]|].
Qed.

Lemma val_index_unchanged values i s : state_of (val_index values i s) = s.
Proof.
  destruct values; try done. simpl. unfold bind.
  pose proof (getArray_unchanged l s) as H.
  by destruct (getArray l s).
Qed.

Lemma val_length_unchanged values s : state_of (val_length values s) = s.
Proof.
  destruct values; try done. simpl. unfold bind.
  pose proof (getArray_unchanged l s) as H.
  by destruct (getArray l s).
Qed.

Lemma parseNode_keeps_depth_throughout parsersNS node stk opt_this :
  (∀ parser n, handler_of parsersNS parser →
               keeps_depth_throughout stk (parser opt_this n stk)) →
  keeps_depth_throughout stk (parseNode parsersNS node stk opt_this).
Proof.
  intros Hparsers. apply forEach_keeps_depth_throughout. intros c _.
  unfold parseChild.
  destruct (lookup_key parsersNS _) as [parsers| |] eqn:Hns;
    [|apply keeps_depth_throughout_throw|apply keeps_depth_throughout_ret].
  destruct (lookup_key parsers _) as [parser|b|] eqn:Hname;
    [|apply unchanged_keeps_depth_throughout, call_member_state
     |apply keeps_depth_throughout_ret].
  apply Hparsers. eexists _, parsers, _. split; by apply lookup_key_Own.
Qed.

Lemma serialize_keeps_depth_throughout serializersNS nodeFactory values stk
  opt_keys opt_this :
  (∀ key v, keeps_depth_throughout stk
              (writeEntry serializersNS nodeFactory stk opt_this key v)) →
  keeps_depth_throughout stk
    (serialize serializersNS nodeFactory values stk opt_keys opt_this).
Proof.
  intros Hentry. apply keeps_depth_throughout_bind.
  - destruct opt_keys; [apply keeps_depth_throughout_ret|].
    apply unchanged_keeps_depth_throughout, val_length_unchanged.
  - intros n. apply forEach_keeps_depth_throughout. intros i _.
    apply keeps_depth_throughout_bind.
    + apply unchanged_keeps_depth_throughout, val_index_unchanged.
    + intros v. destruct (defined v); [apply Hentry|].
      apply keeps_depth_throughout_ret.
Qed.

(** When the dispatch between the push and the pop throws, nothing is
    popped. *)
Lemma push_dispatch_pop_throw stk object (dispatch : M unit) s es e s' :
  keeps_depth_throughout stk dispatch →
  heap s !! stk = Some (Arr es) →
  (arr_push stk object ;; dispatch ;; arr_pop stk) s = Throw e s' →
  dispatch (mkState (<[stk := Arr (es ++ [object])]> (heap s)) (nodes s)
              (cells s)) = Throw e s' ∧
  depth stk s' = Some (S (length es)).
Proof.
  intros Hkeep Hstk.
  erewrite bind_Ok; [|apply arr_push_Ok; by exists es].
  set (s1 := mkState _ _ _). specialize (Hkeep s1).
  unfold s1 at 2 in Hkeep. rewrite depth_insert in Hkeep.
  rewrite length_app, Nat.add_1_r in Hkeep. unfold bind at 1.
  destruct (dispatch s1) as [[] s2|e2 s2]; simpl in Hkeep.
  - apply depth_Some in Hkeep as (es2 & Hes2 & Hlen).
    unfold arr_pop. erewrite bind_Ok; [|by apply getArray_Ok].
    destruct es2 as [|x es2 _] using rev_ind; [done|].
    rewrite last_snoc. discriminate.
  - by intros [= <- <-].
Qed.

(** X4.  [pushParseAndPop] has no handler for exceptions: when a
    parser throws, the call throws and the object it pushed is not
    popped.  With parsers that keep the depth of the object stack
    whether they return or throw, the stack is one frame deeper at the
    throw than it was at the call. *)
Theorem pushParseAndPop_throw_keeps_frame (object : Val)
  (parsersNS : gmap string (gmap string Parser)) (node : Node)
  (objectStack : loc) (opt_this : Val) (s : State) (es : list Val)
  (e : Exn) (s' : State) :
  (∀ parser n, handler_of parsersNS parser →
               keeps_depth_throughout objectStack
                 (parser opt_this n objectStack)) →
  heap s !! objectStack = Some (Arr es) →
  pushParseAndPop object parsersNS node objectStack opt_this s = Throw e s' →
  depth objectStack s = Some (length es) ∧
  depth objectStack s' = Some (S (length es)).
Proof.
  intros Hparsers Hstk Hthrow. split.
  - apply depth_Some. by exists es.
  - eapply push_dispatch_pop_throw;
      [by apply parseNode_keeps_depth_throughout|exact Hstk|exact Hthrow].
Qed.

(** A parser that gives up. *)
Definition STOPPING_PARSERS : gmap string (gmap string Parser) :=
  {[ "urn:items" :=
       {[ "stop" := λ _ _ _, throw (Thrown (VStr "stop")) ]} ]}.

Definition stopping_doc : Node :=
  Element (Some "urn:items") "items" [Element (Some "urn:items") "stop" []].

Definition one_frame_state : State :=
  mkState {[ 0 := Arr [VNull] ]} ∅ ∅.

Lemma pushParseAndPop_throw_keeps_frame_witness :
  ∃ s',
    pushParseAndPop (VNum 7) STOPPING_PARSERS stopping_doc 0 VUndefined
      one_frame_state = Throw (Thrown (VStr "stop")) s' ∧
    depth 0 one_frame_state = Some 1 ∧
    depth 0 s' = Some 2.
Proof.
  eexists. split; [reflexivity|].
  apply (pushParseAndPop_throw_keeps_frame (VNum 7) STOPPING_PARSERS
           stopping_doc 0 VUndefined one_frame_state [VNull]
           (Thrown (VStr "stop"))).
  - intros parser n ->%handler_of_singleton.
    apply keeps_depth_throughout_throw.
  - reflexivity.
  - reflexivity.
Defined.

(** X5.  [pushSerializeAndPop] does not pop either when [serialize]
    throws (from the node factory, a serializer, a missing table entry
    or [values] being [undefined]): the stack is one frame deeper at
    the throw than at the call, provided the node factory and the
    serializers keep its depth whether they return or throw. *)
Theorem pushSerializeAndPop_throw_keeps_frame (object : Val)
  (serializersNS : gmap string (gmap string Serializer))
  (nodeFactory : NodeFactory) (values : Val) (objectStack : loc)
  (opt_keys : option (list string)) (opt_this : Val) (s : State)
  (es : list Val) (e : Exn) (s' : State) :
  (∀ key v, keeps_depth_throughout objectStack
              (writeEntry serializersNS nodeFactory objectStack opt_this
                 key v)) →
  heap s !! objectStack = Some (Arr es) →
  pushSerializeAndPop object serializersNS nodeFactory values objectStack
    opt_keys opt_this s = Throw e s' →
  depth objectStack s = Some (length es) ∧
  depth objectStack s' = Some (S (length es)).
Proof.
  intros Hentry Hstk Hthrow. split.
  - apply depth_Some. by exists es.
  - eapply push_dispatch_pop_throw;
      [by apply serialize_keeps_depth_throughout|exact Hstk|exact Hthrow].
Qed.

Lemma pushSerializeAndPop_throw_keeps_frame_witness :
  ∃ s',
    pushSerializeAndPop (VNum 7) ∅ (λ _ _ _ _, ret None) VUndefined 0 None
      VUndefined one_frame_state = Throw TypeError s' ∧
    depth 0 one_frame_state = Some 1 ∧
    depth 0 s' = Some 2.
Proof.
  eexists. split; [reflexivity|].
  apply (pushSerializeAndPop_throw_keeps_frame (VNum 7) ∅
           (λ _ _ _ _, ret None) VUndefined 0 None VUndefined
           one_frame_state [VNull] TypeError).
  - intros key v. apply unchanged_keeps_depth_throughout. by intros s.
  - reflexivity.
  - reflexivity.
Defined.

(** * Parsers built from readers that look at the node only *)

(** A loop whose body takes the store from one member of a family to
    the next ends in the member reached by folding over the range. *)
Lemma forEach_fold {A X} (build : X → State) (step : X → A → X)
  (body : A → M unit) (l : list A) :
  (∀ x a, a ∈ l → body a (build x) = Ok tt (build (step x a))) →
  ∀ x, forEach body l (build x) = Ok tt (build (foldl step x l)).
Proof.
  induction l as [|a l IH]; intros Hbody x; [done|].
  cbn [forEach foldl].
  rewrite (bind_Ok _ _ _ _ _ (Hbody x a (list_elem_of_here _ _))).
  apply IH. intros y b Hb. apply Hbody. by right.
Qed.

(** What the reader registered for a child reads from it: [undefined]
    when none is registered. *)
Definition read_by (readers : gmap string (gmap string (Node → Val)))
  (c : Node) : Val :=
  match registered readers (Node_namespaceURI c)
          (default "undefined" (Node_localName c)) with
  | Some f => f c
  | None => VUndefined
  end.

(** A table of parsers made by one combinator from a table of
    readers. *)
Definition parsers_of (make : ValueReader → Parser)
  (readers : gmap string (gmap string (Node → Val)))
  : gmap string (gmap string Parser) :=
  (λ fs : gmap string (Node → Val),
     (λ f, make (pureReader f)) <$> fs) <$> readers.

Lemma parseChild_parsers_of make readers objectStack this c :
  inherits readers (default "null" (Node_namespaceURI c))
    (default "undefined" (Node_localName c)) = false →
  parseChild (parsers_of make readers) objectStack this c =
  match registered readers (Node_namespaceURI c)
          (default "undefined" (Node_localName c)) with
  | Some f => make (pureReader f) this c objectStack
  | None => ret tt
  end.
Proof.
  unfold parseChild, inherits, parsers_of, registered, lookup_key.
  rewrite lookup_fmap.
  destruct (readers !! _) as [fs|]; simpl.
  - rewrite lookup_fmap. destruct (fs !! _); simpl; [done|].
    by destruct (inherited (default "undefined" (Node_localName c))).
  - by destruct (inherited (default "null" (Node_namespaceURI c))).
Qed.

(** The push and the pop around a dispatch that leaves the frames
    below the top alone. *)
Lemma push_fold_pop {X} (top : X → Val) (rest : X → State → State)
  (step : X → Node → X) object (dispatch : M unit) l stk x es s :
  heap s !! stk = Some (Arr es) →
  top x = object →
  rest x s = s →
  (∀ y, heap (rest y s) !! stk = Some (Arr es)) →
  (∀ y, dispatch (with_object stk (Arr (es ++ [top y])) (rest y s)) =
        Ok tt (with_object stk (Arr (es ++ [top (foldl step y l)]))
                 (rest (foldl step y l) s))) →
  (arr_push stk object ;; dispatch ;; arr_pop stk) s =
  Ok (top (foldl step x l)) (rest (foldl step x l) s).
Proof.
  intros Hstk Htop Hrest Hkeep Hrun.
  erewrite bind_Ok; [|apply arr_push_Ok; by exists es].
  replace (mkState _ _ _)
    with (with_object stk (Arr (es ++ [top x])) (rest x s))
    by (by rewrite Hrest, Htop).
  rewrite (bind_Ok _ _ _ _ _ (Hrun x)).
  unfold arr_pop. erewrite bind_Ok;
    [|apply getArray_Ok; split; [apply with_object_lookup|reflexivity]].
  rewrite last_snoc. unfold bind, setObj, ret. f_equal.
  rewrite removelast_last.
  fold (with_object stk (Arr es)
          (with_object stk (Arr (es ++ [top (foldl step x l)]))
             (rest (foldl step x l) s))).
  rewrite with_object_twice. by apply with_object_id.
Qed.

Section Replacer.
Variable readers : gmap string (gmap string (Node → Val)).
Variable opt_this : Val.

(** The top of the stack after the replacer has seen the child [c]. *)
Definition replaced (top : Val) (c : Node) : Val :=
  if defined (read_by readers c) then read_by readers c else top.

Lemma replacer_step stk this es s top c :
  inherits readers (default "null" (Node_namespaceURI c))
    (default "undefined" (Node_localName c)) = false →
  parseChild (parsers_of (λ r, makeReplacer r opt_this) readers) stk this c
    (with_object stk (Arr (es ++ [top])) s) =
  Ok tt (with_object stk (Arr (es ++ [replaced top c])) s).
Proof.
  intros Hplain. rewrite parseChild_parsers_of by done.
  unfold replaced, read_by.
  destruct (registered _ _ _) as [f|]; simpl.
  - unfold makeReplacer, pureReader. erewrite bind_Ok; [|reflexivity].
    destruct (defined (f c)); [|done].
    unfold arr_set_top. erewrite bind_Ok;
      [|apply getArray_Ok; split; [apply with_object_lookup|reflexivity]].
    destruct (es ++ [top]) as [|x l] eqn:Hl; [by destruct es|].
    rewrite <- Hl. unfold setObj.
    rewrite length_app, Nat.add_1_r. cbn [pred].
    rewrite insert_app_r_alt, Nat.sub_diag by done. cbn [insert list_insert].
    fold (with_object stk (Arr (es ++ [f c]))
            (with_object stk (Arr (es ++ [top])) s)).
    by rewrite with_object_twice.
  - done.
Qed.

End Replacer.

(** X6.  Parsing with a table of replacers, made by [makeReplacer]
    from readers that look at the node only, a node none of whose
    element children is looked up under the name of a member of
    [Object.prototype]: [pushParseAndPop] returns the value read from
    the last element child whose registered reader gave a value, and
    the object it was given when there is no such child.  The store,
    the object stack included, is left exactly as it was. *)
Theorem makeReplacer_last_defined
  (readers : gmap string (gmap string (Node → Val))) (opt_this : Val)
  (object : Val) (node : Node) (objectStack : loc) (this : Val) (s : State)
  (es : list Val) :
  heap s !! objectStack = Some (Arr es) →
  plainly_named readers node →
  pushParseAndPop object (parsers_of (λ r, makeReplacer r opt_this) readers)
    node objectStack this s =
  Ok (foldl (replaced readers) object (elementChildren node)) s.
Proof.
  intros Hstk Hplain. unfold pushParseAndPop.
  apply (push_fold_pop id (λ _ t, t) (replaced readers) object
           (parseNode _ node objectStack this) (elementChildren node)
           objectStack object es s); try done.
  intros y. unfold parseNode.
  apply (forEach_fold (λ top, with_object objectStack (Arr (es ++ [top])) s)).
  intros top c Hc. by apply replacer_step, Hplain.
Qed.

(** Readers for the examples: the text of an element that holds one
    text node. *)
Definition TEXT_READERS : gmap string (gmap string (Node → Val)) :=
  {[ "urn:items" := {[ "a" := readText; "b" := readText ]} ]}.

(** [b] is empty, and nothing is registered for [c]. *)
Definition readers_doc : Node :=
  Element (Some "urn:items") "items"
    [ Element (Some "urn:items") "a" [Text "x"];
      Text "between";
      Element (Some "urn:items") "b" [Text "y"];
      Element (Some "urn:items") "c" [Text "z"];
      Element (Some "urn:items") "a" [Text "w"];
      Element (Some "urn:items") "b" [] ].

Definition readers_state : State :=
  mkState
    {[ 0 := Arr [VNull]; 1 := Arr [VNum 0]; 2 := Rec {[ "k" := VNum 0 ]} ]}
    ∅ ∅.

Lemma readers_doc_plain : plainly_named TEXT_READERS readers_doc.
Proof.
  intros c Hc. simpl in Hc.
  repeat (apply elem_of_cons in Hc as [->|Hc]; [reflexivity|]).
  by apply elem_of_nil in Hc.
Qed.

Lemma makeReplacer_last_defined_witness :
  pushParseAndPop (VNum 7)
    (parsers_of (λ r, makeReplacer r VUndefined) TEXT_READERS) readers_doc 0
    VUndefined readers_state = Ok (VStr "w") readers_state.
Proof.
  apply (makeReplacer_last_defined TEXT_READERS VUndefined (VNum 7)
           readers_doc 0 VUndefined readers_state [VNull]).
  - reflexivity.
  - exact readers_doc_plain.
Defined.

Section Pusher.
Variable readers : gmap string (gmap string (Node → Val)).
Variable opt_this : Val.

(** The array after the pusher has seen the child [c]. *)
Definition pushed_onto (vs : list Val) (c : Node) : list Val :=
  if defined (read_by readers c) then vs ++ [read_by readers c] else vs.

Lemma arrayPusher_step stk this es a s vs c :
  a ≠ stk →
  inherits readers (default "null" (Node_namespaceURI c))
    (default "undefined" (Node_localName c)) = false →
  parseChild (parsers_of (λ r, makeArrayPusher r opt_this) readers) stk this c
    (with_object stk (Arr (es ++ [VObj a])) (with_object a (Arr vs) s)) =
  Ok tt (with_object stk (Arr (es ++ [VObj a]))
           (with_object a (Arr (pushed_onto vs c)) s)).
Proof.
  intros Ha Hplain. rewrite parseChild_parsers_of by done.
  unfold pushed_onto, read_by.
  destruct (registered _ _ _) as [f|]; simpl; [|done].
  unfold makeArrayPusher, pureReader. erewrite bind_Ok; [|reflexivity].
  destruct (defined (f c)); [|done].
  erewrite bind_Ok; [|eapply arr_top_snoc, with_object_lookup].
  erewrite val_push_arr;
    [|rewrite with_object_lookup_ne by done; apply with_object_lookup].
  fold (with_object a (Arr (vs ++ [f c]))
          (with_object stk (Arr (es ++ [VObj a]))
             (with_object a (Arr vs) s))).
  by rewrite with_object_commute, with_object_twice.
Qed.

End Pusher.

(** X7.  Parsing into an array with a table of pushers, made by
    [makeArrayPusher] from readers that look at the node only, a node
    none of whose element children is looked up under the name of a
    member of [Object.prototype]: [pushParseAndPop] returns the array
    it was given, to which the values read from the element children
    have been appended in document order, the children that have no
    registered reader or whose reader gave [undefined] being passed
    over.  Nothing else in the store changes. *)
Theorem makeArrayPusher_collects
  (readers : gmap string (gmap string (Node → Val))) (opt_this : Val)
  (array : loc) (node : Node) (objectStack : loc) (this : Val) (s : State)
  (es vs : list Val) :
  array ≠ objectStack →
  heap s !! objectStack = Some (Arr es) →
  heap s !! array = Some (Arr vs) →
  plainly_named readers node →
  pushParseAndPop (VObj array)
    (parsers_of (λ r, makeArrayPusher r opt_this) readers) node objectStack
    this s =
  Ok (VObj array)
    (with_object array
       (Arr (vs ++ filter (λ v, defined v = true)
                     (read_by readers <$> elementChildren node))) s).
Proof.
  intros Ha Hstk Harr Hplain. unfold pushParseAndPop.
  assert (∀ l vs0,
            foldl (pushed_onto readers) vs0 l =
            vs0 ++ filter (λ v, defined v = true) (read_by readers <$> l))
    as Hfold.
  { induction l as [|c l IH]; intros vs0; [by rewrite app_nil_r|].
    cbn [foldl fmap list_fmap]. rewrite IH, filter_cons. unfold pushed_onto.
    destruct (defined (read_by readers c)) eqn:Hc.
    - rewrite decide_True by done. by rewrite <- app_assoc.
    - by rewrite decide_False by done. }
  rewrite <- Hfold.
  apply (push_fold_pop (λ _, VObj array) (λ vs0, with_object array (Arr vs0))
           (pushed_onto readers) (VObj array)
           (parseNode _ node objectStack this) (elementChildren node)
           objectStack vs es s); try done.
  - by apply with_object_id.
  - intros y. by rewrite with_object_lookup_ne.
  - intros y. unfold parseNode.
    apply (forEach_fold
             (λ vs0, with_object objectStack (Arr (es ++ [VObj array]))
                       (with_object array (Arr vs0) s))).
    intros vs0 c Hc. by apply arrayPusher_step; [|apply Hplain].
Qed.

Lemma makeArrayPusher_collects_witness :
  pushParseAndPop (VObj 1)
    (parsers_of (λ r, makeArrayPusher r VUndefined) TEXT_READERS) readers_doc
    0 VUndefined readers_state =
  Ok (VObj 1)
    (with_object 1 (Arr [VNum 0; VStr "x"; VStr "y"; VStr "w"]) readers_state).
Proof.
  apply (makeArrayPusher_collects TEXT_READERS VUndefined 1 readers_doc 0
           VUndefined readers_state [VNull] [VNum 0]);
    [done|reflexivity|reflexivity|exact readers_doc_plain].
Defined.

Section Setter.
Variable readers : gmap string (gmap string (Node → Val)).
Variable opt_property : option string.
Variable opt_this : Val.

(** The record after the setter has seen the child [c]. *)
Definition set_from (m : gmap string Val) (c : Node) : gmap string Val :=
  if defined (read_by readers c)
  then <[property_of opt_property c := read_by readers c]> m
  else m.

Lemma setter_step stk this es o s m c :
  o ≠ stk →
  inherits readers (default "null" (Node_namespaceURI c))
    (default "undefined" (Node_localName c)) = false →
  property_of opt_property c ≠ "__proto__" →
  parseChild
    (parsers_of (λ r, makeObjectPropertySetter r opt_property opt_this)
       readers) stk this c
    (with_object stk (Arr (es ++ [VObj o])) (with_object o (Rec m) s)) =
  Ok tt (with_object stk (Arr (es ++ [VObj o]))
           (with_object o (Rec (set_from m c)) s)).
Proof.
  intros Ho Hplain Hproperty. rewrite parseChild_parsers_of by done.
  unfold set_from, read_by.
  destruct (registered _ _ _) as [f|]; simpl; [|done].
  unfold makeObjectPropertySetter, pureReader.
  erewrite bind_Ok; [|reflexivity].
  destruct (defined (f c)); [|done].
  erewrite bind_Ok; [|eapply arr_top_snoc, with_object_lookup].
  erewrite set_property_rec;
    [|rewrite with_object_lookup_ne by done; apply with_object_lookup
     |done].
  fold (with_object o (Rec (<[property_of opt_property c := f c]> m))
          (with_object stk (Arr (es ++ [VObj o]))
             (with_object o (Rec m) s))).
  by rewrite with_object_commute, with_object_twice.
Qed.

End Setter.

(** X8.  Parsing into a record with a table of setters, made by
    [makeObjectPropertySetter] from readers that look at the node only,
    a node none of whose element children is looked up under the name
    of a member of [Object.prototype] or assigned to the property
    [__proto__]: [pushParseAndPop] returns the record it was given, in
    which each value read has been assigned, in document order, to the
    property [opt_property] or, without it, to the property named as
    the child; a later child of the same name overwrites the value of
    an earlier one, and properties that no child sets keep their
    value. *)
Theorem makeObjectPropertySetter_last_wins
  (readers : gmap string (gmap string (Node → Val)))
  (opt_property : option string) (opt_this : Val) (object : loc)
  (node : Node) (objectStack : loc) (this : Val) (s : State)
  (es : list Val) (m : gmap string Val) :
  object ≠ objectStack →
  heap s !! objectStack = Some (Arr es) →
  heap s !! object = Some (Rec m) →
  plainly_named readers node →
  (∀ c, c ∈ elementChildren node →
        property_of opt_property c ≠ "__proto__") →
  pushParseAndPop (VObj object)
    (parsers_of (λ r, makeObjectPropertySetter r opt_property opt_this)
       readers) node objectStack this s =
  Ok (VObj object)
    (with_object object
       (Rec (foldl (set_from readers opt_property) m (elementChildren node)))
       s).
Proof.
  intros Ho Hstk Hrec Hplain Hproperty. unfold pushParseAndPop.
  apply (push_fold_pop (λ _, VObj object)
           (λ m0, with_object object (Rec m0))
           (set_from readers opt_property) (VObj object)
           (parseNode _ node objectStack this) (elementChildren node)
           objectStack m es s); try done.
  - by apply with_object_id.
  - intros y. by rewrite with_object_lookup_ne.
  - intros y. unfold parseNode.
    apply (forEach_fold
             (λ m0, with_object objectStack (Arr (es ++ [VObj object]))
                      (with_object object (Rec m0) s))).
    intros m0 c Hc. by apply setter_step; [|apply Hplain|apply Hproperty].
Qed.

Lemma makeObjectPropertySetter_last_wins_witness :
  pushParseAndPop (VObj 2)
    (parsers_of (λ r, makeObjectPropertySetter r None VUndefined)
       TEXT_READERS) readers_doc 0 VUndefined readers_state =
  Ok (VObj 2)
    (with_object 2
       (Rec {[ "a" := VStr "w"; "b" := VStr "y"; "k" := VNum 0 ]})
       readers_state).
Proof.
  rewrite (makeObjectPropertySetter_last_wins TEXT_READERS None VUndefined 2
             readers_doc 0 VUndefined readers_state [VNull]
             {[ "k" := VNum 0 ]});
    [|done|reflexivity|reflexivity|exact readers_doc_plain|].
  - reflexivity.
  - intros c Hc. simpl in Hc.
    repeat (apply elem_of_cons in Hc as [->|Hc]; [discriminate|]).
    by apply elem_of_nil in Hc.
Defined.

(** * The receiver of a value reader *)

Lemma forEach_ext {A} (body body' : A → M unit) l s :
  (∀ x t, x ∈ l → body x t = body' x t) →
  forEach body l s = forEach body' l s.
Proof.
  revert s. induction l as [|x l IH]; intros s Hbody; [done|].
  cbn [forEach]. unfold bind. rewrite Hbody by left.
  destruct (body' x s) as [[] s1|e s1]; [|done].
  apply IH. intros y t Hy. apply Hbody. by right.
Qed.

(** X9.  The parser returned by [makeArrayExtender] calls its value
    reader with [opt_this] as it is, without falling back on its own
    receiver as the other combinators do: when every registered parser
    is an extender, the [opt_this] given to [parseNode] has no effect
    at all on a node none of whose element children is looked up under
    the name of a member of [Object.prototype]. *)
Theorem makeArrayExtender_ignores_receiver
  (parsersNS : gmap string (gmap string Parser)) (node : Node)
  (objectStack : loc) (this this' : Val) (s : State) :
  (∀ parser, handler_of parsersNS parser →
             ∃ valueReader opt_this,
               parser = makeArrayExtender valueReader opt_this) →
  plainly_named parsersNS node →
  parseNode parsersNS node objectStack this s =
  parseNode parsersNS node objectStack this' s.
Proof.
  intros Hext Hplain. apply forEach_ext. intros c t Hc.
  specialize (Hplain c Hc). revert Hplain. unfold parseChild, inherits.
  destruct (lookup_key parsersNS _) as [parsers| |] eqn:Hns; [|done..].
  destruct (lookup_key parsers _) as [parser|b|] eqn:Hname; [|done..].
  intros _.
  destruct (Hext parser) as (valueReader & opt_this & ->); [|done].
  eexists _, parsers, _. split; by apply lookup_key_Own.
Qed.

(** A reader that gives back its receiver in an array. *)
Definition readReceiver : ValueReader :=
  λ this node objectStack, a <- alloc (Arr [this]) ;; ret (VObj a).

Definition RECEIVER_PARSERS : gmap string (gmap string Parser) :=
  {[ "urn:items" := {[ "a" := makeArrayExtender readReceiver (VNum 1) ]} ]}.

Definition receiver_doc : Node :=
  Element (Some "urn:items") "items" [Element (Some "urn:items") "a" []].

Definition receiver_state : State :=
  mkState {[ 0 := Arr [VObj 1]; 1 := Arr [] ]} ∅ ∅.

Lemma makeArrayExtender_ignores_receiver_witness :
  parseNode RECEIVER_PARSERS receiver_doc 0 (VNum 2) receiver_state =
  parseNode RECEIVER_PARSERS receiver_doc 0 (VNum 3) receiver_state.
Proof.
  apply (makeArrayExtender_ignores_receiver RECEIVER_PARSERS receiver_doc 0
           (VNum 2) (VNum 3) receiver_state).
  - intros parser ->%handler_of_singleton. by eexists _, _.
  - intros c Hc. simpl in Hc.
    repeat (apply elem_of_cons in Hc as [->|Hc]; [reflexivity|]).
    by apply elem_of_nil in Hc.
Defined.

(** * Namespaced structures *)

Lemma foldl_insert_lookup {T} (uris : list string) (structure : T)
  (base : gmap string T) uri :
  foldl (λ acc u, <[u := structure]> acc) base uris !! uri =
  if bool_decide (uri ∈ uris) then Some structure else base !! uri.
Proof.
  revert base. induction uris as [|u uris IH]; intros base; [done|].
  cbn [foldl]. rewrite IH.
  destruct (decide (uri = u)) as [->|Hne].
  - rewrite lookup_insert_eq.
    rewrite (bool_decide_eq_true_2 (u ∈ u :: uris)) by left.
    by case_bool_decide.
  - rewrite lookup_insert_ne by done.
    case_bool_decide as Hin.
    + by rewrite bool_decide_eq_true_2 by (by right).
    + rewrite bool_decide_eq_false_2; [done|].
      by intros [?|?]%elem_of_cons.
Qed.

Lemma makeStructureNS_plain {T} (uris : list string) (structure : T)
  (opt_structureNS : option (gmap string T)) :
  "__proto__" ∉ uris →
  makeStructureNS uris structure opt_structureNS =
  Some (foldl (λ acc u, <[u := structure]> acc) (default ∅ opt_structureNS)
          uris).
Proof.
  unfold makeStructureNS. generalize (default ∅ opt_structureNS).
  induction uris as [|u uris IH]; intros base Hproto; [done|].
  apply not_elem_of_cons in Hproto as [Hu Huris]. cbn [foldl].
  replace (Some base ≫= λ table, assign_key table u structure)
    with (Some (<[u := structure]> base)); [by apply IH|].
  simpl. unfold assign_key.
  by rewrite bool_decide_eq_false_2 by (intros [? _]; congruence).
Qed.



(** * Node factories and child appenders: what they need of the stack *)

(** The name [makeSimpleNodeFactory] gives to the node it creates. *)
Definition factory_name (opt_nodeName key : option string) : string :=
  default "undefined" (match opt_nodeName with
                       | Some name => Some name
                       | None => key
                       end).

(** X11.  What a node factory made by [makeSimpleNodeFactory] needs of
    the object stack.  On an empty stack it throws a [TypeError],
    whatever name and namespace were fixed.  When the top frame is a
    record without [node], it throws a [TypeError] unless the namespace
    was fixed, in which case the element is created.  When the top
    frame has a [node], the element is created in the fixed namespace
    or else in that of the node; in all cases its name is the fixed
    name, or else the key passed by [serialize], or else
    [undefined]. *)
Theorem makeSimpleNodeFactory_context (opt_nodeName opt_namespaceURI
    key : option string) (this value : Val) (objectStack : loc) (s : State) :
  (heap s !! objectStack = Some (Arr []) →
   makeSimpleNodeFactory opt_nodeName opt_namespaceURI this value objectStack
     key s = Throw TypeError s) ∧
  (∀ es ctx m,
     heap s !! objectStack = Some (Arr (es ++ [VObj ctx])) →
     heap s !! ctx = Some (Rec m) →
     (m !! "node" = None →
      makeSimpleNodeFactory opt_nodeName opt_namespaceURI this value
        objectStack key s =
      match opt_namespaceURI with
      | Some uri =>
          (n <- createElementNS (Some uri) (factory_name opt_nodeName key) ;;
           ret (Some n)) s
      | None => Throw TypeError s
      end) ∧
     (∀ p dp,
        m !! "node" = Some (VNode p) →
        nodes s !! p = Some dp →
        makeSimpleNodeFactory opt_nodeName opt_namespaceURI this value
          objectStack key s =
        (n <- createElementNS
                (match opt_namespaceURI with
                 | Some uri => Some uri
                 | None => namespaceURI dp
                 end) (factory_name opt_nodeName key) ;;
         ret (Some n)) s)).
Proof.
  split.
  - intros Hstk. unfold makeSimpleNodeFactory, arr_top.
    erewrite bind_Ok; [|erewrite bind_Ok; [|by apply getArray_Ok]; done].
    reflexivity.
  - intros es ctx m Hstk Hctx. split.
    + intros Hnode. unfold makeSimpleNodeFactory.
      rewrite (bind_Ok _ _ _ _ _ (arr_top_snoc _ _ _ _ Hstk)).
      rewrite (bind_Ok _ _ _ _ _ (get_property_rec _ _ "node" _ Hctx)).
      rewrite (read_property_plain m "node" eq_refl), Hnode.
      cbn [default from_option id].
      destruct opt_namespaceURI as [uri|]; [|reflexivity].
      erewrite bind_Ok; [|reflexivity]. reflexivity.
    + intros p dp Hnode Hp. unfold makeSimpleNodeFactory.
      rewrite (bind_Ok _ _ _ _ _ (arr_top_snoc _ _ _ _ Hstk)).
      rewrite (bind_Ok _ _ _ _ _ (get_property_rec _ _ "node" _ Hctx)).
      rewrite (read_property_Some _ _ _ Hnode).
      destruct opt_namespaceURI as [uri|].
      * erewrite bind_Ok; [|reflexivity]. reflexivity.
      * unfold val_namespaceURI. erewrite bind_Ok; [reflexivity|].
        erewrite bind_Ok; [|by apply getNode_Ok]. reflexivity.
Qed.

(** The stack holds a frame that has no [node]. *)
Definition bare_frame_state : State :=
  mkState {[ 0 := Arr [VObj 1]; 1 := Rec ∅ ]} ∅ ∅.

Lemma makeSimpleNodeFactory_context_witness :
  makeSimpleNodeFactory None None VUndefined VNull 0 (Some "a")
    bare_frame_state = Throw TypeError bare_frame_state ∧
  outcome (makeSimpleNodeFactory None (Some "urn:items") VUndefined VNull 0
             (Some "a") bare_frame_state) = inl (Some 0).
Proof.
  split.
  - destruct (makeSimpleNodeFactory_context None None (Some "a") VUndefined
                VNull 0 bare_frame_state) as [_ Hframe].
    destruct (Hframe [] 1 ∅) as [Hbare _]; [reflexivity..|].
    apply Hbare. reflexivity.
  - destruct (makeSimpleNodeFactory_context None (Some "urn:items")
                (Some "a") VUndefined VNull 0 bare_frame_state)
      as [_ Hframe].
    destruct (Hframe [] 1 ∅) as [Hbare _]; [reflexivity..|].
    rewrite Hbare by reflexivity. reflexivity.
Defined.

Lemma appendChild_orphan p n dp dn s :
  nodes s !! p = Some dp →
  nodes s !! n = Some dn → parentNode dn = None →
  inclusive_ancestor (size (nodes s)) (nodes s) n p = false →
  ∃ s',
    appendChild p n s = Ok tt s' ∧
    heap s' = heap s ∧ cells s' = cells s ∧
    nodes s' !! p = Some (add_child n dp) ∧
    nodes s' !! n = Some (set_parent p dn) ∧
    ∀ q, q ≠ p → q ≠ n → nodes s' !! q = nodes s !! q.
Proof.
  intros Hp Hn Hnn Hanc.
  assert (n ≠ p) as Hnp.
  { intros ->. destruct (size (nodes s)); simpl in Hanc;
      by rewrite bool_decide_eq_true_2 in Hanc. }
  eexists. split.
  { unfold appendChild.
    erewrite bind_Ok; [|by apply getNode_Ok].
    erewrite bind_Ok; [|by apply getNode_Ok].
    rewrite Hanc, Hnn. reflexivity. }
  cbn [heap nodes cells]. split; [done|]. split; [done|]. split_and!.
  - rewrite lookup_alter_ne, lookup_alter_eq by done. by rewrite Hp.
  - rewrite lookup_alter_eq, lookup_alter_ne by done. by rewrite Hn.
  - intros q Hq1 Hq2. by rewrite !lookup_alter_ne.
Qed.

(** X12.  The serializer returned by [makeChildAppender] runs the node
    writer first, while the node is not yet attached, and appends
    afterwards.  When the writer has returned and the top frame has no
    [node], a [TypeError] is thrown and the effects of the writer stay.
    When the frame has a [node] of which the written node is neither
    itself nor an ancestor, the written node, which had no parent,
    becomes the last child of that node; no other node changes, nor
    does the heap. *)
Theorem makeChildAppender_writes_then_appends (nodeWriter : Serializer)
  (opt_this this : Val) (node : nid) (value : Val) (objectStack : loc)
  (s s1 : State) (es : list Val) (ctx : loc) (m : gmap string Val) :
  nodeWriter (receiver opt_this this) node value objectStack s = Ok tt s1 →
  heap s1 !! objectStack = Some (Arr (es ++ [VObj ctx])) →
  heap s1 !! ctx = Some (Rec m) →
  (m !! "node" = None →
   makeChildAppender nodeWriter opt_this this node value objectStack s =
   Throw TypeError s1) ∧
  (∀ p dp dn,
     m !! "node" = Some (VNode p) →
     nodes s1 !! p = Some dp →
     nodes s1 !! node = Some dn →
     parentNode dn = None →
     inclusive_ancestor (size (nodes s1)) (nodes s1) node p = false →
     ∃ s',
       makeChildAppender nodeWriter opt_this this node value objectStack s =
       Ok tt s' ∧
       heap s' = heap s1 ∧ cells s' = cells s1 ∧
       nodes s' !! p = Some (add_child node dp) ∧
       nodes s' !! node = Some (set_parent p dn) ∧
       ∀ q, q ≠ p → q ≠ node → nodes s' !! q = nodes s1 !! q).
Proof.
  intros Hwrite Hstk Hctx. split.
  - intros Hnode. unfold makeChildAppender.
    rewrite (bind_Ok _ _ _ _ _ Hwrite).
    rewrite (bind_Ok _ _ _ _ _ (arr_top_snoc _ _ _ _ Hstk)).
    rewrite (bind_Ok _ _ _ _ _ (get_property_rec _ _ "node" _ Hctx)).
    by rewrite (read_property_plain m "node" eq_refl), Hnode.
  - intros p dp dn Hnode Hp Hn Hdetached Hanc.
    destruct (appendChild_orphan p node dp dn s1) as (s' & Happ & Hrest);
      try done.
    exists s'. split; [|exact Hrest]. unfold makeChildAppender.
    rewrite (bind_Ok _ _ _ _ _ Hwrite).
    rewrite (bind_Ok _ _ _ _ _ (arr_top_snoc _ _ _ _ Hstk)).
    rewrite (bind_Ok _ _ _ _ _ (get_property_rec _ _ "node" _ Hctx)).
    rewrite (read_property_Some _ _ _ Hnode). exact Happ.
Qed.

(** The frame on the stack is for the element [items], which has the
    child [1]; the element [2] has no parent yet. *)
Definition appender_state : State :=
  mkState {[ 0 := Arr [VObj 1]; 1 := Rec {[ "node" := VNode 0 ]} ]}
    {[ 0 := mkDomNode (Some "urn:items") "items" None [1] [];
       1 := mkDomNode (Some "urn:items") "a" (Some 0) [] [];
       2 := mkDomNode (Some "urn:items") "b" None [] [] ]}
    ∅.

Lemma makeChildAppender_writes_then_appends_witness :
  ∃ s',
    makeChildAppender writeValue VUndefined VUndefined 2 (VStr "x") 0
      appender_state = Ok tt s' ∧
    childNodes <$> (nodes s' !! 0) = Some [1; 2] ∧
    parentNode <$> (nodes s' !! 2) = Some (Some 0) ∧
    attributes <$> (nodes s' !! 2) = Some [("value", VStr "x")].
Proof.
  destruct (makeChildAppender_writes_then_appends writeValue VUndefined
              VUndefined 2 (VStr "x") 0 appender_state
              (state_of (writeValue VUndefined 2 (VStr "x") 0 appender_state))
              [] 1 {[ "node" := VNode 0 ]}) as [_ Happend];
    [reflexivity..|].
  destruct (Happend 0 (mkDomNode (Some "urn:items") "items" None [1] [])
              (mkDomNode (Some "urn:items") "b" None [] [("value", VStr "x")]))
    as (s' & Hrun & _ & _ & Hp & Hn & _); [reflexivity..|].
  exists s'. split; [exact Hrun|]. split_and!.
  - exact (f_equal (fmap childNodes) Hp).
  - exact (f_equal (fmap parentNode) Hn).
  - exact (f_equal (fmap attributes) Hn).
Defined.

(** * Parsers on a stack whose top is not an object *)

(** Values that are not objects: [undefined], [null], booleans,
    numbers and strings. *)
Definition primitive (v : Val) : bool :=
  match v with
  | VObj _ | VNode _ | VBuiltin _ => false
  | _ => true
  end.

(** X13.  The parsers made by [makeArrayPusher],
    [makeObjectPropertyPusher] and [makeObjectPropertySetter] look at
    the top of the object stack only after the value reader has
    returned a value: when the stack is empty or its top is a primitive
    value, they return without an error if the value read is
    [undefined], and otherwise throw a [TypeError] in the store the
    reader left; the one exception is the setter for the property
    [__proto__] on a top that is neither [undefined] nor [null], where
    the assignment is passed over. *)
Theorem parsers_need_an_object (valueReader : ValueReader)
  (opt_property : option string) (opt_this this : Val) (node : Node)
  (objectStack : loc) (s : State) (v : Val) (s1 : State) (es : list Val) :
  valueReader (receiver opt_this this) node objectStack s = Ok v s1 →
  heap s1 !! objectStack = Some (Arr es) →
  let top := default VUndefined (last es) in
  primitive top = true →
  makeArrayPusher valueReader opt_this this node objectStack s =
    (if defined v then Throw TypeError s1 else Ok tt s1) ∧
  makeObjectPropertyPusher valueReader opt_property opt_this this node
    objectStack s =
    (if defined v then Throw TypeError s1 else Ok tt s1) ∧
  makeObjectPropertySetter valueReader opt_property opt_this this node
    objectStack s =
    (if defined v
     then if bool_decide (property_of opt_property node = "__proto__")
             && negb (nullish top)
          then Ok tt s1
          else Throw TypeError s1
     else Ok tt s1).
Proof.
  intros Hread Hstk top Htop.
  assert (arr_top objectStack s1 = Ok top s1) as Harr.
  { unfold arr_top. by erewrite bind_Ok; [|by apply getArray_Ok]. }
  unfold makeArrayPusher, makeObjectPropertyPusher, makeObjectPropertySetter.
  rewrite !(bind_Ok _ _ _ _ _ Hread).
  destruct (defined v); [|done].
  rewrite !(bind_Ok _ _ _ _ _ Harr).
  destruct top; try done; simpl;
    by destruct (bool_decide (property_of opt_property node = "__proto__")).
Qed.

Lemma parsers_need_an_object_witness :
  makeArrayPusher (pureReader readText) VUndefined VUndefined
    (Element None "a" [Text "x"]) 0 (mkState {[ 0 := Arr [] ]} ∅ ∅) =
  Throw TypeError (mkState {[ 0 := Arr [] ]} ∅ ∅) ∧
  makeObjectPropertySetter (pureReader readText) None VUndefined VUndefined
    (Element None "a" []) 0 (mkState {[ 0 := Arr [] ]} ∅ ∅) =
  Ok tt (mkState {[ 0 := Arr [] ]} ∅ ∅) ∧
  makeObjectPropertySetter (pureReader readText) None VUndefined VUndefined
    (Element None "a" [Text "x"]) 0 (mkState {[ 0 := Arr [VNum 5] ]} ∅ ∅) =
  Throw TypeError (mkState {[ 0 := Arr [VNum 5] ]} ∅ ∅) ∧
  makeObjectPropertySetter (pureReader readText) None VUndefined VUndefined
    (Element None "__proto__" [Text "x"]) 0
    (mkState {[ 0 := Arr [VNum 5] ]} ∅ ∅) =
  Ok tt (mkState {[ 0 := Arr [VNum 5] ]} ∅ ∅).
Proof.
  split_and!.
  - apply (parsers_need_an_object (pureReader readText) None VUndefined
             VUndefined (Element None "a" [Text "x"]) 0
             (mkState {[ 0 := Arr [] ]} ∅ ∅) (VStr "x")
             (mkState {[ 0 := Arr [] ]} ∅ ∅) []); reflexivity.
  - apply (parsers_need_an_object (pureReader readText) None VUndefined
             VUndefined (Element None "a" []) 0
             (mkState {[ 0 := Arr [] ]} ∅ ∅) VUndefined
             (mkState {[ 0 := Arr [] ]} ∅ ∅) []); reflexivity.
  - apply (parsers_need_an_object (pureReader readText) None VUndefined
             VUndefined (Element None "a" [Text "x"]) 0
             (mkState {[ 0 := Arr [VNum 5] ]} ∅ ∅) (VStr "x")
             (mkState {[ 0 := Arr [VNum 5] ]} ∅ ∅) [VNum 5]); reflexivity.
  - apply (parsers_need_an_object (pureReader readText) None VUndefined
             VUndefined (Element None "__proto__" [Text "x"]) 0
             (mkState {[ 0 := Arr [VNum 5] ]} ∅ ∅) (VStr "x")
             (mkState {[ 0 := Arr [VNum 5] ]} ∅ ∅) [VNum 5]); reflexivity.
Defined.

(** * Keys and values of different lengths *)

Lemma zip_surplus_l {A B} (l more : list A) (k : list B) :
  length k ≤ length l → zip (l ++ more) k = zip l k.
Proof.
  revert k. induction l as [|x l IH]; intros [|y k] Hlen; simpl in *;
    try done; try lia.
  - by destruct more.
  - f_equal. apply IH. lia.
Qed.

Lemma zip_surplus_r {A B} (l : list A) (k more : list B) :
  length l ≤ length k → zip l (k ++ more) = zip l k.
Proof.
  revert k. induction l as [|x l IH]; intros [|y k] Hlen; simpl in *;
    try done; try lia.
  f_equal. apply IH. lia.
Qed.

(** X14.  [serialize] called with [opt_keys] runs over the keys, not
    over the values: the values past the last key are never written,
    and the keys past the last value change nothing, each reading a
    value that is [undefined]. *)
Theorem serialize_surplus_keys_and_values
  (serializersNS : gmap string (gmap string Serializer))
  (nodeFactory : NodeFactory) (values : loc) (vs rest : list Val)
  (objectStack : loc) (keys more : list string) (opt_this : Val)
  (s : State) :
  values_untouched serializersNS nodeFactory objectStack opt_this values
    (vs ++ rest) →
  heap s !! values = Some (Arr (vs ++ rest)) →
  length keys = length vs →
  serialize serializersNS nodeFactory (VObj values) objectStack
    (Some keys) opt_this s =
  forEach (λ e, writeEntry serializersNS nodeFactory objectStack opt_this
                  (Some e.1) e.2)
    (filter (λ e, defined e.2 = true) (zip keys vs)) s ∧
  (rest = [] →
   serialize serializersNS nodeFactory (VObj values) objectStack
     (Some (keys ++ more)) opt_this s =
   serialize serializersNS nodeFactory (VObj values) objectStack
     (Some keys) opt_this s).
Proof.
  intros Hkeep Hvalues Hlen.
  assert (∀ (l : list (string * Val)) t,
            forEach (λ e, writeEntry serializersNS nodeFactory objectStack
                            opt_this e.1 e.2)
              (filter (λ e, defined e.2 = true)
                 (prod_map Some id <$> l)) t =
            forEach (λ e, writeEntry serializersNS nodeFactory objectStack
                            opt_this (Some e.1) e.2)
              (filter (λ e, defined e.2 = true) l) t) as Hloop.
  { induction l as [|[k v] l IH]; intros t; [done|].
    cbn [fmap list_fmap prod_map fst snd id]. rewrite !filter_cons.
    cbn [snd]. destruct (decide (defined v = true)); [|apply IH].
    cbn [forEach fst snd]. unfold bind.
    destruct (writeEntry _ _ _ _ _ _ _) as [[] t1|e1 t1]; [apply IH|done]. }
  split.
  - rewrite (serialize_entries _ _ _ _ _ (vs ++ rest)) by done.
    unfold entries. rewrite zip_surplus_r by (rewrite length_fmap; lia).
    rewrite <- Hloop. do 2 f_equal.
    clear. revert vs. induction keys as [|k keys IH]; intros [|v vs];
      simpl; try done. by rewrite IH.
  - intros ->. rewrite app_nil_r in *.
    rewrite !(serialize_entries _ _ _ _ _ vs) by done.
    unfold entries. rewrite fmap_app, zip_surplus_l; [done|].
    rewrite length_fmap. lia.
Qed.

(** The array at address 2 holds one value. *)
Definition keys_state : State :=
  mkState
    {[ 0 := Arr [VObj 3]; 2 := Arr [VNum 1; VNum 2];
       3 := Rec {[ "node" := VNode 0 ]} ]}
    {[ 0 := mkDomNode (Some "urn:items") "items" None [] [] ]}
    ∅.

Lemma serialize_surplus_keys_and_values_witness :
  serialize ITEM_SERIALIZERS OBJECT_PROPERTY_NODE_FACTORY (VObj 2) 0
    (Some ["item"]) VUndefined keys_state =
  writeEntry ITEM_SERIALIZERS OBJECT_PROPERTY_NODE_FACTORY 0 VUndefined
    (Some "item") (VNum 1) keys_state.
Proof.
  destruct (serialize_surplus_keys_and_values ITEM_SERIALIZERS
              OBJECT_PROPERTY_NODE_FACTORY 2 [VNum 1] [VNum 2] 0 ["item"] []
              VUndefined keys_state) as [-> _];
    [apply ITEM_SERIALIZERS_untouched|reflexivity..].
Defined.

(** * The name a serializer is looked up under *)

(** What [serialize] does with a value when the node factory was made
    by [makeSimpleNodeFactory] and the top frame has a node. *)
Lemma callSerializer_registered
  (serializersNS : gmap string (gmap string Serializer)) ns name serializer
  this n value objectStack :
  registered serializersNS ns name = Some serializer →
  callSerializer serializersNS ns name this n value objectStack =
  serializer this n value objectStack.
Proof.
  unfold registered, callSerializer. intros Hreg.
  destruct (serializersNS !! default "null" ns) as [serializers|] eqn:Hns;
    [|done].
  by rewrite (lookup_key_Some _ _ _ Hns), (lookup_key_Some _ _ _ Hreg).
Qed.

Lemma callSerializer_miss
  (serializersNS : gmap string (gmap string Serializer)) ns name this n
  value objectStack :
  registered serializersNS ns name = None →
  inherits serializersNS (default "null" ns) name = false →
  callSerializer serializersNS ns name this n value objectStack =
  throw TypeError.
Proof.
  intros Hmiss Hin. unfold callSerializer.
  by destruct (lookup_key_miss _ _ _ Hmiss Hin)
    as [->|(serializers & -> & ->)].
Qed.

Lemma writeEntry_simple_factory
  (serializersNS : gmap string (gmap string Serializer))
  (opt_nodeName opt_namespaceURI : option string)
  (objectStack ctx : loc) (p : nid) (ns : option string) (this : Val)
  (key : option string) (value : Val) (s : State) :
  context_frame objectStack ctx p ns s →
  let uri := match opt_namespaceURI with
             | Some uri => Some uri
             | None => ns
             end in
  writeEntry serializersNS
    (makeSimpleNodeFactory opt_nodeName opt_namespaceURI)
    objectStack this key value s =
  (n <- createElementNS uri (factory_name opt_nodeName key) ;;
   callSerializer serializersNS uri
     (local_part (factory_name opt_nodeName key)) this n value objectStack) s.
Proof.
  intros ((es & Hstk) & (m & Hctx & Hnode) & (dp & Hp & Hns)) uri.
  assert (makeSimpleNodeFactory opt_nodeName opt_namespaceURI this
            value objectStack key s =
          (n <- createElementNS uri (factory_name opt_nodeName key) ;;
           ret (Some n)) s)
    as Hfactory.
  { unfold makeSimpleNodeFactory.
    rewrite (bind_Ok _ _ _ _ _ (arr_top_snoc _ _ _ _ Hstk)).
    rewrite (bind_Ok _ _ _ _ _ (get_property_rec _ _ "node" _ Hctx)).
    rewrite (read_property_Some _ _ _ Hnode). unfold uri.
    destruct opt_namespaceURI as [fixed|].
    - erewrite bind_Ok; [|reflexivity]. reflexivity.
    - unfold val_namespaceURI. erewrite bind_Ok; [reflexivity|].
      erewrite bind_Ok; [|by apply getNode_Ok]. by rewrite Hns. }
  unfold writeEntry. unfold bind at 1. rewrite Hfactory.
  unfold bind at 1 3. cbn [createElementNS]. cbv beta zeta.
  unfold ret at 1.
  erewrite bind_Ok;
    [|apply getNode_Ok; split; [|reflexivity]; cbn [nodes];
      apply lookup_insert_eq].
  reflexivity.
Qed.

(** X15.  [serialize] looks a serializer up under the [localName] of the
    node that the node factory returned, which for a qualified name
    with a prefix is the part after the colon, and under its
    [namespaceURI], [null] reading as the key of that name.  With a
    factory made by [makeSimpleNodeFactory] for a fixed name that the
    DOM accepts with the namespace of the factory, the element is
    created first: the serializer that the table has for it is then
    called on it; when the table has none, and the lookup finds no
    member of [Object.prototype] either, a [TypeError] is thrown with
    the element already created. *)
Theorem serializer_found_by_local_name
  (serializersNS : gmap string (gmap string Serializer))
  (qualifiedName : string) (opt_namespaceURI : option string)
  (objectStack ctx : loc) (p : nid) (ns : option string) (this : Val)
  (key : option string) (value : Val) (s : State) :
  context_frame objectStack ctx p ns s →
  let uri := match opt_namespaceURI with
             | Some uri => Some uri
             | None => ns
             end in
  dom_accepts uri qualifiedName = true →
  let write := writeEntry serializersNS
                 (makeSimpleNodeFactory (Some qualifiedName)
                    opt_namespaceURI) objectStack this key value in
  write s =
  (n <- createElementNS uri qualifiedName ;;
   callSerializer serializersNS uri (local_part qualifiedName) this n value
     objectStack) s ∧
  (∀ serializer,
     registered serializersNS uri (local_part qualifiedName)
       = Some serializer →
     write s =
     (n <- createElementNS uri qualifiedName ;;
      serializer this n value objectStack) s) ∧
  (registered serializersNS uri (local_part qualifiedName) = None →
   inherits serializersNS (default "null" uri) (local_part qualifiedName)
     = false →
   write s = Throw TypeError (state_of (createElementNS uri qualifiedName s))).
Proof.
  intros Hctx uri _ write.
  pose proof (writeEntry_simple_factory serializersNS (Some qualifiedName)
                opt_namespaceURI objectStack ctx p ns this key value s Hctx)
    as Hwrite.
  cbv zeta in Hwrite. fold uri write in Hwrite.
  cbn [factory_name default from_option id] in Hwrite.
  split; [exact Hwrite|]. split.
  - intros serializer Hreg. rewrite Hwrite. unfold bind, createElementNS.
    by rewrite (callSerializer_registered _ _ _ _ _ _ _ _ Hreg).
  - intros Hmiss Hin. rewrite Hwrite. unfold bind, createElementNS.
    by rewrite (callSerializer_miss _ _ _ _ _ _ _ Hmiss Hin).
Qed.

(** A serializer registered under the local name [pos]. *)
Definition POS_SERIALIZERS : gmap string (gmap string Serializer) :=
  {[ "urn:gml" := {[ "pos" := makeChildAppender writeValue VUndefined ]} ]}.

(** The frame on the stack is for the element [Point] of the namespace
    [urn:gml]. *)
Definition point_state : State :=
  mkState {[ 0 := Arr [VObj 1]; 1 := Rec {[ "node" := VNode 0 ]} ]}
    {[ 0 := mkDomNode (Some "urn:gml") "Point" None [] [] ]} ∅.

Lemma serializer_found_by_local_name_witness :
  ∃ s',
    writeEntry POS_SERIALIZERS (makeSimpleNodeFactory (Some "gml:pos") None)
      0 VUndefined None (VStr "1 2") point_state = Ok tt s' ∧
    nodes s' !! 1 =
      Some (mkDomNode (Some "urn:gml") "pos" (Some 0) []
              [("value", VStr "1 2")]).
Proof.
  eexists.
  rewrite (proj1 (serializer_found_by_local_name POS_SERIALIZERS "gml:pos"
                    None 0 1 0 (Some "urn:gml") VUndefined None (VStr "1 2")
                    point_state
                    ltac:(split; [by exists []|]; split; by eexists)
                    eq_refl)).
  split; reflexivity.
Defined.

(** * What [serialize] adds to the output document *)

(** No node of the document refers to a node that is not in the
    store. *)
Definition linked (nd : gmap nid DomNode) : Prop :=
  ∀ q dq, nd !! q = Some dq →
    (∀ r, parentNode dq = Some r → is_Some (nd !! r)) ∧
    (∀ c, c ∈ childNodes dq → is_Some (nd !! c)).

Lemma not_ancestor (nd : gmap nid DomNode) n :
  (∀ q dq, nd !! q = Some dq → parentNode dq ≠ Some n) →
  ∀ fuel p, n ≠ p → inclusive_ancestor fuel nd n p = false.
Proof.
  intros Hparents. induction fuel as [|fuel IH]; intros p Hnp; simpl;
    rewrite bool_decide_eq_false_2 by done; [done|]. simpl.
  destruct (nd !! p) as [dp|] eqn:Hp; [|done]. simpl.
  destruct (parentNode dp) as [q|] eqn:Hq; [|done].
  apply IH. intros ->. by apply (Hparents p dp).
Qed.

Lemma forEach_fold_under {A X} (Inv : X → Prop) (build : X → State)
  (step : X → A → X) (body : A → M unit) (l : list A) :
  (∀ x a, a ∈ l → Inv x →
          body a (build x) = Ok tt (build (step x a)) ∧ Inv (step x a)) →
  ∀ x, Inv x → forEach body l (build x) = Ok tt (build (foldl step x l)).
Proof.
  induction l as [|a l IH]; intros Hbody x Hx; [done|].
  cbn [forEach foldl].
  destruct (Hbody x a (list_elem_of_here _ _) Hx) as [Hrun Hnext].
  rewrite (bind_Ok _ _ _ _ _ Hrun). apply IH; [|done].
  intros y b Hb. apply Hbody. by right.
Qed.

Section Appended.
Variable p : nid.
Variable ns uri : option string.

(** The element of the name [e.1] written for the value [e.2]. *)
Definition written (e : string * Val) : DomNode :=
  mkDomNode uri e.1 (Some p) [] [("value", e.2)].

(** The document after one more value has been written. *)
Definition append_value (nd : gmap nid DomNode) (e : string * Val)
  : gmap nid DomNode :=
  let n := fresh (dom nd) in
  <[n := written e]> (alter (add_child n) p nd).

(** The document is linked and has the node [p], of the namespace
    [ns]. *)
Definition context_node (nd : gmap nid DomNode) : Prop :=
  linked nd ∧ ∃ dp, nd !! p = Some dp ∧ namespaceURI dp = ns.

Lemma append_value_context nd e :
  context_node nd → context_node (append_value nd e).
Proof.
  intros [Hlinked (dp & Hp & Hns)]. unfold append_value.
  set (n := fresh (dom nd)).
  assert (nd !! n = None) as Hn by apply not_elem_of_dom, is_fresh.
  assert (n ≠ p) as Hnp by (intros ->; by rewrite Hp in Hn).
  split.
  - intros q dq Hq. destruct (decide (q = n)) as [->|Hqn].
    + rewrite lookup_insert_eq in Hq. injection Hq as <-. simpl. split.
      * intros r [= <-]. rewrite lookup_insert_ne, lookup_alter_eq by done.
        by rewrite Hp.
      * by intros c ?%elem_of_nil.
    + rewrite lookup_insert_ne in Hq by done.
      assert (∀ r, is_Some (nd !! r) →
                   is_Some (<[n := written e]> (alter (add_child n) p nd)
                              !! r))
        as Hstay.
      { intros r Hr. destruct (decide (r = n)) as [->|?].
        - by rewrite lookup_insert_eq.
        - rewrite lookup_insert_ne by done. by apply lookup_alter_is_Some. }
      destruct (decide (q = p)) as [->|Hqp].
      * rewrite lookup_alter_eq, Hp in Hq. injection Hq as <-. simpl.
        destruct (Hlinked p dp Hp) as [Hpar Hkids]. split.
        -- intros r Hr. by apply Hstay, Hpar.
        -- intros c [Hc| ->%list_elem_of_singleton]%elem_of_app.
           ++ by apply Hstay, Hkids.
           ++ by rewrite lookup_insert_eq.
      * rewrite lookup_alter_ne in Hq by done.
        destruct (Hlinked q dq Hq) as [Hpar Hkids]. split.
        -- intros r Hr. by apply Hstay, Hpar.
        -- intros c Hc. by apply Hstay, Hkids.
  - exists (add_child n dp). split; [|done].
    rewrite lookup_insert_ne, lookup_alter_eq by done. by rewrite Hp.
Qed.

Lemma append_values_spec es :
  ∀ nd,
    context_node nd →
    ∃ ids,
      Forall2 (λ id e, foldl append_value nd es !! id = Some (written e))
        ids es ∧
      (∀ id, id ∈ ids → nd !! id = None) ∧
      (∀ dp, nd !! p = Some dp →
             foldl append_value nd es !! p = Some (add_children ids dp)) ∧
      (∀ q, q ≠ p → q ∉ ids → foldl append_value nd es !! q = nd !! q).
Proof.
  induction es as [|e es IH]; intros nd Hnd.
  - exists []. split_and!; try done.
    + by intros id ?%elem_of_nil.
    + intros dp Hp. by rewrite add_children_nil.
  - cbn [foldl]. set (nd1 := append_value nd e).
    destruct (IH nd1) as (ids & Hids & Hfresh & Hp1 & Hrest);
      [by apply append_value_context|].
    set (n := fresh (dom nd)).
    assert (nd !! n = None) as Hn by apply not_elem_of_dom, is_fresh.
    assert (n ≠ p) as Hnp.
    { destruct Hnd as [_ (dp & Hp & _)]. intros Heq.
      by rewrite Heq, Hp in Hn. }
    assert (nd1 !! n = Some (written e)) as Hn1 by apply lookup_insert_eq.
    assert (n ∉ ids) as Hnids.
    { intros Hin. by rewrite (Hfresh _ Hin) in Hn1. }
    exists (n :: ids). split_and!.
    + constructor; [|exact Hids]. by rewrite Hrest.
    + intros id [->|Hin]%elem_of_cons; [done|].
      pose proof (Hfresh _ Hin) as Hid. unfold nd1, append_value in Hid.
      fold n in Hid. apply lookup_insert_None in Hid as [Hid _].
      by apply lookup_alter_None in Hid.
    + intros dp Hp. rewrite <- add_children_cons. apply Hp1.
      unfold nd1, append_value. fold n.
      rewrite lookup_insert_ne, lookup_alter_eq by done. by rewrite Hp.
    + intros q Hqp [Hqn Hq]%not_elem_of_cons. rewrite Hrest by done.
      unfold nd1, append_value. fold n.
      by rewrite lookup_insert_ne, lookup_alter_ne.
Qed.

Lemma children_view_appended h c nd es :
  context_node nd →
  children_view (mkState h (foldl append_value nd es) c) p =
  children_view (mkState h nd c) p ++
  ((λ e, (uri, e.1, [("value", e.2)])) <$> es).
Proof.
  intros Hnd. destruct (append_values_spec es nd Hnd)
    as (ids & Hids & Hfresh & Hp & Hrest).
  destruct Hnd as [Hlinked (dp & Hdp & Hns)].
  set (nd' := foldl append_value nd es) in *. clearbody nd'.
  unfold children_view. cbn [nodes]. rewrite (Hp dp Hdp), Hdp.
  cbn [add_children childNodes]. rewrite omap_app. f_equal.
  - destruct (Hlinked p dp Hdp) as [_ Hkids].
    induction (childNodes dp) as [|k kids IHkids]; [done|].
    cbn [omap list_omap].
    rewrite IHkids by (intros k' Hk'; apply Hkids; by right).
    destruct (Hkids k) as [dk Hk]; [by left|].
    destruct (decide (k = p)) as [->|Hkp].
    + by rewrite (Hp dp Hdp), Hdp.
    + rewrite Hrest; [done..|]. intros Hin. by rewrite (Hfresh _ Hin) in Hk.
  - clear Hfresh Hp Hrest.
    induction Hids as [|id e ids' es' Hid _ IH]; [done|].
    cbn [omap list_omap fmap list_fmap]. rewrite Hid. cbn. by rewrite IH.
Qed.

End Appended.

Section AppendedBySerialize.
Variable serializersNS : gmap string (gmap string Serializer).
Variable opt_nodeName opt_namespaceURI : option string.
Variable objectStack ctx : loc.
Variable p : nid.
Variable ns : option string.

(** The namespace of the elements created. *)
Definition created_in : option string :=
  match opt_namespaceURI with
  | Some uri => Some uri
  | None => ns
  end.

(** Every serializer of the table for that namespace appends the
    element to the node of the frame once it has written the value as
    an attribute. *)
Definition appenders : Prop :=
  ∀ name serializer,
    registered serializersNS created_in name = Some serializer →
    ∃ writer_this, serializer = makeChildAppender writeValue writer_this.

(** The frame at the top of the stack holds the node [p]. *)
Definition frame_on (h : gmap loc Obj) : Prop :=
  ∃ es m, h !! objectStack = Some (Arr (es ++ [VObj ctx])) ∧
          h !! ctx = Some (Rec m) ∧ m !! "node" = Some (VNode p).

(** The local name of the element created for a key. *)
Definition created_as (key : option string) : string :=
  local_part (factory_name opt_nodeName key).

Lemma context_node_created nd uri name :
  context_node p ns nd →
  context_node p ns
    (<[fresh (dom nd) := mkDomNode uri name None [] []]> nd).
Proof.
  intros [Hlinked (dp & Hp & Hns)]. set (n := fresh (dom nd)).
  assert (nd !! n = None) as Hn by apply not_elem_of_dom, is_fresh.
  assert (n ≠ p) as Hnp by (intros Heq; by rewrite Heq, Hp in Hn).
  assert (∀ r, is_Some (nd !! r) →
               is_Some (<[n := mkDomNode uri name None [] []]> nd !! r))
    as Hstay.
  { intros r Hr. destruct (decide (r = n)) as [->|?].
    - by rewrite lookup_insert_eq.
    - by rewrite lookup_insert_ne. }
  split.
  - intros q dq Hq. destruct (decide (q = n)) as [->|Hqn].
    + rewrite lookup_insert_eq in Hq. injection Hq as <-. simpl.
      split; [done|]. by intros c ?%elem_of_nil.
    + rewrite lookup_insert_ne in Hq by done.
      destruct (Hlinked q dq Hq) as [Hpar Hkids]. split.
      * intros r Hr. by apply Hstay, Hpar.
      * intros c Hc. by apply Hstay, Hkids.
  - exists dp. by rewrite lookup_insert_ne.
Qed.

Lemma writeEntry_appends this key v h nd c serializer :
  appenders →
  frame_on h →
  context_node p ns nd →
  registered serializersNS created_in (created_as key) = Some serializer →
  writeEntry serializersNS
    (makeSimpleNodeFactory opt_nodeName opt_namespaceURI)
    objectStack this key v (mkState h nd c) =
  Ok tt (mkState h (append_value p created_in nd (created_as key, v)) c).
Proof.
  intros Happ (es & m & Hstk & Hctx & Hnode) [Hlinked (dp & Hp & Hns)] Hreg.
  rewrite (writeEntry_simple_factory _ _ _ _ ctx p ns).
  2:{ split; [by exists es|]. split; [by exists m|by exists dp]. }
  cbv zeta. fold created_in. fold (created_as key).
  set (n := fresh (dom nd)).
  assert (nd !! n = None) as Hn by apply not_elem_of_dom, is_fresh.
  assert (n ≠ p) as Hnp by (intros Heq; by rewrite Heq, Hp in Hn).
  erewrite bind_Ok; [|reflexivity]. cbn [nodes heap cells].
  fold n. fold (created_as key).
  rewrite (callSerializer_registered _ _ _ _ _ _ _ _ Hreg).
  destruct (Happ _ _ Hreg) as (writer_this & ->).
  unfold makeChildAppender, writeValue, setAttribute.
  erewrite bind_Ok.
  2:{ erewrite bind_Ok;
        [|apply getNode_Ok; split; [|reflexivity]; cbn [nodes];
          apply lookup_insert_eq].
      reflexivity. }
  cbn [namespaceURI localName parentNode childNodes attributes app nodes
       heap cells].
  rewrite insert_insert_eq.
  erewrite bind_Ok; [|by eapply arr_top_snoc].
  erewrite bind_Ok; [|by eapply get_property_rec].
  rewrite (read_property_Some _ _ _ Hnode). cbn [val_appendChild].
  unfold appendChild.
  erewrite bind_Ok;
    [|apply getNode_Ok; split; [|reflexivity]; cbn [nodes];
      by rewrite lookup_insert_ne].
  erewrite bind_Ok;
    [|apply getNode_Ok; split; [|reflexivity]; cbn [nodes];
      apply lookup_insert_eq].
  cbn [nodes heap cells parentNode].
  rewrite not_ancestor; [|..|done].
  2:{ intros q dq Hq Hpar. destruct (decide (q = n)) as [->|Hqn].
      - rewrite lookup_insert_eq in Hq. by injection Hq as <-.
      - rewrite lookup_insert_ne in Hq by done.
        destruct (proj1 (Hlinked q dq Hq) n Hpar) as [x Hx].
        by rewrite Hn in Hx. }
  do 2 f_equal. unfold append_value. fold n.
  rewrite alter_insert_ne, alter_insert_eq by done. reflexivity.
Qed.

(** Whatever the table has for an element, writing it keeps the heap,
    the cells and the context node. *)
Lemma writeEntry_context this key v h nd c t' :
  appenders →
  frame_on h →
  context_node p ns nd →
  writeEntry serializersNS
    (makeSimpleNodeFactory opt_nodeName opt_namespaceURI)
    objectStack this key v (mkState h nd c) = Ok tt t' →
  heap t' = h ∧ cells t' = c ∧ context_node p ns (nodes t').
Proof.
  intros Happ Hframe Hnd.
  destruct (registered serializersNS created_in (created_as key))
    as [serializer|] eqn:Hreg.
  { rewrite (writeEntry_appends _ _ _ _ _ _ _ Happ Hframe Hnd Hreg).
    intros [= <-]. split; [done|]. split; [done|].
    by apply append_value_context. }
  pose proof Hframe as (es & m & Hstk & Hctx & Hnode).
  pose proof Hnd as [_ (dp & Hp & Hns)].
  rewrite (writeEntry_simple_factory _ _ _ _ ctx p ns).
  2:{ split; [by exists es|]. split; [by exists m|by exists dp]. }
  cbv zeta. fold created_in. fold (created_as key).
  erewrite bind_Ok; [|reflexivity]. cbn [nodes heap cells].
  unfold callSerializer, registered in *.
  unfold lookup_key at 1.
  destruct (serializersNS !! default "null" created_in)
    as [serializers|] eqn:Hns'.
  - simpl in Hreg. unfold lookup_key. rewrite Hreg.
    destruct (inherited (created_as key)) as [b|]; [|done].
    intros ->%call_member_Ok. split; [done|]. split; [done|].
    by apply context_node_created.
  - by destruct (inherited (default "null" created_in)).
Qed.

End AppendedBySerialize.

(** X16.  What [serialize] adds to the document when elements are made
    by a node factory of [makeSimpleNodeFactory] and written by child
    appenders around a writer of one attribute, the table having a
    serializer for each of them: for each value that is not
    [undefined], in the order of the array, one element is appended to
    the node of the context frame.  It is in the fixed namespace or
    else in that of the node, its name (a name without a prefix, which
    the DOM accepts with that namespace) is the fixed name or else the
    key of the value, and it carries the value.  The children the node
    had stay in front; the other nodes of the document and the heap do
    not change. *)
Theorem serialize_appends_children
  (serializersNS : gmap string (gmap string Serializer))
  (opt_nodeName opt_namespaceURI : option string) (objectStack ctx : loc)
  (p : nid) (ns : option string) (values : loc) (vs : list Val)
  (opt_keys : option (list string)) (opt_this : Val) (s : State) :
  appenders serializersNS opt_namespaceURI ns →
  context_frame objectStack ctx p ns s →
  linked (nodes s) →
  heap s !! values = Some (Arr vs) →
  (∀ e, e ∈ entries opt_keys vs → defined e.2 = true →
        after_colon (factory_name opt_nodeName e.1) = None ∧
        dom_accepts (created_in opt_namespaceURI ns)
          (factory_name opt_nodeName e.1) = true ∧
        is_Some (registered serializersNS (created_in opt_namespaceURI ns)
                   (factory_name opt_nodeName e.1))) →
  ∃ s',
    serialize serializersNS
      (makeSimpleNodeFactory opt_nodeName opt_namespaceURI) (VObj values)
      objectStack opt_keys opt_this s = Ok tt s' ∧
    heap s' = heap s ∧ cells s' = cells s ∧
    children_view s' p =
      children_view s p ++
      ((λ e, (created_in opt_namespaceURI ns, factory_name opt_nodeName e.1,
              [("value", e.2)])) <$>
         filter (λ e, defined e.2 = true) (entries opt_keys vs)) ∧
    ∀ q, q ≠ p → is_Some (nodes s !! q) → nodes s' !! q = nodes s !! q.
Proof.
  intros Happ ((es & Hstk) & (m & Hctx & Hnode) & (dp & Hp & Hns))
    Hlinked Hvalues Hreg.
  set (uri := created_in opt_namespaceURI ns) in *.
  assert (frame_on objectStack ctx p (heap s)) as Hframe
    by (by exists es, m).
  assert (context_node p ns (nodes s)) as Hnd
    by (split; [done|by exists dp]).
  set (I := λ t, heap t = heap s ∧ cells t = cells s ∧
                 context_node p ns (nodes t)).
  set (l := filter (λ e, defined e.2 = true) (entries opt_keys vs)).
  set (named := λ e : option string * Val, (created_as opt_nodeName e.1, e.2)).
  assert (∀ e, e ∈ l →
               created_as opt_nodeName e.1 = factory_name opt_nodeName e.1 ∧
               is_Some (registered serializersNS uri
                          (created_as opt_nodeName e.1))) as Hl.
  { intros e [Hv Hin]%list_elem_of_filter.
    destruct (Hreg e Hin Hv) as (Hplain & _ & Hser). unfold created_as.
    by rewrite (local_part_plain _ Hplain). }
  exists (mkState (heap s) (foldl (append_value p uri) (nodes s) (named <$> l))
            (cells s)).
  assert (∀ nd, context_node p ns nd →
                I (mkState (heap s) nd (cells s))) as HI by done.
  split; [|split; [done|split; [done|split]]].
  - rewrite (serialize_entries_under serializersNS _ objectStack opt_this
               values vs I).
    + fold l.
      replace s with (mkState (heap s) (nodes s) (cells s)) at 1
        by (by destruct s).
      rewrite (forEach_fold_under (context_node p ns)
                 (λ nd, mkState (heap s) nd (cells s))
                 (λ nd e, append_value p uri nd (named e))); [|..|done].
      * by rewrite foldl_fmap.
      * intros nd [key v] Hin Hx.
        split; [|by apply append_value_context].
        destruct (proj2 (Hl _ Hin)) as [ser Hser].
        by rewrite (writeEntry_appends _ _ _ _ ctx p ns _ _ _ _ _ _ ser).
    + split.
      * intros t (Hheap & _ & _). by rewrite Hheap.
      * intros key v [h nd c] t' (Hheap & Hcells & Hx) Hrun.
        simpl in Hheap, Hcells, Hx. subst h c.
        by apply (writeEntry_context _ _ _ _ ctx p ns) in Hrun.
    + by apply HI in Hnd; destruct s.
  - replace (children_view s p)
      with (children_view (mkState (heap s) (nodes s) (cells s)) p)
      by (by destruct s).
    rewrite (children_view_appended p ns uri) by done.
    rewrite <- list_fmap_compose. f_equal.
    apply Forall_fmap_ext_1, Forall_forall. intros e He.
    cbn. by rewrite (proj1 (Hl _ He)).
  - intros q Hqp [dq Hq]. cbn [nodes].
    destruct (append_values_spec p ns uri (named <$> l) (nodes s) Hnd)
      as (ids & _ & Hfresh & _ & Hrest).
    apply Hrest; [done|]. intros Hin. by rewrite (Hfresh _ Hin) in Hq.
Qed.

(** The record at address 1 is [{a: 1, c: 2}] as a sequence for the
    keys [a], [b] and [c]. *)
Definition keyed_state : State :=
  mkState
    {[ 0 := Arr [VObj 3]; 2 := Arr [VNum 1; VUndefined; VNum 2];
       3 := Rec {[ "node" := VNode 0 ]} ]}
    {[ 0 := mkDomNode (Some "urn:items") "items" None [] [] ]}
    ∅.

Lemma serialize_appends_children_witness :
  ∃ s',
    serialize KEYED_SERIALIZERS OBJECT_PROPERTY_NODE_FACTORY (VObj 2) 0
      (Some ["a"; "b"; "c"]) VUndefined keyed_state = Ok tt s' ∧
    children_view s' 0 =
      [ (Some "urn:items", "a", [("value", VNum 1)]);
        (Some "urn:items", "c", [("value", VNum 2)]) ].
Proof.
  destruct (serialize_appends_children KEYED_SERIALIZERS None None 0 3 0
              (Some "urn:items") 2 [VNum 1; VUndefined; VNum 2]
              (Some ["a"; "b"; "c"]) VUndefined keyed_state)
    as (s' & Hrun & _ & _ & Hview & _).
  - intros name serializer Hreg. exists VUndefined.
    apply KEYED_SERIALIZERS_handler. unfold registered in Hreg.
    destruct (KEYED_SERIALIZERS !! _) as [serializers|] eqn:Hns; [|done].
    by eexists _, serializers, name.
  - split; [by exists []|]. split; [by eexists|by eexists].
  - intros q dq Hq. cbn [keyed_state nodes] in Hq.
    apply lookup_singleton_Some in Hq as [<- <-]. split; [done|].
    by intros c ?%elem_of_nil.
  - reflexivity.
  - intros e He Hdef. cbn in He.
    repeat (apply elem_of_cons in He as [->|He];
            [split; [reflexivity|split; [reflexivity|by eexists]]|]).
    by apply elem_of_nil in He.
  - exists s'. split; [exact Hrun|]. rewrite Hview. reflexivity.
Defined.
